(** * A loose-region quadtree (src/quadtree.go): shallow embedding and properties

    The Go package stores axis-aligned boxes ([PhysicalObject]) in a tree of
    rectangular regions ([Quadtree]).  Coordinates are [float64]; they are
    embedded as Rocq's primitive IEEE-754 binary64 floats, so the comparisons
    and the arithmetic of the source are evaluated exactly as Go evaluates
    them.  Go's [int] is embedded as [Z] with the 64-bit wrap-around written
    out where the source computes. *)

From Stdlib Require Import ZArith List Bool Lia Permutation.
From Stdlib Require Import Floats.
Import ListNotations.

Local Open Scope Z_scope.

(** ** Numbers *)

(** Go's [a >= b] on float64: false as soon as one side is NaN. *)
Definition fge (a b : float) : bool := PrimFloat.leb b a.

Notation "a >=? b" := (fge a b) (at level 70, no associativity) : float_scope.

(** Go's [int] (64 bits, two's complement). *)
Definition int_min : Z := - 2 ^ 63.
Definition int_max : Z := 2 ^ 63 - 1.

Definition int_wrap (z : Z) : Z := (z + 2 ^ 63) mod 2 ^ 64 - 2 ^ 63.

Definition is_int (z : Z) : Prop := int_min <= z <= int_max.

(** ** Geometry primitives *)

(** [type PhysicalObject interface]: the four geometry getters.  An object is
    held by reference; [ident] stands for the referent, and the interface
    comparison [one == target] of the source compares referents. *)
Record PhysicalObject : Type := mkObject {
  ident : positive;
  X : float;
  Y : float;
  Width : float;
  Height : float
}.

Definition same_object (one target : PhysicalObject) : bool :=
  Pos.eqb (ident one) (ident target).

(** [func Distance(one, another PhysicalObject) float64].  [math.Abs] and
    [math.Sqrt] are the operations of binary64; [math.Pow] is a parameter. *)
Section Power.
Variable pow : float -> float -> float.

Definition Distance (one another : PhysicalObject) : float :=
  if (X one =? X another)%float then abs (Y one - Y another)
  else if (Y one =? Y another)%float then abs (X one - X another)
  else sqrt (pow (X one - X another) 2 + pow (Y one - Y another) 2).
End Power.

(** [func Intersect(one, another PhysicalObject) bool] *)
Definition Intersect (one another : PhysicalObject) : bool :=
  let verticalOverlap :=
    (abs (Y one - Y another) <? (Height one + Height another) / 2)%float in
  let horizontalOverlap :=
    (abs (X one - X another) <? (Width one + Width another) / 2)%float in
  if (X one =? X another)%float then verticalOverlap
  else if (Y one =? Y another)%float then horizontalOverlap
  else verticalOverlap && horizontalOverlap.

(** [type Bounds struct { X, Y, Width, Height float64 }] *)
Record Bounds : Type := mkBounds {
  bX : float;
  bY : float;
  bWidth : float;
  bHeight : float
}.

(** [func (b *Bounds) Contains(obj PhysicalObject) bool] *)
Definition Contains (b : Bounds) (obj : PhysicalObject) : bool :=
  (X obj >=? bX b)%float &&
  (Y obj >=? bY b)%float &&
  (X obj + Width obj <=? bX b + bWidth b)%float &&
  (Y obj + Height obj <=? bY b + bHeight b)%float.

(** ** Quadrant classification

    [Build] (lines 106-132) and [Insert] (lines 275-297) compute the
    quadrant of an object with the same statements, token for token; they
    are embedded once. *)
Definition horizontalMidpoint (b : Bounds) : float := (bX b + bWidth b / 2)%float.
Definition verticalMidpoint (b : Bounds) : float := (bY b + bHeight b / 2)%float.

Definition topPart (b : Bounds) (obj : PhysicalObject) : bool :=
  (Y obj >=? bY b)%float && (Y obj + Height obj <=? verticalMidpoint b)%float.
Definition bottomPart (b : Bounds) (obj : PhysicalObject) : bool :=
  (Y obj >=? verticalMidpoint b)%float && (Y obj + Height obj <=? bHeight b)%float.
Definition leftPart (b : Bounds) (obj : PhysicalObject) : bool :=
  (X obj >=? bX b)%float && (X obj + Width obj <=? horizontalMidpoint b)%float.
Definition rightPart (b : Bounds) (obj : PhysicalObject) : bool :=
  (X obj >=? horizontalMidpoint b)%float && (X obj + Width obj <=? bWidth b)%float.

Definition quadrantIndex (b : Bounds) (obj : PhysicalObject) : Z :=
  if topPart b obj then
    if leftPart b obj then 0
    else if rightPart b obj then 1
    else -1
  else if bottomPart b obj then
    if leftPart b obj then 2
    else if rightPart b obj then 3
    else -1
  else -1.

(** The four candidate child bounds ([subBounds] in [Build], the [switch] in
    [Insert]). *)
Definition subBounds (b : Bounds) (i : Z) : Bounds :=
  match i with
  | 0 => mkBounds (bX b) (bY b) (bWidth b / 2) (bHeight b / 2)
  | 1 => mkBounds (bX b + bWidth b / 2) (bY b) (bWidth b / 2) (bHeight b / 2)
  | 2 => mkBounds (bX b) (bY b + bHeight b / 2) (bWidth b / 2) (bHeight b / 2)
  | _ => mkBounds (bX b + bWidth b / 2) (bY b + bHeight b / 2) (bWidth b / 2) (bHeight b / 2)
  end.

(** Modelled from the spec: the classification of section 4.2, whose
    [bottom] and [right] tests compare with [Y+Height] and [X+Width]. *)
Definition spec_bottom (b : Bounds) (obj : PhysicalObject) : bool :=
  (Y obj >=? verticalMidpoint b)%float && (Y obj + Height obj <=? bY b + bHeight b)%float.
Definition spec_right (b : Bounds) (obj : PhysicalObject) : bool :=
  (X obj >=? horizontalMidpoint b)%float && (X obj + Width obj <=? bX b + bWidth b)%float.

Definition spec_quadrantIndex (b : Bounds) (obj : PhysicalObject) : Z :=
  if topPart b obj && leftPart b obj then 0
  else if topPart b obj && spec_right b obj then 1
  else if spec_bottom b obj && leftPart b obj then 2
  else if spec_bottom b obj && spec_right b obj then 3
  else -1.

(** ** The region node *)

(** [Nodes [4]*Quadtree]: a fixed array of four slots, [None] for [nil]. *)
Record slots (A : Type) : Type := mkSlots { slot0 : A; slot1 : A; slot2 : A; slot3 : A }.
Arguments mkSlots {A} _ _ _ _.
Arguments slot0 {A} _.
Arguments slot1 {A} _.
Arguments slot2 {A} _.
Arguments slot3 {A} _.

(** [type Quadtree struct].  The embedded [*Bounds] is the field [bounds].
    [m_parent] is not a field here: a node's parent is the node whose slot
    holds it, and the operations that follow [m_parent] receive the chain of
    ancestors explicitly. *)
#[local] Unset Elimination Schemes.
Inductive Quadtree : Type := mkQuadtree {
  bounds : Bounds;
  MaxObjects : Z;
  MaxLevels : Z;
  Level : Z;
  m_Objects : list PhysicalObject;
  Nodes : slots (option Quadtree);
  m_ActiveNodes : Z;
  m_curLife : Z;
  m_maxLifespan : Z
}.
#[local] Set Elimination Schemes.

(** ** Effects of a method call

    A method has a pointer receiver and may write any field of the nodes
    it reaches: it is embedded as a function that returns the receiver as
    the call leaves it, next to the result.  A method either panics (a [nil]
    child is dereferenced, or [Nodes] is indexed past its four slots) or
    returns.  The only way the tree acts on an object is its [Update] hook;
    the calls of the hook are logged. *)
Definition HookLog : Type := list (positive * Z).

Definition M (A : Type) : Type := HookLog -> option (A * HookLog).

Definition ret {A : Type} (a : A) : M A := fun log => Some (a, log).

Definition bind {A B : Type} (m : M A) (k : A -> M B) : M B :=
  fun log => match m log with
             | Some (a, log') => k a log'
             | None => None
             end.

Definition panic {A : Type} : M A := fun _ => None.

(** [obj.Update(delta)]: line 189, in the second step of [Update], is the
    one place where the source calls the hook. *)
Definition callUpdate (obj : PhysicalObject) (delta : Z) : M unit :=
  fun log => Some (tt, log ++ [(ident obj, delta)]).

Notation "x <- m ;; k" := (bind m (fun x => k))
  (at level 61, m at next level, right associativity).
Notation "' p <- m ;; k" := (bind m (fun x => match x with p => k end))
  (at level 61, p pattern, m at next level, right associativity).

(** *** The loop over the active children

    [[
      flags := qt.m_ActiveNodes
      index := 0
      for flags > 0 {
        if flags&1 == 1 { ... qt.Nodes[index] ... }
        flags >>= 1
        index += 1
      }
    ]]
    [m_ActiveNodes] is a byte.  The loop reaches index [i] with
    [flags = mask >> i], so it runs its body on the slots 0..3 whose bit is
    set, in this order, and goes on to index 4 when a higher bit is set,
    where [qt.Nodes[index]] is out of range.  The body may [return] from the
    method: it then reports [true], and no later slot is visited. *)
Section ActiveLoop.
Context {S : Type}.
Variable body : Z -> Quadtree -> S -> M (Quadtree * S * bool).

Definition visitSlot (mask index : Z) (slot : option Quadtree) (st : S * bool)
  : M (option Quadtree * (S * bool)) :=
  if snd st then ret (slot, st)
  else if Z.testbit mask index then
    match slot with
    | None => panic
    | Some child =>
        '(child', s', r) <- body index child (fst st) ;;
        ret (Some child', (s', r))
    end
  else ret (slot, st).

Definition forActive (mask : Z) (ns : slots (option Quadtree)) (s : S)
  : M (slots (option Quadtree) * S * bool) :=
  '(n0, st) <- visitSlot mask 0 (slot0 ns) (s, false) ;;
  '(n1, st) <- visitSlot mask 1 (slot1 ns) st ;;
  '(n2, st) <- visitSlot mask 2 (slot2 ns) st ;;
  '(n3, st) <- visitSlot mask 3 (slot3 ns) st ;;
  if snd st then ret (mkSlots n0 n1 n2 n3, fst st, true)
  else if 16 <=? mask then panic
  else ret (mkSlots n0 n1 n2 n3, fst st, false).
End ActiveLoop.

(** Field updates. *)
Definition set_Nodes (qt : Quadtree) (ns : slots (option Quadtree)) : Quadtree :=
  mkQuadtree (bounds qt) (MaxObjects qt) (MaxLevels qt) (Level qt) (m_Objects qt)
    ns (m_ActiveNodes qt) (m_curLife qt) (m_maxLifespan qt).

Definition set_Objects (qt : Quadtree) (objs : list PhysicalObject) : Quadtree :=
  mkQuadtree (bounds qt) (MaxObjects qt) (MaxLevels qt) (Level qt) objs
    (Nodes qt) (m_ActiveNodes qt) (m_curLife qt) (m_maxLifespan qt).

Definition set_ActiveNodes (qt : Quadtree) (mask : Z) : Quadtree :=
  mkQuadtree (bounds qt) (MaxObjects qt) (MaxLevels qt) (Level qt) (m_Objects qt)
    (Nodes qt) mask (m_curLife qt) (m_maxLifespan qt).

Definition set_Level (qt : Quadtree) (level : Z) : Quadtree :=
  mkQuadtree (bounds qt) (MaxObjects qt) (MaxLevels qt) level (m_Objects qt)
    (Nodes qt) (m_ActiveNodes qt) (m_curLife qt) (m_maxLifespan qt).

Definition set_curLife (qt : Quadtree) (life : Z) : Quadtree :=
  mkQuadtree (bounds qt) (MaxObjects qt) (MaxLevels qt) (Level qt) (m_Objects qt)
    (Nodes qt) (m_ActiveNodes qt) life (m_maxLifespan qt).

Definition set_maxLifespan (qt : Quadtree) (span : Z) : Quadtree :=
  mkQuadtree (bounds qt) (MaxObjects qt) (MaxLevels qt) (Level qt) (m_Objects qt)
    (Nodes qt) (m_ActiveNodes qt) (m_curLife qt) span.

Definition getSlot {A : Type} (index : Z) (ns : slots A) : option A :=
  match index with
  | 0 => Some (slot0 ns)
  | 1 => Some (slot1 ns)
  | 2 => Some (slot2 ns)
  | 3 => Some (slot3 ns)
  | _ => None
  end.

Definition setSlot {A : Type} (index : Z) (a : A) (ns : slots A) : slots A :=
  match index with
  | 0 => mkSlots a (slot1 ns) (slot2 ns) (slot3 ns)
  | 1 => mkSlots (slot0 ns) a (slot2 ns) (slot3 ns)
  | 2 => mkSlots (slot0 ns) (slot1 ns) a (slot3 ns)
  | 3 => mkSlots (slot0 ns) (slot1 ns) (slot2 ns) a
  | _ => ns
  end.

Definition len (objs : list PhysicalObject) : Z := Z.of_nat (length objs).

(** ** Construction *)

(** [func CreateQuadtree(bounds, maxObjectsBeforeSplit, maxLevelsToSplit,
    physicalObjects...)]: the fields that the literal leaves out are zero. *)
Definition CreateQuadtree (b : Bounds) (maxObjectsBeforeSplit maxLevelsToSplit : Z)
    (physicalObjects : list PhysicalObject) : Quadtree :=
  mkQuadtree b maxObjectsBeforeSplit maxLevelsToSplit 0 physicalObjects
    (mkSlots None None None None) 0 (-1) 64.

(** [func (qt *Quadtree) createSubtree(bounds, physicals...)] *)
Definition createSubtree (qt : Quadtree) (b : Bounds) (physicals : list PhysicalObject)
  : Quadtree :=
  set_Level (CreateQuadtree b (MaxObjects qt) (MaxLevels qt) physicals)
            (int_wrap (Level qt + 1)).

(** [func (qt *Quadtree) Build()].

    The first loop leaves at the node the objects of index -1 and collects
    the others, in order, in [subtreeObjects[index]]; the second loop makes a
    child of every non-empty bucket and builds it.  The recursion is on the
    fresh child, one level deeper; it stops by the guard on [Level], which
    the fuel of [Build] covers ([Build_fuel_enough]). *)
Definition subtreeObjects (qt : Quadtree) (index : Z) : list PhysicalObject :=
  filter (fun obj => quadrantIndex (bounds qt) obj =? index) (m_Objects qt).

Definition Build_guard (qt : Quadtree) : bool :=
  (len (m_Objects qt) <=? MaxObjects qt) || (Level qt >=? MaxLevels qt).

(** One round of the second loop: [if len(objects) > 0 { ... }] for the
    bucket [i], on the node [qt1] as the earlier rounds left it; [build] is
    [Build] on the fresh child. *)
Definition buildChild (build : Quadtree -> Quadtree) (qt : Quadtree) (i : Z)
    (qt1 : Quadtree) : Quadtree :=
  match subtreeObjects qt i with
  | [] => qt1
  | objects =>
      let sub := build (createSubtree qt (subBounds (bounds qt) i) objects) in
      set_ActiveNodes (set_Nodes qt1 (setSlot i (Some sub) (Nodes qt1)))
                      (Z.lor (m_ActiveNodes qt1) (Z.shiftl 1 i))
  end.

Fixpoint Build_fuel (fuel : nat) (qt : Quadtree) : Quadtree :=
  if Build_guard qt then qt
  else
    match fuel with
    | O => qt
    | S fuel' =>
        let child := buildChild (Build_fuel fuel') qt in
        child 3 (child 2 (child 1 (child 0 (set_Objects qt (subtreeObjects qt (-1))))))
    end.

Definition Build (qt : Quadtree) : Quadtree :=
  Build_fuel (Z.to_nat (MaxLevels qt - Level qt)) qt.

(** [func (qt *Quadtree) UpdateTree(objects *list.List)].  The list is
    passed by pointer; on [nil] ([None]) the first statement of [Build],
    [qt.m_Objects.Len()], reads through it. *)
Definition UpdateTree (qt : Quadtree) (objects : option (list PhysicalObject))
  : M Quadtree :=
  let qt1 := set_ActiveNodes qt 0 in
  let qt2 := set_Nodes qt1 (mkSlots None None None None) in
  match objects with
  | None => panic
  | Some objs => ret (Build (set_Objects qt2 objs))
  end.

(** ** Insertion *)

Definition PushBack (qt : Quadtree) (physical : PhysicalObject) : Quadtree :=
  set_Objects qt (m_Objects qt ++ [physical]).

(** Lines 262-273 of [Insert]: the node has no active child. *)
Definition Insert_leaf (qt : Quadtree) (physical : PhysicalObject) : Quadtree :=
  let qt1 := PushBack qt physical in
  if (len (m_Objects qt1) <? MaxObjects qt1) || (Level qt1 =? MaxLevels qt1)
  then qt1
  else Build qt1.

(** [f] runs on slot [index] of [ns] and its result is stored back. *)
Definition onSlot (index : Z) (ns : slots (option Quadtree))
    (f : option Quadtree -> M (option Quadtree)) : M (slots (option Quadtree)) :=
  match index with
  | 0 => n <- f (slot0 ns) ;; ret (mkSlots n (slot1 ns) (slot2 ns) (slot3 ns))
  | 1 => n <- f (slot1 ns) ;; ret (mkSlots (slot0 ns) n (slot2 ns) (slot3 ns))
  | 2 => n <- f (slot2 ns) ;; ret (mkSlots (slot0 ns) (slot1 ns) n (slot3 ns))
  | 3 => n <- f (slot3 ns) ;; ret (mkSlots (slot0 ns) (slot1 ns) (slot2 ns) n)
  | _ => panic
  end.

(** [func (qt *Quadtree) Insert(physical PhysicalObject)].

    When the quadrant has no child yet, a fresh one is stored and
    [physical] is inserted into it; the fresh child has no active child of
    its own, so that insertion is [Insert_leaf] ([Insert_createSubtree]). *)
Fixpoint Insert (qt : Quadtree) (physical : PhysicalObject) : M Quadtree :=
  if m_ActiveNodes qt =? 0 then ret (Insert_leaf qt physical)
  else
    let index := quadrantIndex (bounds qt) physical in
    if index =? -1 then ret (PushBack qt physical)
    else if Z.land (m_ActiveNodes qt) (Z.shiftl 1 index) =? 0 then
      let sub := createSubtree qt (subBounds (bounds qt) index) [] in
      ret (set_ActiveNodes
             (set_Nodes qt (setSlot index (Some (Insert_leaf sub physical)) (Nodes qt)))
             (Z.lor (m_ActiveNodes qt) (Z.shiftl 1 index)))
    else
      ns <- onSlot index (Nodes qt)
              (fun slot => match slot with
                           | None => panic
                           | Some child => child' <- Insert child physical ;; ret (Some child')
                           end) ;;
      ret (set_Nodes qt ns).

(** ** Removal *)

(** The scan of a node's own list (lines 331-337): the list without its
    first element that is [target], or [None] when there is none. *)
Fixpoint removeFirst (target : PhysicalObject) (objs : list PhysicalObject)
  : option (list PhysicalObject) :=
  match objs with
  | [] => None
  | one :: rest =>
      if same_object one target then Some rest
      else option_map (cons one) (removeFirst target rest)
  end.

(** [func (qt *Quadtree) Remove(target PhysicalObject) bool] *)
Fixpoint Remove (qt : Quadtree) (target : PhysicalObject) : M (Quadtree * bool) :=
  match removeFirst target (m_Objects qt) with
  | Some objs => ret (set_Objects qt objs, true)
  | None =>
      '(ns, _, removed) <- forActive
          (fun _ child (_ : unit) =>
             '(child', removed) <- Remove child target ;; ret (child', tt, removed))
          (m_ActiveNodes qt) (Nodes qt) tt ;;
      ret (set_Nodes qt ns, removed)
  end.

(** ** Queries *)

(** [func (qt *Quadtree) Walk(walker func(PhysicalObject))].  The visitor
    acts on a state [W] of its own. *)
Fixpoint Walk {W : Type} (qt : Quadtree) (walker : PhysicalObject -> W -> W) (w : W)
  : M (Quadtree * W) :=
  let w1 := fold_left (fun acc obj => walker obj acc) (m_Objects qt) w in
  '(ns, w2, _) <- forActive
      (fun _ child s => '(child', s') <- Walk child walker s ;; ret (child', s', false))
      (m_ActiveNodes qt) (Nodes qt) w1 ;;
  ret (set_Nodes qt ns, w2).

(** [func (qt *Quadtree) FindObject(target PhysicalObject) *Quadtree].  The
    node returned is named by the slots that lead to it from [qt] ([[]] is
    [qt] itself); [None] is [nil]. *)
Fixpoint FindObject (qt : Quadtree) (target : PhysicalObject)
  : M (Quadtree * option (list Z)) :=
  if existsb (fun one => same_object one target) (m_Objects qt) then ret (qt, Some [])
  else
    '(ns, sub, _) <- forActive
        (fun index child (_ : option (list Z)) =>
           '(child', sub) <- FindObject child target ;;
           match sub with
           | Some path => ret (child', Some (index :: path), true)
           | None => ret (child', None, false)
           end)
        (m_ActiveNodes qt) (Nodes qt) None ;;
    ret (set_Nodes qt ns, sub).

(** The objects of [objs] that the two query loops append for [target]. *)
Definition intersected (target : PhysicalObject) (objs : list PhysicalObject)
  : list PhysicalObject :=
  filter (fun obj => negb (same_object obj target) && Intersect target obj) objs.

(** [func (qt *Quadtree) GetIntersectedObjectsRaw(target, objects)] *)
Fixpoint GetIntersectedObjectsRaw (qt : Quadtree) (target : PhysicalObject)
    (objects : list PhysicalObject) : M (Quadtree * list PhysicalObject) :=
  let objects1 := objects ++ intersected target (m_Objects qt) in
  '(ns, objects2, _) <- forActive
      (fun _ child objs =>
         '(child', objs') <- GetIntersectedObjectsRaw child target objs ;;
         ret (child', objs', false))
      (m_ActiveNodes qt) (Nodes qt) objects1 ;;
  ret (set_Nodes qt ns, objects2).

(** The lists of direct objects of the ancestors of the node at [path],
    nearest first; [above] are those of the ancestors of [qt] itself. *)
Fixpoint parentObjects (path : list Z) (qt : Quadtree)
    (above : list (list PhysicalObject)) : M (list (list PhysicalObject)) :=
  match path with
  | [] => ret above
  | index :: rest =>
      match getSlot index (Nodes qt) with
      | Some (Some child) => parentObjects rest child (m_Objects qt :: above)
      | _ => panic
      end
  end.

(** A method [f] called on the node at [path]. *)
Fixpoint atPath {A : Type} (path : list Z) (f : Quadtree -> M (Quadtree * A))
    (qt : Quadtree) : M (Quadtree * A) :=
  match path with
  | [] => f qt
  | index :: rest =>
      match getSlot index (Nodes qt) with
      | Some (Some child) =>
          '(child', a) <- atPath rest f child ;;
          ret (set_Nodes qt (setSlot index (Some child') (Nodes qt)), a)
      | _ => panic
      end
  end.

(** [func (qt *Quadtree) GetIntersectedObjects(target) IntersectedObjects].
    [above] holds the direct objects of the ancestors of [qt], nearest
    first ([[]] for a root): the loop over [m_parent] runs through the
    ancestors of [sub] inside [qt] and then through them. *)
Definition GetIntersectedObjects (qt : Quadtree) (above : list (list PhysicalObject))
    (target : PhysicalObject) : M (Quadtree * list PhysicalObject) :=
  '(qt1, sub) <- FindObject qt target ;;
  match sub with
  | None => ret (qt1, [])
  | Some path =>
      parents <- parentObjects path qt1 above ;;
      let objects :=
        fold_left (fun objs parent => objs ++ intersected target parent) parents [] in
      atPath path (fun s => GetIntersectedObjectsRaw s target objects) qt1
  end.

(** [type IntersectionRecord struct { One, Another PhysicalObject }] *)
Record IntersectionRecord : Type := mkRecord {
  One : PhysicalObject;
  Another : PhysicalObject
}.

(** The body of the loop over [qt.m_Objects] in [GetIntersection], for the
    element [one]: a record for every object of the potential set that
    intersects [one], then [one] joins the potential set. *)
Definition checkOne (st : list IntersectionRecord * list PhysicalObject)
    (one : PhysicalObject) : list IntersectionRecord * list PhysicalObject :=
  let '(intersections, potentialObjects) := st in
  (intersections ++
     map (fun objParent => mkRecord objParent one)
         (filter (fun objParent => Intersect objParent one) potentialObjects),
   potentialObjects ++ [one]).

(** [func (qt *Quadtree) GetIntersection(intersections, potentialObjects
    *list.List) *list.List].  Both lists are passed by pointer and written
    in place: the contents the two lists have on return are both part of
    the result, and a child starts from what its elder siblings left.  A
    [nil] argument is [None]. *)
Fixpoint GetIntersection (qt : Quadtree)
    (intersections : option (list IntersectionRecord))
    (potentialObjects : option (list PhysicalObject))
  : M (Quadtree * (list IntersectionRecord * list PhysicalObject)) :=
  let intersections := match intersections with Some l => l | None => [] end in
  let potentialObjects := match potentialObjects with Some l => l | None => [] end in
  let st := fold_left checkOne (m_Objects qt) (intersections, potentialObjects) in
  '(ns, st', _) <- forActive
      (fun _ child s =>
         '(child', s') <- GetIntersection child (Some (fst s)) (Some (snd s)) ;;
         ret (child', s', false))
      (m_ActiveNodes qt) (Nodes qt) st ;;
  ret (set_Nodes qt ns, st').

(** ** The update cycle: lifespan accounting

    Lines 164-182 of [Update], the first step a node takes. *)
Definition Update_lifespan (qt : Quadtree) : Quadtree :=
  if len (m_Objects qt) =? 0 then
    if m_ActiveNodes qt =? 0 then
      if m_curLife qt =? -1 then
        set_curLife qt (int_wrap (m_maxLifespan qt - 1))
      else if m_curLife qt >? 0 then
        set_curLife qt (int_wrap (m_curLife qt - 1))
      else qt
    else qt
  else
    if negb (m_curLife qt =? -1) then
      let qt1 :=
        if m_maxLifespan qt <=? 64
        then set_maxLifespan qt (int_wrap (m_maxLifespan qt * 2))
        else qt in
      set_curLife qt1 (-1)
    else qt.

(** ** The update cycle: dead children

    Lines 232-242 of [Update], the last step a node takes: the loop over
    the active children drops every child whose countdown has reached 0.
    [flags] is the mask as the loop found it. *)
Definition pruneSlot (flags index : Z) (qt : Quadtree) : M Quadtree :=
  if Z.testbit flags index then
    match getSlot index (Nodes qt) with
    | Some (Some child) =>
        if m_curLife child =? 0 then
          let qt1 := set_Nodes qt (setSlot index None (Nodes qt)) in
          ret (set_ActiveNodes qt1 (Z.ldiff (m_ActiveNodes qt1) (Z.shiftl 1 index)))
        else ret qt
    | _ => panic
    end
  else ret qt.

Definition Update_prune (qt : Quadtree) : M Quadtree :=
  let flags := m_ActiveNodes qt in
  qt0 <- pruneSlot flags 0 qt ;;
  qt1 <- pruneSlot flags 1 qt0 ;;
  qt2 <- pruneSlot flags 2 qt1 ;;
  qt3 <- pruneSlot flags 3 qt2 ;;
  if 16 <=? flags then panic else ret qt3.

(** ** Observations on a tree *)

(** What a method sees through slot [index]: the child when the bit of
    [index] is set in [mask], nothing otherwise. *)
Definition viaSlot {A : Type} (f : Quadtree -> A) (none : A) (mask index : Z)
    (slot : option Quadtree) : A :=
  if Z.testbit mask index then
    match slot with
    | Some child => f child
    | None => none
    end
  else none.

(** The child of slot [index] is active and its countdown has reached 0. *)
Definition dead (mask index : Z) (slot : option Quadtree) : bool :=
  viaSlot (fun child => m_curLife child =? 0) false mask index slot.

(** Invariant I3 as the loops rely on it: the mask is a byte that names
    slots only, every named slot holds a child, and so on below.  On such a
    tree no method panics. *)
Definition slotOk (ok : Quadtree -> bool) (mask index : Z) (slot : option Quadtree)
  : bool :=
  if Z.testbit mask index then
    match slot with
    | Some child => ok child
    | None => false
    end
  else true.

Fixpoint wf (qt : Quadtree) : bool :=
  (0 <=? m_ActiveNodes qt) && (m_ActiveNodes qt <? 16) &&
  slotOk wf (m_ActiveNodes qt) 0 (slot0 (Nodes qt)) &&
  slotOk wf (m_ActiveNodes qt) 1 (slot1 (Nodes qt)) &&
  slotOk wf (m_ActiveNodes qt) 2 (slot2 (Nodes qt)) &&
  slotOk wf (m_ActiveNodes qt) 3 (slot3 (Nodes qt)).

(** The direct object lists of the nodes of the tree, in depth-first
    order: the node, then its active children by index. *)
Fixpoint nodeLists (qt : Quadtree) : list (list PhysicalObject) :=
  m_Objects qt ::
  viaSlot nodeLists [] (m_ActiveNodes qt) 0 (slot0 (Nodes qt)) ++
  viaSlot nodeLists [] (m_ActiveNodes qt) 1 (slot1 (Nodes qt)) ++
  viaSlot nodeLists [] (m_ActiveNodes qt) 2 (slot2 (Nodes qt)) ++
  viaSlot nodeLists [] (m_ActiveNodes qt) 3 (slot3 (Nodes qt)).

(** The objects stored in the tree, in depth-first order. *)
Definition allObjects (qt : Quadtree) : list PhysicalObject := concat (nodeLists qt).

(** The tree without its objects: what is left are the bounds, thresholds,
    levels, masks, counters and slots of every node. *)
Definition eraseSlot (erase : Quadtree -> Quadtree) (mask index : Z)
    (slot : option Quadtree) : option Quadtree :=
  if Z.testbit mask index then option_map erase slot else slot.

Fixpoint eraseObjects (qt : Quadtree) : Quadtree :=
  mkQuadtree (bounds qt) (MaxObjects qt) (MaxLevels qt) (Level qt) []
    (mkSlots (eraseSlot eraseObjects (m_ActiveNodes qt) 0 (slot0 (Nodes qt)))
             (eraseSlot eraseObjects (m_ActiveNodes qt) 1 (slot1 (Nodes qt)))
             (eraseSlot eraseObjects (m_ActiveNodes qt) 2 (slot2 (Nodes qt)))
             (eraseSlot eraseObjects (m_ActiveNodes qt) 3 (slot3 (Nodes qt))))
    (m_ActiveNodes qt) (m_curLife qt) (m_maxLifespan qt).

(** The node that the slots of [path] lead to from [qt]. *)
Fixpoint nodeAt (path : list Z) (qt : Quadtree) : option Quadtree :=
  match path with
  | [] => Some qt
  | index :: rest =>
      match getSlot index (Nodes qt) with
      | Some (Some child) => nodeAt rest child
      | _ => None
      end
  end.

(** [target] is one of [objs], by reference. *)
Definition holds (target : PhysicalObject) (objs : list PhysicalObject) : bool :=
  existsb (fun one => same_object one target) objs.

(** The first occurrence of [target] in the first list that has one is
    taken out; nothing else changes. *)
Fixpoint removeFirstIn (target : PhysicalObject) (lists : list (list PhysicalObject))
  : list (list PhysicalObject) :=
  match lists with
  | [] => []
  | objs :: rest =>
      match removeFirst target objs with
      | Some objs' => objs' :: rest
      | None => objs :: removeFirstIn target rest
      end
  end.

(** The record [r] is the unordered pair of [a] and [b], by reference. *)
Definition is_pair (a b : PhysicalObject) (r : IntersectionRecord) : bool :=
  (same_object (One r) a && same_object (Another r) b) ||
  (same_object (One r) b && same_object (Another r) a).

(** The two overlap tests of [Intersect], and the boundary of each: the
    coordinate difference equals the half-sum of the extents. *)
Definition verticalOverlap (one another : PhysicalObject) : bool :=
  (abs (Y one - Y another) <? (Height one + Height another) / 2)%float.
Definition horizontalOverlap (one another : PhysicalObject) : bool :=
  (abs (X one - X another) <? (Width one + Width another) / 2)%float.
Definition verticalTouch (one another : PhysicalObject) : bool :=
  (abs (Y one - Y another) =? (Height one + Height another) / 2)%float.
Definition horizontalTouch (one another : PhysicalObject) : bool :=
  (abs (X one - X another) =? (Width one + Width another) / 2)%float.

(** Induction on a tree: the property holds of a node when it holds of the
    children in its four slots. *)
Section QuadtreeInduction.
Variable P : Quadtree -> Prop.

Definition inSlot (slot : option Quadtree) : Prop :=
    match slot with
    | Some child => P child
    | None => True
    end.

Hypothesis step : forall b mo ml lv objs n0 n1 n2 n3 mask life span,
    inSlot n0 -> inSlot n1 -> inSlot n2 -> inSlot n3 ->
    P (mkQuadtree b mo ml lv objs (mkSlots n0 n1 n2 n3) mask life span).

Fixpoint Quadtree_ind (qt : Quadtree) : P qt :=
    match qt with
    | mkQuadtree b mo ml lv objs (mkSlots n0 n1 n2 n3) mask life span =>
        let sub (slot : option Quadtree) : inSlot slot :=
          match slot with
          | Some child => Quadtree_ind child
          | None => I
          end in
        step b mo ml lv objs n0 n1 n2 n3 mask life span (sub n0) (sub n1) (sub n2) (sub n3)
    end.
End QuadtreeInduction.

(** The records that the scan of [objs] appends when the potential set is
    [seen]: each object against those met before it, oldest first. *)
Fixpoint pairsFrom (seen objs : list PhysicalObject) : list IntersectionRecord :=
  match objs with
  | [] => []
  | one :: rest =>
      map (fun objParent => mkRecord objParent one)
          (filter (fun objParent => Intersect objParent one) seen)
      ++ pairsFrom (seen ++ [one]) rest
  end.

(** How many records of [recs] are the unordered pair of [a] and [b]. *)
Definition countPair (a b : PhysicalObject) (recs : list IntersectionRecord) : nat :=
  length (filter (is_pair a b) recs).

(** Invariant I1 as the code keeps it: at a node with an active child, the
    code finds no quadrant for any direct object ([quadrantIndex], with the
    tests of the code). *)
Definition nodeSettled (qt : Quadtree) : bool :=
  (m_ActiveNodes qt =? 0) ||
  forallb (fun obj => quadrantIndex (bounds qt) obj =? -1) (m_Objects qt).

(** I3 and I1 together, at every node. *)
Fixpoint sound (qt : Quadtree) : bool :=
  (0 <=? m_ActiveNodes qt) && (m_ActiveNodes qt <? 16) && nodeSettled qt &&
  slotOk sound (m_ActiveNodes qt) 0 (slot0 (Nodes qt)) &&
  slotOk sound (m_ActiveNodes qt) 1 (slot1 (Nodes qt)) &&
  slotOk sound (m_ActiveNodes qt) 2 (slot2 (Nodes qt)) &&
  slotOk sound (m_ActiveNodes qt) 3 (slot3 (Nodes qt)).

(** The part of [sound] that speaks of the mask and the slots of a node. *)
Definition slotsSound (qt : Quadtree) : Prop :=
  (0 <= m_ActiveNodes qt < 16) /\
  slotOk sound (m_ActiveNodes qt) 0 (slot0 (Nodes qt)) = true /\
  slotOk sound (m_ActiveNodes qt) 1 (slot1 (Nodes qt)) = true /\
  slotOk sound (m_ActiveNodes qt) 2 (slot2 (Nodes qt)) = true /\
  slotOk sound (m_ActiveNodes qt) 3 (slot3 (Nodes qt)) = true.

(** The trees that [CreateQuadtree], [Build] and [Insert] make. *)
Inductive reachable : Quadtree -> Prop :=
| reach_CreateQuadtree b maxObjects maxLevels objs :
    reachable (CreateQuadtree b maxObjects maxLevels objs)
| reach_Build qt :
    reachable qt -> reachable (Build qt)
| reach_Insert qt obj log qt' log' :
    reachable qt -> Insert qt obj log = Some (qt', log') -> reachable qt'.

(** The trees that the package makes without [Update]: a fresh tree, and
    what [Build], [UpdateTree], [Insert] and [Remove] make of such a tree. *)
Inductive maintained : Quadtree -> Prop :=
| made_CreateQuadtree b maxObjects maxLevels objs :
    maintained (CreateQuadtree b maxObjects maxLevels objs)
| made_Build qt :
    maintained qt -> maintained (Build qt)
| made_UpdateTree qt objs log qt' log' :
    maintained qt -> UpdateTree qt objs log = Some (qt', log') -> maintained qt'
| made_Insert qt obj log qt' log' :
    maintained qt -> Insert qt obj log = Some (qt', log') -> maintained qt'
| made_Remove qt target log qt' removed log' :
    maintained qt -> Remove qt target log = Some ((qt', removed), log') ->
    maintained qt'.

(** The objects that a caller has put in a tree and not taken out: those
    given to [CreateQuadtree] or to the last [UpdateTree], and one more for
    every [Insert]; [Remove] takes its target out once, when it is there. *)
Inductive holding : Quadtree -> list PhysicalObject -> Prop :=
| holding_CreateQuadtree b maxObjects maxLevels objs :
    holding (CreateQuadtree b maxObjects maxLevels objs) objs
| holding_Build qt objs :
    holding qt objs -> holding (Build qt) objs
| holding_UpdateTree qt objs objs' log qt' log' :
    holding qt objs -> UpdateTree qt (Some objs') log = Some (qt', log') ->
    holding qt' objs'
| holding_Insert qt objs obj log qt' log' :
    holding qt objs -> Insert qt obj log = Some (qt', log') ->
    holding qt' (obj :: objs)
| holding_Remove qt objs target log qt' removed log' :
    holding qt objs ->
    (forall one, In one objs -> same_object one target = true -> one = target) ->
    Remove qt target log = Some ((qt', removed), log') ->
    holding qt' (match removeFirst target objs with Some rest => rest | None => objs end).

(** The node that the active slots of [path] lead to from [qt]. *)
Fixpoint activeAt (path : list Z) (qt : Quadtree) : option Quadtree :=
  match path with
  | [] => Some qt
  | index :: rest =>
      if Z.testbit (m_ActiveNodes qt) index then
        match getSlot index (Nodes qt) with
        | Some (Some child) => activeAt rest child
        | _ => None
        end
      else None
  end.

(** What [createSubtree] makes of the child in slot [index] of [parent]:
    quadrant [index] of the bounds, the thresholds of the parent, the next
    level. *)
Definition childOf (parent : Quadtree) (index : Z) (child : Quadtree) : Prop :=
  bounds child = subBounds (bounds parent) index /\
  MaxObjects child = MaxObjects parent /\
  MaxLevels child = MaxLevels parent /\
  Level child = int_wrap (Level parent + 1).

(** The shape of a subdivision: a node with an active child is above the
    last level, and every active child is as [createSubtree] made it, and
    so on below. *)
Fixpoint shaped (qt : Quadtree) : Prop :=
  (m_ActiveNodes qt <> 0 -> Level qt < MaxLevels qt) /\
  viaSlot (fun child => childOf qt 0 child /\ shaped child) True
          (m_ActiveNodes qt) 0 (slot0 (Nodes qt)) /\
  viaSlot (fun child => childOf qt 1 child /\ shaped child) True
          (m_ActiveNodes qt) 1 (slot1 (Nodes qt)) /\
  viaSlot (fun child => childOf qt 2 child /\ shaped child) True
          (m_ActiveNodes qt) 2 (slot2 (Nodes qt)) /\
  viaSlot (fun child => childOf qt 3 child /\ shaped child) True
          (m_ActiveNodes qt) 3 (slot3 (Nodes qt)).

(** ** Specifications of the recursive methods *)

(** A list passed by pointer: [nil] counts as empty. *)
Definition orEmpty {A : Type} (l : option (list A)) : list A :=
  match l with
  | Some l => l
  | None => []
  end.

(** What [Remove] does on a tree: the answer, the tree it leaves and the
    hook log. *)
Definition Remove_spec (target : PhysicalObject) (qt : Quadtree) : Prop :=
  wf qt = true ->
  forall log, exists qt',
    Remove qt target log = Some ((qt', holds target (allObjects qt)), log) /\
    wf qt' = true /\
    eraseObjects qt' = eraseObjects qt /\
    nodeLists qt' = removeFirstIn target (nodeLists qt) /\
    (holds target (allObjects qt) = false -> qt' = qt).

(** What [FindObject] does on a tree: the tree and the hook log are left
    as they are; the answer is [nil] exactly when the target is not stored;
    otherwise it is a node of the tree whose own list holds the target. *)
Definition FindObject_spec (target : PhysicalObject) (qt : Quadtree) : Prop :=
  wf qt = true ->
  forall log, exists sub,
    FindObject qt target log = Some ((qt, sub), log) /\
    (sub = None <-> holds target (allObjects qt) = false) /\
    (forall path, sub = Some path ->
       exists node, nodeAt path qt = Some node /\ wf node = true /\
                    holds target (m_Objects node) = true).

(** The body of a loop over the active children computes [g] on a child
    when it returns, whatever the slot, with the child and the hook log as
    they were, and without returning from the method. *)
Definition scans {S : Type} (body : Z -> Quadtree -> S -> M (Quadtree * S * bool))
    (g : Quadtree -> S -> S) (child : Quadtree) : Prop :=
  wf child = true ->
  forall index s log, body index child s log = Some ((child, g child s, false), log).

(** ** Concrete objects and states *)

Definition box (id : positive) (x y w h : float) : PhysicalObject := mkObject id x y w h.

(** A world centred on the origin, and a box that sticks out of it below:
    the world ends at [Y = 10], the box at [Y = 16]. *)
Definition centred_world : Bounds := mkBounds (-10) (-10) 20 20.
Definition box_below : PhysicalObject := box 1 (-5) 1 1 15.

(** Two segments of no width on the same vertical line. *)
Definition segment_a : PhysicalObject := box 1 0 0 0 1.
Definition segment_b : PhysicalObject := box 2 0 0.5 0 1.

(** A world of side 4 that splits above one object, ten levels deep. *)
Definition world4 : Bounds := mkBounds 0 0 4 4.
Definition box_22 : PhysicalObject := box 1 2 2 1 1.
Definition box_33 : PhysicalObject := box 2 3 3 1 1.
Definition box_00 : PhysicalObject := box 3 0 0 1 1.





(** The world of side 4 with a box in its lower right quadrant and a box in
    the lower right quarter of that quadrant, built. *)
Definition built_world : Quadtree := Build (CreateQuadtree world4 1 10 [box_22; box_33]).

(** A leaf into which the same box is inserted a second time. *)
Definition leaf_once : Quadtree := CreateQuadtree world4 10 1 [box_00].
Definition leaf_twice : Quadtree := CreateQuadtree world4 10 1 [box_00; box_00].

(** A world in which [box_00] and [box_half] overlap: after [Build],
    [box_half] stays at child 0 and [box_00] goes one level further down. *)
Definition box_half : PhysicalObject := box 4 0.5 0.5 1 1.
Definition overlap_world : Quadtree :=
  Build (CreateQuadtree world4 1 10 [box_00; box_half; box_33]).

(** A root whose only child, in slot 0, has counted down to 0; the child
    is empty, or holds [box_00]. *)
Definition dying_child (objs : list PhysicalObject) : Quadtree :=
  set_curLife (createSubtree (CreateQuadtree world4 1 10 []) (subBounds world4 0) objs) 0.
Definition dying_world (objs : list PhysicalObject) : Quadtree :=
  set_ActiveNodes
    (set_Nodes (CreateQuadtree world4 1 10 [])
               (mkSlots (Some (dying_child objs)) None None None))
    1.

(** * Properties *)

(** ** Numbers *)

Lemma int_wrap_id z : is_int z -> int_wrap z = z.
Proof.
  unfold is_int, int_wrap, int_min, int_max. intros H.
  rewrite Z.mod_small; lia.
Qed.

Lemma feqb_not_ltb x y : (x =? y)%float = true -> (x <? y)%float = false.
Proof.
  rewrite eqb_spec, ltb_spec. unfold SFeqb, SFltb.
  destruct (SFcompare _ _) as [[]|]; congruence.
Qed.

(** ** Quadrant classification *)

Lemma quadrantIndex_cases b obj :
  quadrantIndex b obj = -1 \/ quadrantIndex b obj = 0 \/ quadrantIndex b obj = 1 \/
  quadrantIndex b obj = 2 \/ quadrantIndex b obj = 3.
Proof.
  unfold quadrantIndex.
  destruct (topPart b obj), (bottomPart b obj), (leftPart b obj), (rightPart b obj); auto.
Qed.

(** What the code tests before it sends an object down: the lower and the
    right tests compare with [Height] and [Width] alone. *)
Lemma quadrantIndex_bottom b obj :
  quadrantIndex b obj = 2 \/ quadrantIndex b obj = 3 ->
  (Y obj >=? verticalMidpoint b)%float = true /\
  (Y obj + Height obj <=? bHeight b)%float = true.
Proof.
  unfold quadrantIndex.
  destruct (topPart b obj) eqn:Ht.
  - destruct (leftPart b obj), (rightPart b obj); intros [H|H]; discriminate.
  - destruct (bottomPart b obj) eqn:Hb.
    + intros _. unfold bottomPart in Hb. now apply andb_true_iff in Hb.
    + intros [H|H]; discriminate.
Qed.

Lemma quadrantIndex_right b obj :
  quadrantIndex b obj = 1 \/ quadrantIndex b obj = 3 ->
  (X obj >=? horizontalMidpoint b)%float = true /\
  (X obj + Width obj <=? bWidth b)%float = true.
Proof.
  unfold quadrantIndex.
  destruct (topPart b obj), (bottomPart b obj), (leftPart b obj), (rightPart b obj) eqn:Hr;
    intros [H|H]; try discriminate;
    unfold rightPart in Hr; now apply andb_true_iff in Hr.
Qed.

Lemma quadrantIndex_straddle b obj :
  (topPart b obj || bottomPart b obj) && (leftPart b obj || rightPart b obj) = false ->
  quadrantIndex b obj = -1.
Proof.
  unfold quadrantIndex.
  destruct (topPart b obj), (bottomPart b obj), (leftPart b obj), (rightPart b obj);
    simpl; congruence.
Qed.

(** C1 (the code departs from it).  The claim: an object goes to a lower
    quadrant only if it lies below the vertical midpoint and ends within
    [Y + Height] of the node.  In [centred_world], which spans [-10, 10] on
    both axes, the code sends [box_below] to the lower left quadrant
    (index 2) although the box ends at 16, beyond the lower edge 10 of the
    world, and is not contained by the world: the test of the code is
    [<= Height], that is [16 <= 20]. *)
Theorem quadrantIndex_ignores_origin :
  quadrantIndex centred_world box_below = 2 /\
  (Y box_below + Height box_below <=? bY centred_world + bHeight centred_world)%float
    = false /\
  spec_quadrantIndex centred_world box_below = -1 /\
  Contains centred_world box_below = false.
Proof. vm_compute. repeat split. Qed.

(** ** Intersection of two boxes *)

Lemma Intersect_unfold one another :
  Intersect one another =
  if (X one =? X another)%float then verticalOverlap one another
  else if (Y one =? Y another)%float then horizontalOverlap one another
  else verticalOverlap one another && horizontalOverlap one another.
Proof. reflexivity. Qed.

Lemma verticalTouch_strict one another :
  verticalTouch one another = true -> verticalOverlap one another = false.
Proof. apply feqb_not_ltb. Qed.

Lemma horizontalTouch_strict one another :
  horizontalTouch one another = true -> horizontalOverlap one another = false.
Proof. apply feqb_not_ltb. Qed.

(** C7 (as stated it fails): [segment_a] and [segment_b] have the same [X]
    and no width, so the difference of their [X] equals the half-sum of
    their widths; [Intersect] looks at the vertical axis alone and answers
    [true]. *)
Lemma Intersect_touching_segments :
  horizontalTouch segment_a segment_b = true /\ Intersect segment_a segment_b = true.
Proof. vm_compute. split; reflexivity. Qed.

(** C7, amended.  With equal [X] the answer is the strict vertical test;
    otherwise with equal [Y] it is the strict horizontal test; otherwise
    both tests must hold.  Each test is strict: it fails when the
    coordinate difference equals the half-sum of the extents.  So two boxes
    that touch on an axis that their case tests do not intersect: the
    vertical axis with equal [X], the horizontal axis with equal [Y] and
    different [X], either axis in the general case. *)
Theorem Intersect_strict_cases (a b : PhysicalObject) :
  ((X a =? X b)%float = true ->
     (Intersect a b = true <-> verticalOverlap a b = true)) /\
  ((X a =? X b)%float = false -> (Y a =? Y b)%float = true ->
     (Intersect a b = true <-> horizontalOverlap a b = true)) /\
  ((X a =? X b)%float = false -> (Y a =? Y b)%float = false ->
     (Intersect a b = true <->
      verticalOverlap a b = true /\ horizontalOverlap a b = true)) /\
  (verticalTouch a b = true -> verticalOverlap a b = false) /\
  (horizontalTouch a b = true -> horizontalOverlap a b = false) /\
  ((X a =? X b)%float = true -> verticalTouch a b = true -> Intersect a b = false) /\
  ((X a =? X b)%float = false -> (Y a =? Y b)%float = true ->
     horizontalTouch a b = true -> Intersect a b = false) /\
  ((X a =? X b)%float = false -> (Y a =? Y b)%float = false ->
     verticalTouch a b = true \/ horizontalTouch a b = true -> Intersect a b = false).
Proof.
  rewrite Intersect_unfold.
  repeat split; intros;
    repeat match goal with
           | H : (_ =? _)%float = _ |- _ => rewrite H in *
           | H : verticalTouch _ _ = true |- _ => apply verticalTouch_strict in H
           | H : horizontalTouch _ _ = true |- _ => apply horizontalTouch_strict in H
           | H : _ \/ _ |- _ => destruct H
           | H : _ /\ _ |- _ => destruct H
           | H : _ && _ = true |- _ => apply andb_true_iff in H
           end;
    try assumption; try (apply andb_true_iff; split; assumption);
    try (rewrite ?andb_false_r; congruence).
  all: apply andb_false_iff; auto.
Qed.

(** ** Lifespan accounting *)

(** C2.  A node without direct objects and without active children: a
    countdown that is not running ([-1]) starts at [MaxLifespan - 1], a
    positive one loses 1, one at [0] stays; nothing else in the node
    changes.  A node fresh from [CreateQuadtree] without objects starts its
    countdown at 63.  ([MaxLifespan] is 64 at creation and at most doubles,
    so it is never the least [int].) *)
Theorem Update_lifespan_idle (qt : Quadtree) :
  m_Objects qt = [] -> m_ActiveNodes qt = 0 ->
  is_int (m_curLife qt) -> int_min < m_maxLifespan qt <= int_max ->
  (m_curLife qt = -1 -> Update_lifespan qt = set_curLife qt (m_maxLifespan qt - 1)) /\
  (m_curLife qt > 0 -> Update_lifespan qt = set_curLife qt (m_curLife qt - 1)) /\
  (m_curLife qt = 0 -> Update_lifespan qt = qt) /\
  (forall b mo ml, m_curLife (Update_lifespan (CreateQuadtree b mo ml [])) = 63).
Proof.
  intros Hobjs Hmask Hlife Hspan. unfold Update_lifespan, len.
  rewrite Hobjs, Hmask. simpl.
  repeat split.
  - intros H. rewrite H. simpl. rewrite int_wrap_id; [reflexivity|].
    unfold is_int, int_min, int_max in *. lia.
  - intros H. destruct (m_curLife qt =? -1) eqn:E; [lia|].
    destruct (m_curLife qt >? 0) eqn:E'; [|lia].
    rewrite int_wrap_id; [reflexivity|].
    unfold is_int, int_min, int_max in *. lia.
  - intros H. rewrite H. reflexivity.
Qed.

Lemma Update_lifespan_idle_fresh :
  Update_lifespan (CreateQuadtree world4 1 10 []) =
  set_curLife (CreateQuadtree world4 1 10 []) 63.
Proof.
  refine (proj1 (Update_lifespan_idle (CreateQuadtree world4 1 10 []) _ _ _ _) _);
    try reflexivity; unfold is_int, int_min, int_max; simpl; lia.
Defined.




(** ** Construction *)

Lemma set_Objects_same qt : set_Objects qt (m_Objects qt) = qt.
Proof. destruct qt; reflexivity. Qed.

Lemma Build_fuel_guard fuel qt : Build_guard qt = true -> Build_fuel fuel qt = qt.
Proof. intros H. destruct fuel; simpl; rewrite H; reflexivity. Qed.

(** [buildChild] writes slots and mask only. *)
Lemma buildChild_fields build qt i qt1 :
  bounds (buildChild build qt i qt1) = bounds qt1 /\
  MaxObjects (buildChild build qt i qt1) = MaxObjects qt1 /\
  MaxLevels (buildChild build qt i qt1) = MaxLevels qt1 /\
  Level (buildChild build qt i qt1) = Level qt1 /\
  m_Objects (buildChild build qt i qt1) = m_Objects qt1 /\
  m_curLife (buildChild build qt i qt1) = m_curLife qt1 /\
  m_maxLifespan (buildChild build qt i qt1) = m_maxLifespan qt1.
Proof. unfold buildChild. destruct (subtreeObjects qt i); simpl; auto 10. Qed.

Lemma buildChild_empty build qt i qt1 :
  subtreeObjects qt i = [] -> buildChild build qt i qt1 = qt1.
Proof. unfold buildChild. now intros ->. Qed.

(** [Build] keeps the bounds, thresholds, level and counters of the node,
    and leaves at the node its objects of index -1, in order. *)
Lemma Build_fuel_fields fuel qt :
  bounds (Build_fuel fuel qt) = bounds qt /\
  MaxObjects (Build_fuel fuel qt) = MaxObjects qt /\
  MaxLevels (Build_fuel fuel qt) = MaxLevels qt /\
  Level (Build_fuel fuel qt) = Level qt /\
  m_curLife (Build_fuel fuel qt) = m_curLife qt /\
  m_maxLifespan (Build_fuel fuel qt) = m_maxLifespan qt /\
  (m_Objects (Build_fuel fuel qt) = m_Objects qt \/
   m_Objects (Build_fuel fuel qt) = subtreeObjects qt (-1)).
Proof.
  destruct fuel as [|fuel]; simpl; destruct (Build_guard qt); auto 10.
  repeat match goal with
         | |- context [buildChild ?f ?q ?i ?q1] =>
             let H := fresh in
             pose proof (buildChild_fields f q i q1) as H;
             destruct H as (-> & -> & -> & -> & -> & -> & ->)
         end.
  simpl. auto 10.
Qed.

(** The objects that stay at a node are those of no quadrant: sorting them
    again moves none of them. *)
Lemma subtreeObjects_kept qt qt' i :
  bounds qt' = bounds qt -> m_Objects qt' = subtreeObjects qt (-1) ->
  subtreeObjects qt' i = if i =? -1 then m_Objects qt' else [].
Proof.
  unfold subtreeObjects. intros -> ->.
  induction (m_Objects qt) as [|o objs IH]; simpl.
  - now destruct (i =? -1).
  - destruct (quadrantIndex (bounds qt) o =? -1) eqn:E; [|exact IH].
    simpl. apply Z.eqb_eq in E. rewrite E.
    destruct (i =? -1) eqn:Ei.
    + apply Z.eqb_eq in Ei. subst i. simpl. now rewrite IH.
    + replace (-1 =? i) with false by (symmetry; apply Z.eqb_neq; apply Z.eqb_neq in Ei; lia).
      exact IH.
Qed.

Lemma Build_fuel_idempotent fuel qt :
  Build_fuel fuel (Build_fuel fuel qt) = Build_fuel fuel qt.
Proof.
  destruct (Build_guard qt) eqn:G.
  - rewrite !(Build_fuel_guard fuel qt G). reflexivity.
  - destruct fuel as [|fuel]; simpl; rewrite G; [now simpl; rewrite G|].
    set (qt' := buildChild _ qt 3 _).
    assert (F : bounds qt' = bounds qt /\ m_Objects qt' = subtreeObjects qt (-1)).
    { unfold qt'.
      repeat match goal with
             | |- context [buildChild ?f ?q ?i ?q1] =>
                 let H := fresh in
                 pose proof (buildChild_fields f q i q1) as H;
                 destruct H as (-> & _ & _ & _ & -> & _ & _)
             end.
      split; reflexivity. }
    destruct F as [Fb Fo].
    simpl. destruct (Build_guard qt'); [reflexivity|].
    rewrite !buildChild_empty
      by (rewrite (subtreeObjects_kept qt qt') by assumption; reflexivity).
    rewrite (subtreeObjects_kept qt qt') by assumption. simpl.
    apply set_Objects_same.
Qed.

(** C9.  [Build] run on a tree on which [Build] has run changes nothing:
    the second run returns the very tree the first run left, so every node
    keeps its direct objects, in order, and its children. *)
Theorem Build_idempotent (qt : Quadtree) : Build (Build qt) = Build qt.
Proof.
  unfold Build at 1.
  destruct (Build_fuel_fields (Z.to_nat (MaxLevels qt - Level qt)) qt)
    as (_ & _ & Hml & Hlv & _).
  fold (Build qt) in Hml, Hlv. rewrite Hml, Hlv.
  apply Build_fuel_idempotent.
Qed.

(** The fuel of [Build] is never used up: the guard on [Level] stops the
    recursion first, so more fuel gives the same tree. *)
Lemma buildChild_ext build1 build2 qt i qt1 :
  (forall objects,
     build1 (createSubtree qt (subBounds (bounds qt) i) objects) =
     build2 (createSubtree qt (subBounds (bounds qt) i) objects)) ->
  buildChild build1 qt i qt1 = buildChild build2 qt i qt1.
Proof.
  intros H. unfold buildChild.
  destruct (subtreeObjects qt i); [reflexivity|]. now rewrite H.
Qed.

Lemma Build_fuel_more n m qt :
  is_int (Level qt) -> is_int (MaxLevels qt) ->
  (Z.to_nat (MaxLevels qt - Level qt) <= n)%nat ->
  (Z.to_nat (MaxLevels qt - Level qt) <= m)%nat ->
  Build_fuel n qt = Build_fuel m qt.
Proof.
  revert m qt. induction n as [|n IH]; intros m qt Hlv Hml Hn Hm;
    destruct (Build_guard qt) eqn:G;
    try (now rewrite !(Build_fuel_guard _ qt G)).
  - unfold Build_guard in G. apply orb_false_iff in G. destruct G as [_ G]. lia.
  - assert (Hlt : Level qt < MaxLevels qt).
    { unfold Build_guard in G. apply orb_false_iff in G. destruct G as [_ G]. lia. }
    destruct m as [|m]; [lia|].
    simpl. rewrite G.
    assert (E : forall i objects,
               Build_fuel n (createSubtree qt (subBounds (bounds qt) i) objects) =
               Build_fuel m (createSubtree qt (subBounds (bounds qt) i) objects)).
    { intros i objects. unfold is_int, int_min, int_max in *.
      apply IH; simpl; rewrite ?int_wrap_id;
        unfold is_int, int_min, int_max; lia. }
    rewrite !(buildChild_ext (Build_fuel n) (Build_fuel m)) by (intros; apply E).
    reflexivity.
Qed.

Lemma Build_fuel_enough n qt :
  is_int (Level qt) -> is_int (MaxLevels qt) ->
  (Z.to_nat (MaxLevels qt - Level qt) <= n)%nat ->
  Build_fuel n qt = Build qt.
Proof. intros. unfold Build. apply Build_fuel_more; auto. Qed.

(** [Build] as the source reads: the guard, then the two loops, with
    [Build] itself on the fresh children. *)
Lemma Build_unfold qt :
  is_int (Level qt) -> is_int (MaxLevels qt) ->
  Build qt =
  if Build_guard qt then qt
  else
    let child := buildChild Build qt in
    child 3 (child 2 (child 1 (child 0 (set_Objects qt (subtreeObjects qt (-1)))))).
Proof.
  intros Hlv Hml. unfold Build at 1.
  destruct (Build_guard qt) eqn:G; [now apply Build_fuel_guard|].
  assert (Hlt : Level qt < MaxLevels qt).
  { unfold Build_guard in G. apply orb_false_iff in G. destruct G as [_ G]. lia. }
  destruct (Z.to_nat (MaxLevels qt - Level qt)) as [|n] eqn:En; [lia|].
  simpl. rewrite G.
  rewrite !(buildChild_ext (Build_fuel n) Build); [reflexivity| | | |];
    intros objects; apply Build_fuel_enough; simpl;
    unfold is_int, int_min, int_max in *;
    rewrite ?int_wrap_id; unfold is_int, int_min, int_max; lia.
Qed.

(** ** Insertion *)

(** The recursive [Insert] into a child that [createSubtree] just made. *)
Lemma Insert_createSubtree qt b physical :
  Insert (createSubtree qt b []) physical =
  ret (Insert_leaf (createSubtree qt b []) physical).
Proof. reflexivity. Qed.

(** C5.  On a node without active child, [Insert] returns, with the hook
    log as it was, the node with the object appended and then built when
    the new count exceeds [MaxObjects] and [Level < MaxLevels], and the plain
    append otherwise, where slots and mask are as before.  The guard of the
    code is different, but [Build] leaves the node alone at or below the
    thresholds: in all cases the result is append-then-[Build]. *)
Theorem Insert_childless (qt : Quadtree) (obj : PhysicalObject) (log : HookLog) :
  m_ActiveNodes qt = 0 ->
  Insert qt obj log =
    Some ((if (len (m_Objects qt ++ [obj]) >? MaxObjects qt) && (Level qt <? MaxLevels qt)
           then Build (PushBack qt obj)
           else PushBack qt obj), log) /\
  m_Objects (PushBack qt obj) = m_Objects qt ++ [obj] /\
  Nodes (PushBack qt obj) = Nodes qt /\
  m_ActiveNodes (PushBack qt obj) = m_ActiveNodes qt /\
  Insert qt obj log = Some (Build (PushBack qt obj), log).
Proof.
  intros Hmask.
  assert (E : Insert qt obj = ret (Insert_leaf qt obj)).
  { destruct qt; simpl in *. now rewrite Hmask. }
  rewrite E. unfold ret, Insert_leaf.
  set (qt1 := PushBack qt obj).
  assert (G : Build_guard qt1 =
              negb ((len (m_Objects qt ++ [obj]) >? MaxObjects qt) &&
                    (Level qt <? MaxLevels qt))).
  { unfold Build_guard, qt1. simpl.
    destruct (len (m_Objects qt ++ [obj]) <=? MaxObjects qt) eqn:E1;
      destruct (Level qt >=? MaxLevels qt) eqn:E2;
      destruct (len (m_Objects qt ++ [obj]) >? MaxObjects qt) eqn:E3;
      destruct (Level qt <? MaxLevels qt) eqn:E4; simpl; try reflexivity; lia. }
  repeat split.
  - simpl m_Objects. simpl MaxObjects. simpl Level. simpl MaxLevels.
    destruct (len (m_Objects qt ++ [obj]) >? MaxObjects qt) eqn:E3;
      destruct (Level qt <? MaxLevels qt) eqn:E4; simpl in G |- *.
    + replace (len (m_Objects qt ++ [obj]) <? MaxObjects qt) with false by lia.
      replace (Level qt =? MaxLevels qt) with false by lia. reflexivity.
    + destruct (_ || _); [reflexivity|].
      unfold Build. now rewrite Build_fuel_guard.
    + destruct (_ || _); [reflexivity|].
      unfold Build. now rewrite Build_fuel_guard.
    + destruct (_ || _); [reflexivity|].
      unfold Build. now rewrite Build_fuel_guard.
  - destruct ((len (m_Objects qt1) <? MaxObjects qt1) || (Level qt1 =? MaxLevels qt1)) eqn:E1;
      [|reflexivity].
    assert (G' : Build_guard qt1 = true).
    { unfold Build_guard. apply orb_true_iff in E1. apply orb_true_iff.
      destruct E1; [left|right]; lia. }
    unfold Build. now rewrite Build_fuel_guard.
Qed.

Lemma Insert_childless_world :
  Insert (CreateQuadtree world4 1 10 [box_00]) box_22 [] =
  Some (Build (CreateQuadtree world4 1 10 [box_00; box_22]), []).
Proof.
  exact (proj1 (Insert_childless (CreateQuadtree world4 1 10 [box_00]) box_22 []
                  eq_refl)).
Defined.

(** C6 (the code departs from it).  After [Build] on the world of side 4
    with [box_22] and [box_33], the child of the lower right quadrant
    (bounds (2,2,2,2)) has an active child (slot 0, for [box_22]) and holds
    [box_33] directly: the code finds no quadrant for it (its lower and
    right tests compare 4 with the extents 2), while the classification of
    section 4.2 puts it in quadrant 3 of that child. *)
Theorem Build_keeps_quadrant_object :
  exists node,
    slot3 (Nodes built_world) = Some node /\
    Z.testbit (m_ActiveNodes built_world) 3 = true /\
    m_ActiveNodes node = 1 /\
    m_Objects node = [box_33] /\
    Contains (bounds node) box_33 = true /\
    quadrantIndex (bounds node) box_33 = -1 /\
    spec_quadrantIndex (bounds node) box_33 = 3.
Proof. vm_compute. eexists. repeat split. Qed.

(** ** Trees on which no method panics *)

(** The loop over the active children, run on a hook log. *)
Lemma forActive_unfold {S : Type} (body : Z -> Quadtree -> S -> M (Quadtree * S * bool))
    mask ns s log :
  forActive body mask ns s log =
  match visitSlot body mask 0 (slot0 ns) (s, false) log with
  | None => None
  | Some ((n0, st0), log0) =>
    match visitSlot body mask 1 (slot1 ns) st0 log0 with
    | None => None
    | Some ((n1, st1), log1) =>
      match visitSlot body mask 2 (slot2 ns) st1 log1 with
      | None => None
      | Some ((n2, st2), log2) =>
        match visitSlot body mask 3 (slot3 ns) st2 log2 with
        | None => None
        | Some ((n3, st3), log3) =>
            if snd st3 then Some ((mkSlots n0 n1 n2 n3, fst st3, true), log3)
            else if 16 <=? mask then None
            else Some ((mkSlots n0 n1 n2 n3, fst st3, false), log3)
        end
      end
    end
  end.
Proof.
  unfold forActive, bind.
  destruct (visitSlot body mask 0 (slot0 ns) (s, false) log) as [[[n0 st0] log0]|];
    [|reflexivity].
  destruct (visitSlot body mask 1 (slot1 ns) st0 log0) as [[[n1 st1] log1]|];
    [|reflexivity].
  destruct (visitSlot body mask 2 (slot2 ns) st1 log1) as [[[n2 st2] log2]|];
    [|reflexivity].
  destruct (visitSlot body mask 3 (slot3 ns) st2 log2) as [[[n3 st3] log3]|];
    [|reflexivity].
  destruct (snd st3); [reflexivity|]. destruct (16 <=? mask); reflexivity.
Qed.

Lemma wf_node b mo ml lv objs n0 n1 n2 n3 mask life span :
  wf (mkQuadtree b mo ml lv objs (mkSlots n0 n1 n2 n3) mask life span) = true <->
  (0 <= mask < 16) /\
  slotOk wf mask 0 n0 = true /\ slotOk wf mask 1 n1 = true /\
  slotOk wf mask 2 n2 = true /\ slotOk wf mask 3 n3 = true.
Proof.
  simpl. rewrite !andb_true_iff, Z.leb_le, Z.ltb_lt. tauto.
Qed.

Lemma slotOk_inv ok mask index slot :
  slotOk ok mask index slot = true ->
  Z.testbit mask index = false \/
  exists child, Z.testbit mask index = true /\ slot = Some child /\ ok child = true.
Proof.
  unfold slotOk. destruct (Z.testbit mask index); [|now left].
  destruct slot as [child|]; [|discriminate]. right. now exists child.
Qed.

Lemma allObjects_node b mo ml lv objs n0 n1 n2 n3 mask life span :
  allObjects (mkQuadtree b mo ml lv objs (mkSlots n0 n1 n2 n3) mask life span) =
  objs ++ concat (viaSlot nodeLists [] mask 0 n0) ++ concat (viaSlot nodeLists [] mask 1 n1) ++
          concat (viaSlot nodeLists [] mask 2 n2) ++ concat (viaSlot nodeLists [] mask 3 n3).
Proof. unfold allObjects. simpl. now rewrite !concat_app. Qed.

(** ** Removal *)

Lemma holds_app target l1 l2 : holds target (l1 ++ l2) = holds target l1 || holds target l2.
Proof. apply existsb_app. Qed.

Lemma removeFirst_holds target objs :
  holds target objs = match removeFirst target objs with Some _ => true | None => false end.
Proof.
  induction objs as [|one rest IH]; simpl; [reflexivity|].
  destruct (same_object one target); simpl; [reflexivity|].
  rewrite IH. now destruct (removeFirst target rest).
Qed.

Lemma removeFirstIn_absent target lists :
  holds target (concat lists) = false -> removeFirstIn target lists = lists.
Proof.
  induction lists as [|objs rest IH]; simpl; [reflexivity|].
  rewrite holds_app, orb_false_iff, removeFirst_holds. intros [H1 H2].
  destruct (removeFirst target objs); [discriminate|]. now rewrite IH.
Qed.

Lemma removeFirstIn_app target l1 l2 :
  removeFirstIn target (l1 ++ l2) =
  if holds target (concat l1) then removeFirstIn target l1 ++ l2
  else l1 ++ removeFirstIn target l2.
Proof.
  induction l1 as [|objs rest IH]; simpl; [reflexivity|].
  rewrite holds_app, removeFirst_holds.
  destruct (removeFirst target objs); simpl; [reflexivity|].
  rewrite IH. now destruct (holds target (concat rest)).
Qed.

Lemma Remove_unfold qt target :
  Remove qt target =
  match removeFirst target (m_Objects qt) with
  | Some objs => ret (set_Objects qt objs, true)
  | None =>
      '(ns, _, removed) <- forActive
          (fun _ child (_ : unit) =>
             '(child', removed) <- Remove child target ;; ret (child', tt, removed))
          (m_ActiveNodes qt) (Nodes qt) tt ;;
      ret (set_Nodes qt ns, removed)
  end.
Proof. destruct qt; reflexivity. Qed.

Lemma Remove_slot target mask index slot returned log :
  inSlot (Remove_spec target) slot -> slotOk wf mask index slot = true ->
  exists slot',
    visitSlot (fun _ child (_ : unit) =>
                 '(child', removed) <- Remove child target ;; ret (child', tt, removed))
              mask index slot (tt, returned) log =
    Some ((slot', (tt, returned ||
                       holds target (concat (viaSlot nodeLists [] mask index slot)))), log) /\
    slotOk wf mask index slot' = true /\
    eraseSlot eraseObjects mask index slot' = eraseSlot eraseObjects mask index slot /\
    viaSlot nodeLists [] mask index slot' =
      (if returned then viaSlot nodeLists [] mask index slot
       else removeFirstIn target (viaSlot nodeLists [] mask index slot)) /\
    (returned || holds target (concat (viaSlot nodeLists [] mask index slot)) = returned ->
     slot' = slot).
Proof.
  intros IH Hok. unfold visitSlot. simpl snd. simpl fst.
  destruct returned; simpl.
  - exists slot. unfold ret. auto.
  - unfold viaSlot, eraseSlot, slotOk in *.
    destruct (Z.testbit mask index).
    + destruct slot as [child|]; [|discriminate]. simpl in IH.
      destruct (IH Hok log) as (child' & E & Hwf & Her & Hl & Hsame).
      exists (Some child'). unfold bind, ret. rewrite E. simpl.
      fold (allObjects child). repeat split; auto.
      * now rewrite Her.
      * intros H. now rewrite Hsame.
    + exists slot. unfold ret. simpl. auto.
Qed.

Lemma Remove_correct target qt : Remove_spec target qt.
Proof.
  induction qt using Quadtree_ind.
  intros Hwf log. apply wf_node in Hwf.
  destruct Hwf as (Hmask & Hk0 & Hk1 & Hk2 & Hk3).
  rewrite Remove_unfold, allObjects_node, !holds_app.
  cbn [m_Objects m_ActiveNodes Nodes slot0 slot1 slot2 slot3].
  rewrite (removeFirst_holds target objs).
  destruct (removeFirst target objs) as [objs'|] eqn:Eobjs.
  - eexists. unfold ret. simpl. split; [reflexivity|].
    split; [apply wf_node; auto|]. split; [reflexivity|].
    split; [simpl; now rewrite Eobjs|discriminate].
  - simpl orb. unfold bind at 1. rewrite forActive_unfold.
    cbn [slot0 slot1 slot2 slot3].
    destruct (Remove_slot target mask 0 n0 false log H Hk0)
      as (n0' & -> & Hw0 & He0 & Hl0 & Hs0).
    set (h0 := holds target (concat (viaSlot nodeLists [] mask 0 n0))) in *.
    destruct (Remove_slot target mask 1 n1 (false || h0) log H0 Hk1)
      as (n1' & -> & Hw1 & He1 & Hl1 & Hs1).
    set (h1 := holds target (concat (viaSlot nodeLists [] mask 1 n1))) in *.
    destruct (Remove_slot target mask 2 n2 (false || h0 || h1) log H1 Hk2)
      as (n2' & -> & Hw2 & He2 & Hl2 & Hs2).
    set (h2 := holds target (concat (viaSlot nodeLists [] mask 2 n2))) in *.
    destruct (Remove_slot target mask 3 n3 (false || h0 || h1 || h2) log H2 Hk3)
      as (n3' & -> & Hw3 & He3 & Hl3 & Hs3).
    set (h3 := holds target (concat (viaSlot nodeLists [] mask 3 n3))) in *.
    simpl orb in *.
    simpl snd. simpl fst.
    replace (16 <=? mask) with false by lia.
    exists (mkQuadtree b mo ml lv objs (mkSlots n0' n1' n2' n3') mask life span).
    split.
    { unfold ret, set_Nodes. simpl.
      destruct h0, h1, h2, h3; reflexivity. }
    split; [apply wf_node; auto|].
    split; [simpl; now rewrite He0, He1, He2, He3|].
    split.
    { simpl. rewrite Eobjs. f_equal.
      rewrite Hl0, Hl1, Hl2, Hl3.
      rewrite !removeFirstIn_app. fold h0 h1 h2.
      pose proof (removeFirstIn_absent target (viaSlot nodeLists [] mask 0 n0)) as A0.
      pose proof (removeFirstIn_absent target (viaSlot nodeLists [] mask 1 n1)) as A1.
      pose proof (removeFirstIn_absent target (viaSlot nodeLists [] mask 2 n2)) as A2.
      fold h0 in A0. fold h1 in A1. fold h2 in A2.
      destruct h0, h1, h2; simpl;
        rewrite ?A0, ?A1, ?A2 by reflexivity; reflexivity. }
    intros Hnone.
    rewrite Hs0, Hs1, Hs2, Hs3; auto;
      destruct h0, h1, h2, h3; simpl in *; congruence.
Qed.

Lemma removeFirst_split target objs objs' :
  removeFirst target objs = Some objs' ->
  exists before one after,
    objs = before ++ one :: after /\ same_object one target = true /\
    holds target before = false /\ objs' = before ++ after.
Proof.
  revert objs'. induction objs as [|o rest IH]; simpl; intros objs'; [discriminate|].
  destruct (same_object o target) eqn:E.
  - intros [= <-]. now exists [], o, rest.
  - destruct (removeFirst target rest) as [rest'|]; [|discriminate].
    intros [= <-]. destruct (IH rest' eq_refl) as (before & one & after & -> & ? & ? & ->).
    exists (o :: before), one, after. simpl. rewrite E. auto.
Qed.

Lemma removeFirstIn_split target lists :
  holds target (concat lists) = true ->
  exists before one after,
    concat lists = before ++ one :: after /\ same_object one target = true /\
    holds target before = false /\
    concat (removeFirstIn target lists) = before ++ after.
Proof.
  induction lists as [|objs rest IH]; simpl; [discriminate|].
  rewrite holds_app, removeFirst_holds.
  destruct (removeFirst target objs) as [objs'|] eqn:E; simpl.
  - intros _.
    destruct (removeFirst_split _ _ _ E) as (before & one & after & -> & ? & ? & ->).
    exists before, one, (after ++ concat rest). rewrite <- !app_assoc. auto.
  - intros H. destruct (IH H) as (before & one & after & -> & ? & ? & ->).
    exists (objs ++ before), one, after.
    rewrite holds_app, removeFirst_holds, E, <- !app_assoc. auto.
Qed.



(** The comparison is by reference: a box with the geometry of [box_33]
    that is another object is not found, and the tree stays as it is. *)
Example Remove_other_reference :
  Remove built_world (box 7 3 3 1 1) [] = Some ((built_world, false), []).
Proof. vm_compute. reflexivity. Qed.

(** ** Loops that visit every active child

    [Walk], [GetIntersectedObjectsRaw] and [GetIntersection] never return
    from inside the loop and leave each child as it is: the loop then
    composes what the body computes on each active child, in slot order. *)
Section Scan.
Context {S : Type}.
Variable body : Z -> Quadtree -> S -> M (Quadtree * S * bool).
Variable g : Quadtree -> S -> S.

Lemma scan_slot mask index slot s log :
  inSlot (scans body g) slot -> slotOk wf mask index slot = true ->
  visitSlot body mask index slot (s, false) log =
  Some ((slot, (viaSlot g (fun s => s) mask index slot s, false)), log).
Proof.
  intros IH Hok. unfold visitSlot, viaSlot, slotOk in *. simpl.
  destruct (Z.testbit mask index); [|reflexivity].
  destruct slot as [child|]; [|discriminate].
  unfold bind. rewrite (IH Hok). reflexivity.
Qed.

Lemma scan_loop mask n0 n1 n2 n3 s log :
  0 <= mask < 16 ->
  inSlot (scans body g) n0 -> inSlot (scans body g) n1 -> inSlot (scans body g) n2 -> inSlot (scans body g) n3 ->
  slotOk wf mask 0 n0 = true -> slotOk wf mask 1 n1 = true ->
  slotOk wf mask 2 n2 = true -> slotOk wf mask 3 n3 = true ->
  forActive body mask (mkSlots n0 n1 n2 n3) s log =
  Some ((mkSlots n0 n1 n2 n3,
         viaSlot g (fun s => s) mask 3 n3
           (viaSlot g (fun s => s) mask 2 n2
              (viaSlot g (fun s => s) mask 1 n1
                 (viaSlot g (fun s => s) mask 0 n0 s))),
         false), log).
Proof.
  intros Hmask H0 H1 H2 H3 K0 K1 K2 K3.
  rewrite forActive_unfold. cbn [slot0 slot1 slot2 slot3].
  rewrite !scan_slot by assumption. simpl.
  replace (16 <=? mask) with false by lia. reflexivity.
Qed.
End Scan.

(** A fold over the objects below a slot, in depth-first order. *)
Lemma viaSlot_fold {S : Type} (f : S -> PhysicalObject -> S) mask index slot s :
  viaSlot (fun child s => fold_left f (allObjects child) s) (fun s => s) mask index slot s =
  fold_left f (concat (viaSlot nodeLists [] mask index slot)) s.
Proof.
  unfold viaSlot. destruct (Z.testbit mask index); [|reflexivity].
  destruct slot; reflexivity.
Qed.

Lemma set_Nodes_same qt : set_Nodes qt (Nodes qt) = qt.
Proof. destruct qt; reflexivity. Qed.

(** ** All-pair overlap *)

Lemma GetIntersection_unfold qt intersections potentialObjects :
  GetIntersection qt intersections potentialObjects =
  let intersections := match intersections with Some l => l | None => [] end in
  let potentialObjects := match potentialObjects with Some l => l | None => [] end in
  let st := fold_left checkOne (m_Objects qt) (intersections, potentialObjects) in
  '(ns, st', _) <- forActive
      (fun _ child s =>
         '(child', s') <- GetIntersection child (Some (fst s)) (Some (snd s)) ;;
         ret (child', s', false))
      (m_ActiveNodes qt) (Nodes qt) st ;;
  ret (set_Nodes qt ns, st').
Proof. destruct qt; reflexivity. Qed.

(** The potential set is never restored, so the traversal is one scan of
    the objects of the tree in depth-first order: every object is checked
    against all the objects met before it. *)
Lemma GetIntersection_scan qt :
  wf qt = true ->
  forall intersections potentialObjects log,
    GetIntersection qt intersections potentialObjects log =
    Some ((qt, fold_left checkOne (allObjects qt)
                 (orEmpty intersections, orEmpty potentialObjects)), log).
Proof.
  induction qt using Quadtree_ind.
  intros Hwf ins pot log. apply wf_node in Hwf.
  destruct Hwf as (Hmask & K0 & K1 & K2 & K3).
  rewrite GetIntersection_unfold, allObjects_node.
  cbn [m_Objects m_ActiveNodes Nodes]. cbv zeta.
  unfold bind at 1.
  rewrite (scan_loop _ (fun child s => fold_left checkOne (allObjects child) s));
    try assumption.
  - unfold ret, set_Nodes. cbn [bounds MaxObjects MaxLevels Level m_Objects m_ActiveNodes
                                 m_curLife m_maxLifespan].
    rewrite !viaSlot_fold, !fold_left_app. reflexivity.
  - destruct n0 as [c|]; simpl; [|exact I].
    intros Hc index s l. unfold bind. rewrite (H Hc). destruct s; reflexivity.
  - destruct n1 as [c|]; simpl; [|exact I].
    intros Hc index s l. unfold bind. rewrite (H0 Hc). destruct s; reflexivity.
  - destruct n2 as [c|]; simpl; [|exact I].
    intros Hc index s l. unfold bind. rewrite (H1 Hc). destruct s; reflexivity.
  - destruct n3 as [c|]; simpl; [|exact I].
    intros Hc index s l. unfold bind. rewrite (H2 Hc). destruct s; reflexivity.
Qed.

(** ** Symmetry of the intersection test

    The comparisons and operations of binary64 that [Intersect] uses, read
    on their specification: the difference changes sign when its operands
    are exchanged, and the absolute value drops the sign. *)
Lemma SFcompare_antisym a b : SFcompare b a = option_map CompOpp (SFcompare a b).
Proof.
  destruct a as [sa|sa| |sa ma ea], b as [sb|sb| |sb mb eb]; simpl;
    try reflexivity;
    try (destruct sa; reflexivity); try (destruct sb; reflexivity);
    try (destruct sa, sb; reflexivity).
  destruct sa, sb; simpl; try reflexivity;
    rewrite (Z.compare_antisym ea eb); destruct (ea ?= eb); simpl; try reflexivity.
  all: change (PosDef.Pos.compare_cont Eq mb ma) with (mb ?= ma)%positive;
    change (PosDef.Pos.compare_cont Eq ma mb) with (ma ?= mb)%positive;
    rewrite (Pos.compare_antisym ma mb); reflexivity.
Qed.

Lemma SFeqb_sym a b : SFeqb a b = SFeqb b a.
Proof.
  unfold SFeqb. rewrite (SFcompare_antisym a b).
  destruct (SFcompare a b) as [[]|]; reflexivity.
Qed.

Lemma SFadd_comm prec emax a b : SFadd prec emax a b = SFadd prec emax b a.
Proof.
  destruct a as [sa|sa| |sa ma ea], b as [sb|sb| |sb mb eb]; simpl;
    try reflexivity; try (destruct sa, sb; reflexivity).
  now rewrite Z.min_comm, Z.add_comm.
Qed.

Lemma binary_round_aux_abs prec emax s m e l :
  SFabs (binary_round_aux prec emax s m e l) = SFabs (binary_round_aux prec emax false m e l).
Proof.
  unfold binary_round_aux.
  destruct (shr_fexp prec emax m e l) as [mrs' e'].
  destruct (shr_fexp prec emax _ e' loc_Exact) as [mrs'' e''].
  destruct (shr_m mrs''); try reflexivity.
  destruct (e'' <=? emax - prec); reflexivity.
Qed.

Lemma binary_normalize_abs prec emax m e :
  SFabs (binary_normalize prec emax (- m) e false) = SFabs (binary_normalize prec emax m e false).
Proof.
  destruct m; simpl; try reflexivity; unfold binary_round;
    destruct (shl_align _ _ _); now rewrite (binary_round_aux_abs _ _ true).
Qed.

Lemma SFsub_abs_sym prec emax a b :
  SFabs (SFsub prec emax a b) = SFabs (SFsub prec emax b a).
Proof.
  destruct a as [sa|sa| |sa ma ea], b as [sb|sb| |sb mb eb]; simpl;
    try reflexivity; try (destruct sa, sb; reflexivity).
  rewrite (Z.min_comm eb ea).
  rewrite <- binary_normalize_abs. f_equal. f_equal. lia.
Qed.

Lemma Intersect_sym a b : Intersect a b = Intersect b a.
Proof.
  unfold Intersect.
  rewrite !eqb_spec, !ltb_spec, !abs_spec, !sub_spec, !div_spec, !add_spec.
  unfold SF64sub, SF64add.
  rewrite (SFeqb_sym (Prim2SF (X b))), (SFeqb_sym (Prim2SF (Y b))).
  rewrite (SFsub_abs_sym _ _ (Prim2SF (Y b))), (SFsub_abs_sym _ _ (Prim2SF (X b))).
  rewrite (SFadd_comm _ _ (Prim2SF (Height b))), (SFadd_comm _ _ (Prim2SF (Width b))).
  reflexivity.
Qed.

(** ** The records of one scan *)

Lemma fold_checkOne objs : forall intersections potentialObjects,
  fold_left checkOne objs (intersections, potentialObjects) =
  (intersections ++ pairsFrom potentialObjects objs, potentialObjects ++ objs).
Proof.
  induction objs as [|one rest IH]; intros ins pot; simpl.
  - now rewrite !app_nil_r.
  - rewrite IH, <- !app_assoc. reflexivity.
Qed.

(** Every record pairs an object with one met earlier that intersects it. *)
Lemma pairsFrom_In r objs : forall seen,
  In r (pairsFrom seen objs) ->
  exists before after,
    objs = before ++ Another r :: after /\
    In (One r) (seen ++ before) /\
    Intersect (One r) (Another r) = true.
Proof.
  induction objs as [|one rest IH]; intros seen; simpl; [tauto|].
  rewrite in_app_iff, in_map_iff. intros [(p & <- & Hp)|H].
  - apply filter_In in Hp. destruct Hp as [Hp Hi].
    exists [], rest. simpl. now rewrite app_nil_r.
  - destruct (IH _ H) as (before & after & -> & Hone & Hi).
    exists (one :: before), after. rewrite <- app_assoc in Hone. auto.
Qed.

Section References.
(** In a list that holds no object twice, a reference names one element. *)
Variable objs : list PhysicalObject.
Hypothesis once : NoDup (map ident objs).

Lemma same_reference x y :
  In x objs -> In y objs -> ident x = ident y -> x = y.
Proof.
  clear -once. induction objs as [|o rest IH]; simpl; [tauto|].
  inversion once as [|? ? Hnot Hrest]; subst.
  intros [->|Hx] [->|Hy] E; auto.
  - exfalso. apply Hnot. rewrite E. now apply in_map.
  - exfalso. apply Hnot. rewrite <- E. now apply in_map.
Qed.
End References.

Lemma holds_In target objs :
  holds target objs = true <-> exists one, In one objs /\ ident one = ident target.
Proof.
  unfold holds, same_object. rewrite existsb_exists.
  split; intros (one & H & E); exists one; split; auto; now apply Pos.eqb_eq.
Qed.

Lemma In_holds target objs : In target objs -> holds target objs = true.
Proof. intros H. apply holds_In. now exists target. Qed.

Lemma same_object_refl o : same_object o o = true.
Proof. apply Pos.eqb_refl. Qed.

Lemma same_object_sym a b : same_object a b = same_object b a.
Proof. apply Pos.eqb_sym. Qed.

(** The objects of [seen] that are [x] and intersect [one]. *)
Lemma count_seen_absent x one seen :
  holds x seen = false ->
  length (filter (fun p => same_object p x)
                 (filter (fun p => Intersect p one) seen)) = 0%nat.
Proof.
  unfold holds. induction seen as [|p rest IH]; simpl; [reflexivity|].
  intros H. apply orb_false_iff in H. destruct H as [Ep Hrest].
  destruct (Intersect p one); simpl; rewrite ?Ep; auto.
Qed.

Lemma count_seen_In x one seen :
  NoDup (map ident seen) -> In x seen ->
  length (filter (fun p => same_object p x)
                 (filter (fun p => Intersect p one) seen)) =
  if Intersect x one then 1%nat else 0%nat.
Proof.
  induction seen as [|p rest IH]; simpl; [tauto|].
  intros Hnd Hx. inversion Hnd as [|? ? Hnot Hrest]; subst.
  destruct Hx as [->|Hx].
  - assert (Habs : holds x rest = false).
    { apply not_true_is_false. intros H. apply holds_In in H.
      destruct H as (q & Hq & E). apply Hnot. rewrite <- E. now apply in_map. }
    destruct (Intersect x one); simpl;
      rewrite ?same_object_refl; simpl; now rewrite count_seen_absent.
  - assert (Ep : same_object p x = false).
    { apply not_true_is_false. intros H. apply Pos.eqb_eq in H.
      apply Hnot. rewrite H. now apply in_map. }
    destruct (Intersect p one); simpl; rewrite ?Ep; auto.
Qed.

(** The records that [one] adds, counted as pairs of [a] and [b]. *)
Lemma countPair_new a b one seen :
  countPair a b (map (fun p => mkRecord p one) (filter (fun p => Intersect p one) seen)) =
  length (filter (fun p => (same_object p a && same_object one b) ||
                           (same_object p b && same_object one a))
                 (filter (fun p => Intersect p one) seen)).
Proof.
  unfold countPair.
  induction (filter (fun p => Intersect p one) seen) as [|p rest IH]; simpl; [reflexivity|].
  unfold is_pair at 1. simpl.
  destruct ((same_object p a && same_object one b) || (same_object p b && same_object one a));
    simpl; now rewrite IH.
Qed.

Lemma holds_once x seen rest :
  NoDup (map ident (seen ++ rest)) -> In x (seen ++ rest) ->
  holds x seen = true -> In x seen.
Proof.
  intros Hnd Hx H. apply holds_In in H. destruct H as (q & Hq & E).
  rewrite <- (same_reference _ Hnd q x); auto. apply in_or_app. now left.
Qed.

(** In a scan of objects that are all different, the pair of two of them
    is recorded once when they intersect and never otherwise, unless both
    were in the potential set from the start. *)
Lemma pairsFrom_count a b objs : forall seen,
  NoDup (map ident (seen ++ objs)) ->
  In a (seen ++ objs) -> In b (seen ++ objs) -> ident a <> ident b ->
  countPair a b (pairsFrom seen objs) =
  if holds a seen && holds b seen then 0%nat
  else if Intersect a b then 1%nat else 0%nat.
Proof.
  induction objs as [|one rest IH]; intros seen Hnd Ha Hb Hab.
  - rewrite app_nil_r in Ha, Hb. now rewrite (In_holds _ _ Ha), (In_holds _ _ Hb).
  - simpl pairsFrom. unfold countPair. rewrite filter_app, length_app.
    fold (countPair a b (pairsFrom (seen ++ [one]) rest)).
    fold (countPair a b (map (fun p => mkRecord p one)
                             (filter (fun p => Intersect p one) seen))).
    assert (Hnd' : NoDup (map ident ((seen ++ [one]) ++ rest)))
      by now rewrite <- app_assoc.
    rewrite (IH (seen ++ [one])); try assumption;
      try (rewrite <- app_assoc; assumption).
    rewrite countPair_new, !holds_app. simpl holds. rewrite !orb_false_r.
    assert (Hseen : NoDup (map ident seen)).
    { rewrite map_app in Hnd. now apply NoDup_app_remove_r in Hnd. }
    assert (Hone : holds one seen = false).
    { apply not_true_is_false. intros H. apply holds_In in H.
      destruct H as (q & Hq & E).
      rewrite map_app in Hnd. simpl in Hnd. apply NoDup_remove_2 in Hnd.
      apply Hnd. apply in_or_app. left. rewrite <- E. now apply in_map. }
    assert (Hin : In one (seen ++ one :: rest)) by (apply in_or_app; right; now left).
    destruct (same_object one a) eqn:Ea; destruct (same_object one b) eqn:Eb.
    + apply Pos.eqb_eq in Ea, Eb. congruence.
    + apply Pos.eqb_eq in Ea.
      pose proof (same_reference _ Hnd one a Hin Ha Ea) as ->.
      rewrite Hone. simpl.
      rewrite (filter_ext _ (fun p => same_object p b))
        by (intros p; now rewrite andb_false_r, andb_true_r).
      destruct (holds b seen) eqn:Hbs.
      * rewrite (count_seen_In b a seen Hseen (holds_once b seen (a :: rest) Hnd Hb Hbs)).
        rewrite (Intersect_sym b a). destruct (Intersect a b); reflexivity.
      * rewrite count_seen_absent by assumption. reflexivity.
    + apply Pos.eqb_eq in Eb.
      pose proof (same_reference _ Hnd one b Hin Hb Eb) as ->.
      rewrite Hone, andb_false_r. simpl.
      rewrite (filter_ext _ (fun p => same_object p a))
        by (intros p; now rewrite andb_false_r, andb_true_r, orb_false_r).
      destruct (holds a seen) eqn:Has.
      * rewrite (count_seen_In a b seen Hseen (holds_once a seen (b :: rest) Hnd Ha Has)).
        simpl. destruct (Intersect a b); reflexivity.
      * rewrite count_seen_absent by assumption. reflexivity.
    + rewrite (filter_ext _ (fun _ => false))
        by (intros p; now rewrite !andb_false_r).
      rewrite !orb_false_r.
      replace (filter (fun _ => false) _) with (@nil PhysicalObject); [reflexivity|].
      symmetry. induction (filter _ seen); auto.
Qed.

(** C4 (as stated it fails): a box inserted twice is stored twice, and the
    traversal records it as intersecting itself, a record that is not a pair
    of distinct stored objects. *)
Lemma GetIntersection_object_twice :
  Insert leaf_once box_00 [] = Some (leaf_twice, []) /\
  wf leaf_twice = true /\
  GetIntersection leaf_twice (Some []) (Some []) [] =
  Some ((leaf_twice, ([mkRecord box_00 box_00], [box_00; box_00])), []).
Proof. vm_compute. repeat split. Qed.

(** C4, amended.  On a tree that satisfies I3 and stores no object twice,
    [GetIntersection], called with an empty (or [nil]) result list and an
    empty (or [nil]) potential set, leaves the tree as it is and returns
    records such that: every record is made of two different stored objects
    that intersect, and for any two different stored objects the number of
    records that pair them, in either order, is 1 when they intersect and 0
    when they do not.  The potential set ends as the objects of the tree in
    depth-first order: it is never restored between siblings, every object
    is checked against all the objects met before it. *)
Theorem GetIntersection_pairs (qt : Quadtree)
    (intersections : option (list IntersectionRecord))
    (potentialObjects : option (list PhysicalObject)) (log : HookLog) :
  wf qt = true -> NoDup (map ident (allObjects qt)) ->
  orEmpty intersections = [] -> orEmpty potentialObjects = [] ->
  exists recs,
    GetIntersection qt intersections potentialObjects log =
      Some ((qt, (recs, allObjects qt)), log) /\
    (forall r, In r recs ->
       In (One r) (allObjects qt) /\ In (Another r) (allObjects qt) /\
       ident (One r) <> ident (Another r) /\
       Intersect (One r) (Another r) = true) /\
    (forall a b, In a (allObjects qt) -> In b (allObjects qt) -> ident a <> ident b ->
       countPair a b recs = if Intersect a b then 1%nat else 0%nat).
Proof.
  intros Hwf Hnd Hins Hpot. exists (pairsFrom [] (allObjects qt)).
  rewrite (GetIntersection_scan qt Hwf), Hins, Hpot, fold_checkOne. simpl.
  split; [reflexivity|]. split.
  - intros r Hr. destruct (pairsFrom_In r _ _ Hr) as (before & after & E & Hone & Hi).
    simpl in Hone. rewrite E in Hnd |- *.
    repeat split; auto.
    + apply in_or_app. now left.
    + apply in_or_app. right. now left.
    + rewrite map_app in Hnd. simpl in Hnd. apply NoDup_remove_2 in Hnd.
      intros Eid. apply Hnd. apply in_or_app. left. rewrite <- Eid. now apply in_map.
  - intros a b Ha Hb Hab.
    now rewrite (pairsFrom_count a b (allObjects qt) [] Hnd Ha Hb Hab).
Qed.

Lemma GetIntersection_pairs_built :
  exists recs,
    GetIntersection built_world None None [] =
      Some ((built_world, (recs, allObjects built_world)), []) /\
    (forall r, In r recs ->
       In (One r) (allObjects built_world) /\ In (Another r) (allObjects built_world) /\
       ident (One r) <> ident (Another r) /\
       Intersect (One r) (Another r) = true) /\
    (forall a b, In a (allObjects built_world) -> In b (allObjects built_world) ->
       ident a <> ident b ->
       countPair a b recs = if Intersect a b then 1%nat else 0%nat).
Proof.
  apply (GetIntersection_pairs built_world None None []); try reflexivity.
  vm_compute. repeat constructor; simpl; intuition discriminate.
Defined.

(** ** Queries *)

Lemma Walk_unfold {W : Type} qt (walker : PhysicalObject -> W -> W) w :
  Walk qt walker w =
  let w1 := fold_left (fun acc obj => walker obj acc) (m_Objects qt) w in
  '(ns, w2, _) <- forActive
      (fun _ child s => '(child', s') <- Walk child walker s ;; ret (child', s', false))
      (m_ActiveNodes qt) (Nodes qt) w1 ;;
  ret (set_Nodes qt ns, w2).
Proof. destruct qt; reflexivity. Qed.

(** [Walk] hands the visitor the objects of the tree in depth-first order
    (the comment of the source says breadth-first). *)
Lemma Walk_scan {W : Type} (walker : PhysicalObject -> W -> W) qt :
  wf qt = true ->
  forall w log,
    Walk qt walker w log =
    Some ((qt, fold_left (fun acc obj => walker obj acc) (allObjects qt) w), log).
Proof.
  induction qt using Quadtree_ind.
  intros Hwf w log. apply wf_node in Hwf.
  destruct Hwf as (Hmask & K0 & K1 & K2 & K3).
  rewrite Walk_unfold, allObjects_node.
  cbn [m_Objects m_ActiveNodes Nodes]. cbv zeta.
  unfold bind at 1.
  rewrite (scan_loop _ (fun child s =>
             fold_left (fun acc obj => walker obj acc) (allObjects child) s));
    try assumption.
  - unfold ret, set_Nodes. cbn [bounds MaxObjects MaxLevels Level m_Objects m_ActiveNodes
                                 m_curLife m_maxLifespan].
    rewrite !viaSlot_fold, !fold_left_app. reflexivity.
  - destruct n0 as [c|]; simpl; [|exact I].
    intros Hc index s l. unfold bind. now rewrite (H Hc).
  - destruct n1 as [c|]; simpl; [|exact I].
    intros Hc index s l. unfold bind. now rewrite (H0 Hc).
  - destruct n2 as [c|]; simpl; [|exact I].
    intros Hc index s l. unfold bind. now rewrite (H1 Hc).
  - destruct n3 as [c|]; simpl; [|exact I].
    intros Hc index s l. unfold bind. now rewrite (H2 Hc).
Qed.

Lemma GetIntersectedObjectsRaw_unfold qt target objects :
  GetIntersectedObjectsRaw qt target objects =
  let objects1 := objects ++ intersected target (m_Objects qt) in
  '(ns, objects2, _) <- forActive
      (fun _ child objs =>
         '(child', objs') <- GetIntersectedObjectsRaw child target objs ;;
         ret (child', objs', false))
      (m_ActiveNodes qt) (Nodes qt) objects1 ;;
  ret (set_Nodes qt ns, objects2).
Proof. destruct qt; reflexivity. Qed.

Lemma intersected_app target l1 l2 :
  intersected target (l1 ++ l2) = intersected target l1 ++ intersected target l2.
Proof. apply filter_app. Qed.

Lemma viaSlot_intersected target mask index slot objs :
  viaSlot (fun child objs => objs ++ intersected target (allObjects child))
          (fun objs => objs) mask index slot objs =
  objs ++ intersected target (concat (viaSlot nodeLists [] mask index slot)).
Proof.
  unfold viaSlot. destruct (Z.testbit mask index); [|now rewrite app_nil_r].
  destruct slot; [reflexivity|now rewrite app_nil_r].
Qed.

(** [GetIntersectedObjectsRaw] appends the objects of the subtree, other
    than the target, that intersect the target. *)
Lemma GetIntersectedObjectsRaw_scan target qt :
  wf qt = true ->
  forall objects log,
    GetIntersectedObjectsRaw qt target objects log =
    Some ((qt, objects ++ intersected target (allObjects qt)), log).
Proof.
  induction qt using Quadtree_ind.
  intros Hwf w log. apply wf_node in Hwf.
  destruct Hwf as (Hmask & K0 & K1 & K2 & K3).
  rewrite GetIntersectedObjectsRaw_unfold, allObjects_node.
  cbn [m_Objects m_ActiveNodes Nodes]. cbv zeta.
  unfold bind at 1.
  rewrite (scan_loop _ (fun child objs => objs ++ intersected target (allObjects child)));
    try assumption.
  - unfold ret, set_Nodes. cbn [bounds MaxObjects MaxLevels Level m_Objects m_ActiveNodes
                                 m_curLife m_maxLifespan].
    rewrite !viaSlot_intersected, !intersected_app, <- !app_assoc. reflexivity.
  - destruct n0 as [c|]; simpl; [|exact I].
    intros Hc index s l. unfold bind. now rewrite (H Hc).
  - destruct n1 as [c|]; simpl; [|exact I].
    intros Hc index s l. unfold bind. now rewrite (H0 Hc).
  - destruct n2 as [c|]; simpl; [|exact I].
    intros Hc index s l. unfold bind. now rewrite (H1 Hc).
  - destruct n3 as [c|]; simpl; [|exact I].
    intros Hc index s l. unfold bind. now rewrite (H2 Hc).
Qed.

Lemma FindObject_unfold qt target :
  FindObject qt target =
  if existsb (fun one => same_object one target) (m_Objects qt) then ret (qt, Some [])
  else
    '(ns, sub, _) <- forActive
        (fun index child (_ : option (list Z)) =>
           '(child', sub) <- FindObject child target ;;
           match sub with
           | Some path => ret (child', Some (index :: path), true)
           | None => ret (child', None, false)
           end)
        (m_ActiveNodes qt) (Nodes qt) None ;;
    ret (set_Nodes qt ns, sub).
Proof. destruct qt; reflexivity. Qed.

Lemma FindObject_slot target mask index slot s returned log :
  inSlot (FindObject_spec target) slot -> slotOk wf mask index slot = true ->
  (returned = false -> s = None) ->
  exists s',
    visitSlot (fun index child (_ : option (list Z)) =>
                 '(child', sub) <- FindObject child target ;;
                 match sub with
                 | Some path => ret (child', Some (index :: path), true)
                 | None => ret (child', None, false)
                 end)
              mask index slot (s, returned) log =
    Some ((slot, (s', returned ||
                      holds target (concat (viaSlot nodeLists [] mask index slot)))), log) /\
    (returned = true -> s' = s) /\
    (returned || holds target (concat (viaSlot nodeLists [] mask index slot)) = false ->
     s' = None) /\
    (returned = false ->
     holds target (concat (viaSlot nodeLists [] mask index slot)) = true ->
     exists path child node,
       s' = Some (index :: path) /\ slot = Some child /\
       nodeAt path child = Some node /\ wf node = true /\
       holds target (m_Objects node) = true).
Proof.
  intros IH Hok Hs. unfold visitSlot. simpl snd. simpl fst.
  destruct returned; simpl.
  - exists s. unfold ret. repeat split; auto; discriminate.
  - specialize (Hs eq_refl). subst s.
    unfold viaSlot, slotOk in *.
    destruct (Z.testbit mask index).
    + destruct slot as [child|]; [|discriminate]. simpl in IH.
      destruct (IH Hok log) as (sub & E & Hnone & Hpath).
      fold (allObjects child). unfold bind. rewrite E.
      destruct sub as [path|].
      * assert (Hh : holds target (allObjects child) = true).
        { destruct (holds target (allObjects child)); [reflexivity|].
          destruct Hnone as [_ Hnone]. now specialize (Hnone eq_refl). }
        rewrite Hh. exists (Some (index :: path)). unfold ret.
        repeat split; auto; try discriminate.
        intros _ _. destruct (Hpath path eq_refl) as (node & ? & ? & ?).
        exists path, child, node. auto.
      * rewrite (proj1 Hnone eq_refl). exists None. unfold ret.
        repeat split; auto; discriminate.
    + exists None. unfold ret. simpl. repeat split; auto; discriminate.
Qed.

Lemma FindObject_correct target qt : FindObject_spec target qt.
Proof.
  induction qt using Quadtree_ind.
  intros Hwf log. pose proof Hwf as Hwf'. apply wf_node in Hwf.
  destruct Hwf as (Hmask & K0 & K1 & K2 & K3).
  rewrite FindObject_unfold, allObjects_node, !holds_app.
  cbn [m_Objects m_ActiveNodes Nodes].
  fold (holds target objs).
  destruct (holds target objs) eqn:Hobjs.
  - exists (Some []). unfold ret. simpl. repeat split; try discriminate.
    intros path [= <-]. eexists. simpl. eauto.
  - simpl orb. unfold bind at 1. rewrite forActive_unfold.
    cbn [slot0 slot1 slot2 slot3].
    destruct (FindObject_slot target mask 0 n0 None false log H K0 (fun _ => eq_refl))
      as (s0 & -> & R0 & N0 & F0).
    set (h0 := holds target (concat (viaSlot nodeLists [] mask 0 n0))) in *.
    destruct (FindObject_slot target mask 1 n1 s0 (false || h0) log H0 K1 N0)
      as (s1 & -> & R1 & N1 & F1).
    set (h1 := holds target (concat (viaSlot nodeLists [] mask 1 n1))) in *.
    destruct (FindObject_slot target mask 2 n2 s1 (false || h0 || h1) log H1 K2 N1)
      as (s2 & -> & R2 & N2 & F2).
    set (h2 := holds target (concat (viaSlot nodeLists [] mask 2 n2))) in *.
    destruct (FindObject_slot target mask 3 n3 s2 (false || h0 || h1 || h2) log H2 K3 N2)
      as (s3 & -> & R3 & N3 & F3).
    set (h3 := holds target (concat (viaSlot nodeLists [] mask 3 n3))) in *.
    cbn [orb] in *. cbn [snd fst].
    replace (16 <=? mask) with false by lia.
    rewrite !orb_assoc.
    clearbody h0 h1 h2 h3.
    assert (Hfound :
      h0 || h1 || h2 || h3 = true ->
      exists index p child node,
        s3 = Some (index :: p) /\
        getSlot index (mkSlots n0 n1 n2 n3) = Some (Some child) /\
        nodeAt p child = Some node /\ wf node = true /\
        holds target (m_Objects node) = true).
    { intros Hh. destruct h0.
      - destruct (F0 eq_refl eq_refl) as (p & c & n & E & -> & ? & ? & ?).
        exists 0, p, c, n. rewrite (R3 eq_refl), (R2 eq_refl), (R1 eq_refl). auto.
      - destruct h1.
        + destruct (F1 eq_refl eq_refl) as (p & c & n & E & -> & ? & ? & ?).
          exists 1, p, c, n. rewrite (R3 eq_refl), (R2 eq_refl). auto.
        + destruct h2.
          * destruct (F2 eq_refl eq_refl) as (p & c & n & E & -> & ? & ? & ?).
            exists 2, p, c, n. rewrite (R3 eq_refl). auto.
          * destruct h3; [|discriminate].
            destruct (F3 eq_refl eq_refl) as (p & c & n & E & -> & ? & ? & ?).
            exists 3, p, c, n. auto. }
    exists s3. split.
    { unfold ret, set_Nodes. cbn [bounds MaxObjects MaxLevels Level m_Objects
                                  m_ActiveNodes m_curLife m_maxLifespan].
      destruct (h0 || h1 || h2 || h3); reflexivity. }
    split.
    { split.
      - intros Hnone. destruct (h0 || h1 || h2 || h3) eqn:Hh; [|reflexivity].
        destruct (Hfound eq_refl) as (? & ? & ? & ? & E & _). congruence.
      - exact N3. }
    intros path Hpath.
    destruct (h0 || h1 || h2 || h3) eqn:Hh; [|rewrite (N3 eq_refl) in Hpath; discriminate].
    destruct (Hfound eq_refl) as (index & p & child & node & E & Hslot & Hnode & Hwfn & Hholds).
    rewrite E in Hpath. injection Hpath as <-.
    exists node. cbn [nodeAt Nodes]. rewrite Hslot. auto.
Qed.

Lemma setSlot_getSlot {A : Type} index (ns : slots A) a :
  getSlot index ns = Some a -> setSlot index a ns = ns.
Proof.
  destruct ns as [a0 a1 a2 a3]. unfold getSlot, setSlot.
  destruct index as [|[[|[]|]|[|[]|]|]|]; simpl; congruence.
Qed.

Lemma parentObjects_ok path : forall qt above node log,
  nodeAt path qt = Some node ->
  exists parents, parentObjects path qt above log = Some (parents, log).
Proof.
  induction path as [|index rest IH]; intros qt above node log; simpl.
  - intros _. now exists above.
  - destruct (getSlot index (Nodes qt)) as [[child|]|]; try discriminate.
    apply IH.
Qed.

Lemma atPath_frame {A : Type} (f : Quadtree -> M (Quadtree * A)) path :
  forall qt node a log,
    nodeAt path qt = Some node ->
    f node log = Some ((node, a), log) ->
    atPath path f qt log = Some ((qt, a), log).
Proof.
  induction path as [|index rest IH]; intros qt node a log; simpl.
  - now intros [= ->].
  - destruct (getSlot index (Nodes qt)) as [[child|]|] eqn:E; try discriminate.
    intros Hnode Hf. unfold bind. rewrite (IH child node a log Hnode Hf).
    unfold ret. now rewrite (setSlot_getSlot _ _ _ E), set_Nodes_same.
Qed.

Lemma GetIntersectedObjects_frame qt above target log :
  wf qt = true ->
  exists objs, GetIntersectedObjects qt above target log = Some ((qt, objs), log).
Proof.
  intros Hwf. unfold GetIntersectedObjects, bind.
  destruct (FindObject_correct target qt Hwf log) as (sub & -> & _ & Hpath).
  destruct sub as [path|]; [|now exists []].
  destruct (Hpath path eq_refl) as (node & Hnode & Hwfn & _).
  destruct (parentObjects_ok path qt above node log Hnode) as (parents & ->).
  eexists. eapply atPath_frame; [exact Hnode|].
  apply GetIntersectedObjectsRaw_scan. exact Hwfn.
Qed.

(** C10.  On a tree that satisfies I3, [FindObject], [Walk],
    [GetIntersectedObjects] and [GetIntersection] return with the tree they
    were called on (the bounds, level, direct objects, slots, mask and
    counters of every node, and the objects themselves) and with the log of
    hook calls as it was before the call.  [GetIntersection] returns the
    result list and the potential set it was given, each with elements
    appended at its end. *)
Theorem queries_leave_tree (qt : Quadtree) :
  wf qt = true ->
  (forall target log, exists sub,
     FindObject qt target log = Some ((qt, sub), log)) /\
  (forall (W : Type) (walker : PhysicalObject -> W -> W) w log, exists w',
     Walk qt walker w log = Some ((qt, w'), log)) /\
  (forall above target log, exists objs,
     GetIntersectedObjects qt above target log = Some ((qt, objs), log)) /\
  (forall intersections potentialObjects log, exists recs seen,
     GetIntersection qt intersections potentialObjects log =
     Some ((qt, (orEmpty intersections ++ recs, orEmpty potentialObjects ++ seen)), log)).
Proof.
  intros Hwf. repeat split.
  - intros target log.
    destruct (FindObject_correct target qt Hwf log) as (sub & E & _). now exists sub.
  - intros W walker w log. eexists. now apply Walk_scan.
  - intros above target log. now apply GetIntersectedObjects_frame.
  - intros ins pot log. rewrite (GetIntersection_scan qt Hwf), fold_checkOne.
    now eexists _, _.
Qed.

Lemma queries_leave_tree_built :
  (forall target log, exists sub,
     FindObject built_world target log = Some ((built_world, sub), log)) /\
  (forall (W : Type) (walker : PhysicalObject -> W -> W) w log, exists w',
     Walk built_world walker w log = Some ((built_world, w'), log)) /\
  (forall above target log, exists objs,
     GetIntersectedObjects built_world above target log =
     Some ((built_world, objs), log)) /\
  (forall intersections potentialObjects log, exists recs seen,
     GetIntersection built_world intersections potentialObjects log =
     Some ((built_world,
            (orEmpty intersections ++ recs, orEmpty potentialObjects ++ seen)), log)).
Proof. apply (queries_leave_tree built_world). vm_compute. reflexivity. Defined.

(** ** The scenarios of the specification (section 8)

    The embedding run on the end-to-end scenarios T1 to T5, with the
    states and answers that the specification and the tests of the
    repository expect. *)

(** T1: lazy creation of children; the fourth quadrant gets none. *)
Example scenario_T1 :
  let qt := Build (CreateQuadtree (mkBounds 0 0 2 2) 1 1
                     [box 1 0 0 1 1; box 2 1 0 1 1; box 3 0 1 1 1]) in
  m_ActiveNodes qt = 7 /\ slot3 (Nodes qt) = None /\
  nodeLists qt = [[]; [box 1 0 0 1 1]; [box 2 1 0 1 1]; [box 3 0 1 1 1]].
Proof. vm_compute. repeat split. Qed.

(** T2: no subdivision below [MaxLevels]. *)
Example scenario_T2 :
  let qt := Build (CreateQuadtree world4 1 1
                     [box 1 1.5 1.5 1 1; box 2 0 0 1 1; box 3 1 0 1 1; box 4 0 1 1 1]) in
  m_ActiveNodes qt = 1 /\
  nodeLists qt = [[box 1 1.5 1.5 1 1]; [box 2 0 0 1 1; box 3 1 0 1 1; box 4 0 1 1 1]].
Proof. vm_compute. repeat split. Qed.

(** T3: an object that straddles a midpoint stays at the parent. *)
Example scenario_T3 :
  exists qt,
    Insert (Build (CreateQuadtree world4 1 10 [box 1 1.5 1.5 1 1; box 2 0 0 1 1]))
           (box 3 3 1.5 1 1) [] = Some (qt, []) /\
    m_ActiveNodes qt = 1 /\
    nodeLists qt = [[box 1 1.5 1.5 1 1; box 3 3 1.5 1 1]; [box 2 0 0 1 1]].
Proof. eexists. vm_compute. repeat split. Qed.

(** T4: boxes that touch do not intersect. *)
Example scenario_T4 :
  let qt := Build (CreateQuadtree (mkBounds 0 0 2 2) 4 1
                     [box 1 0 0 1 1; box 2 1 0 1 1; box 3 0 1 1 1; box 4 1 1 1 1]) in
  exists seen, GetIntersection qt None None [] = Some ((qt, ([], seen)), []).
Proof. eexists. vm_compute. reflexivity. Qed.

(** T5: the overlap query looks below and above the node of the target. *)
Example scenario_T5 :
  let qt := Build (CreateQuadtree world4 1 10
                     [box 1 1.5 1 1 1; box 2 0 0 1 1; box 3 1 0 1 1; box 4 0 1 1 1;
                      box 5 1 1 1 1]) in
  GetIntersectedObjects qt [] (box 1 1.5 1 1 1) [] = Some ((qt, [box 5 1 1 1 1]), []) /\
  GetIntersectedObjects qt [] (box 5 1 1 1 1) [] = Some ((qt, [box 1 1.5 1 1 1]), []).
Proof. vm_compute. split; reflexivity. Qed.

(** ** The invariants of the trees that the package builds *)

Lemma sound_iff qt :
  sound qt = true <->
  (0 <= m_ActiveNodes qt < 16) /\ nodeSettled qt = true /\
  slotOk sound (m_ActiveNodes qt) 0 (slot0 (Nodes qt)) = true /\
  slotOk sound (m_ActiveNodes qt) 1 (slot1 (Nodes qt)) = true /\
  slotOk sound (m_ActiveNodes qt) 2 (slot2 (Nodes qt)) = true /\
  slotOk sound (m_ActiveNodes qt) 3 (slot3 (Nodes qt)) = true.
Proof.
  destruct qt. simpl. rewrite !andb_true_iff, Z.leb_le, Z.ltb_lt. tauto.
Qed.

Lemma slotOk_weaken (P Q : Quadtree -> bool) mask index slot :
  inSlot (fun child => P child = true -> Q child = true) slot ->
  slotOk P mask index slot = true -> slotOk Q mask index slot = true.
Proof.
  unfold slotOk. destruct (Z.testbit mask index); [|reflexivity].
  destruct slot; simpl; auto.
Qed.

Lemma sound_wf qt : sound qt = true -> wf qt = true.
Proof.
  induction qt using Quadtree_ind. intros Hs.
  apply sound_iff in Hs. cbn [m_ActiveNodes Nodes slot0 slot1 slot2 slot3] in Hs.
  destruct Hs as (Hmask & _ & K0 & K1 & K2 & K3).
  apply wf_node. repeat split; try lia; eapply slotOk_weaken; eassumption.
Qed.

Lemma sound_CreateQuadtree b mo ml objs : sound (CreateQuadtree b mo ml objs) = true.
Proof. reflexivity. Qed.

Lemma mask_cases mask :
  0 <= mask < 16 ->
  mask = 0 \/ mask = 1 \/ mask = 2 \/ mask = 3 \/ mask = 4 \/ mask = 5 \/ mask = 6 \/
  mask = 7 \/ mask = 8 \/ mask = 9 \/ mask = 10 \/ mask = 11 \/ mask = 12 \/
  mask = 13 \/ mask = 14 \/ mask = 15.
Proof. lia. Qed.

Ltac each_mask H :=
  apply mask_cases in H;
  repeat (destruct H as [H|H]; [subst|]); subst.

(** Setting the bit of a slot and storing a child there: the other slots
    are read as before. *)
Lemma slots_store (P : Quadtree -> bool) mask ns index child :
  0 <= mask < 16 -> 0 <= index <= 3 ->
  P child = true ->
  slotOk P mask 0 (slot0 ns) = true -> slotOk P mask 1 (slot1 ns) = true ->
  slotOk P mask 2 (slot2 ns) = true -> slotOk P mask 3 (slot3 ns) = true ->
  let mask' := Z.lor mask (Z.shiftl 1 index) in
  let ns' := setSlot index (Some child) ns in
  (0 <= mask' < 16) /\ mask' <> 0 /\
  slotOk P mask' 0 (slot0 ns') = true /\ slotOk P mask' 1 (slot1 ns') = true /\
  slotOk P mask' 2 (slot2 ns') = true /\ slotOk P mask' 3 (slot3 ns') = true.
Proof.
  intros Hmask Hindex Hchild K0 K1 K2 K3.
  assert (Hi : index = 0 \/ index = 1 \/ index = 2 \/ index = 3) by lia.
  destruct ns as [n0 n1 n2 n3]. cbn [slot0 slot1 slot2 slot3] in *.
  each_mask Hmask;
    destruct Hi as [-> | [-> | [-> | ->]]];
    cbv [setSlot slot0 slot1 slot2 slot3 slotOk] in *;
    simpl in *; rewrite ?Hchild; repeat split; auto; try lia; discriminate.
Qed.

(** Replacing the child of a slot whose bit is set. *)
Lemma slots_replace (P : Quadtree -> bool) mask ns index child :
  0 <= index <= 3 -> P child = true ->
  slotOk P mask 0 (slot0 ns) = true -> slotOk P mask 1 (slot1 ns) = true ->
  slotOk P mask 2 (slot2 ns) = true -> slotOk P mask 3 (slot3 ns) = true ->
  let ns' := setSlot index (Some child) ns in
  slotOk P mask 0 (slot0 ns') = true /\ slotOk P mask 1 (slot1 ns') = true /\
  slotOk P mask 2 (slot2 ns') = true /\ slotOk P mask 3 (slot3 ns') = true.
Proof.
  intros Hindex Hchild K0 K1 K2 K3.
  assert (Hi : index = 0 \/ index = 1 \/ index = 2 \/ index = 3) by lia.
  destruct ns as [n0 n1 n2 n3]. cbn [slot0 slot1 slot2 slot3] in *.
  destruct Hi as [-> | [-> | [-> | ->]]]; cbv [setSlot slot0 slot1 slot2 slot3];
    repeat split; auto; unfold slotOk; rewrite Hchild;
    destruct (Z.testbit mask _); reflexivity.
Qed.

Lemma sound_slotsSound qt :
  sound qt = true <-> slotsSound qt /\ nodeSettled qt = true.
Proof. rewrite sound_iff. unfold slotsSound. tauto. Qed.

Lemma buildChild_sound build qt index qt1 :
  0 <= index <= 3 ->
  (forall objects,
     sound (build (createSubtree qt (subBounds (bounds qt) index) objects)) = true) ->
  slotsSound qt1 -> slotsSound (buildChild build qt index qt1).
Proof.
  intros Hindex Hbuild (Hmask & K0 & K1 & K2 & K3). unfold buildChild.
  destruct (subtreeObjects qt index) as [|o objects]; [now repeat split|].
  destruct (slots_store sound _ _ index _ Hmask Hindex (Hbuild (o :: objects))
              K0 K1 K2 K3) as (? & _ & ? & ? & ? & ?).
  now repeat split.
Qed.

Lemma subtreeObjects_settled qt :
  forallb (fun obj => quadrantIndex (bounds qt) obj =? -1) (subtreeObjects qt (-1)) = true.
Proof.
  unfold subtreeObjects. apply forallb_forall. intros obj H.
  apply filter_In in H. tauto.
Qed.

(** [Build] keeps I3 and the code's I1. *)
Lemma Build_fuel_sound fuel : forall qt, sound qt = true -> sound (Build_fuel fuel qt) = true.
Proof.
  induction fuel as [|fuel IH]; intros qt Hs; simpl;
    destruct (Build_guard qt); try assumption.
  apply sound_slotsSound in Hs. destruct Hs as [Hslots _].
  assert (Hfresh : forall index objects,
             sound (Build_fuel fuel
                      (createSubtree qt (subBounds (bounds qt) index) objects)) = true).
  { intros. apply IH. reflexivity. }
  apply sound_slotsSound. split.
  - repeat (apply buildChild_sound; [lia|intros; apply Hfresh|]). exact Hslots.
  - unfold nodeSettled. apply orb_true_iff. right.
    repeat match goal with
           | |- context [buildChild ?f ?q ?i ?q1] =>
               let H := fresh in
               pose proof (buildChild_fields f q i q1) as H;
               destruct H as (-> & _ & _ & _ & -> & _ & _)
           end.
    exact (subtreeObjects_settled qt).
Qed.

Lemma Build_sound qt : sound qt = true -> sound (Build qt) = true.
Proof. apply Build_fuel_sound. Qed.

Lemma Insert_leaf_sound qt obj :
  m_ActiveNodes qt = 0 -> sound qt = true -> sound (Insert_leaf qt obj) = true.
Proof.
  intros Hmask Hs. unfold Insert_leaf.
  assert (Hpush : sound (PushBack qt obj) = true).
  { apply sound_slotsSound in Hs. destruct Hs as [Hslots _].
    apply sound_slotsSound. split; [exact Hslots|].
    unfold nodeSettled. simpl. now rewrite Hmask. }
  destruct (_ || _); [assumption|now apply Build_sound].
Qed.

Lemma Insert_unfold qt physical :
  Insert qt physical =
  if m_ActiveNodes qt =? 0 then ret (Insert_leaf qt physical)
  else
    let index := quadrantIndex (bounds qt) physical in
    if index =? -1 then ret (PushBack qt physical)
    else if Z.land (m_ActiveNodes qt) (Z.shiftl 1 index) =? 0 then
      let sub := createSubtree qt (subBounds (bounds qt) index) [] in
      ret (set_ActiveNodes
             (set_Nodes qt (setSlot index (Some (Insert_leaf sub physical)) (Nodes qt)))
             (Z.lor (m_ActiveNodes qt) (Z.shiftl 1 index)))
    else
      ns <- onSlot index (Nodes qt)
              (fun slot => match slot with
                           | None => panic
                           | Some child => child' <- Insert child physical ;; ret (Some child')
                           end) ;;
      ret (set_Nodes qt ns).
Proof. destruct qt; reflexivity. Qed.

Lemma bit_of_land mask index :
  0 <= mask < 16 -> 0 <= index <= 3 ->
  (Z.land mask (Z.shiftl 1 index) =? 0) = negb (Z.testbit mask index).
Proof.
  intros Hmask Hindex.
  assert (Hi : index = 0 \/ index = 1 \/ index = 2 \/ index = 3) by lia.
  each_mask Hmask; destruct Hi as [-> | [-> | [-> | ->]]]; reflexivity.
Qed.

Lemma getSlot_cases {A : Type} index (ns : slots A) :
  0 <= index <= 3 ->
  exists a, getSlot index ns = Some a /\
            (index = 0 /\ a = slot0 ns \/ index = 1 /\ a = slot1 ns \/
             index = 2 /\ a = slot2 ns \/ index = 3 /\ a = slot3 ns).
Proof.
  intros H.
  assert (Hi : index = 0 \/ index = 1 \/ index = 2 \/ index = 3) by lia.
  destruct Hi as [-> | [-> | [-> | ->]]]; eexists; split; try reflexivity; tauto.
Qed.

Lemma onSlot_child index ns physical child child' log :
  getSlot index ns = Some (Some child) ->
  Insert child physical log = Some (child', log) ->
  onSlot index ns
    (fun slot => match slot with
                 | None => panic
                 | Some child => child' <- Insert child physical ;; ret (Some child')
                 end) log =
  Some (setSlot index (Some child') ns, log).
Proof.
  intros Hslot Hins. unfold getSlot in Hslot. unfold onSlot, setSlot.
  destruct index as [|[[|[]|]|[|[]|]|]|]; try discriminate;
    injection Hslot as Hslot; rewrite Hslot; unfold bind; rewrite Hins; reflexivity.
Qed.

(** [Insert] returns on a tree that satisfies I3 and the code's I1, runs
    no hook, and keeps both invariants. *)
Lemma Insert_sound qt :
  sound qt = true ->
  forall obj log, exists qt', Insert qt obj log = Some (qt', log) /\ sound qt' = true.
Proof.
  induction qt using Quadtree_ind. intros Hs obj log.
  set (qt := mkQuadtree b mo ml lv objs (mkSlots n0 n1 n2 n3) mask life span) in *.
  pose proof Hs as Hs'. apply sound_slotsSound in Hs'.
  destruct Hs' as [Hslots Hnode]. pose proof Hslots as (Hmask & K0 & K1 & K2 & K3).
  cbn [qt m_ActiveNodes Nodes slot0 slot1 slot2 slot3] in Hmask, K0, K1, K2, K3.
  rewrite Insert_unfold. cbn [qt m_ActiveNodes bounds Nodes]. fold qt.
  destruct (mask =? 0) eqn:Emask.
  - exists (Insert_leaf qt obj). split; [reflexivity|].
    apply Insert_leaf_sound; [|assumption]. now apply Z.eqb_eq in Emask.
  - cbv zeta.
    assert (Hobjs : forallb (fun o => quadrantIndex b o =? -1) objs = true).
    { unfold nodeSettled in Hnode. cbn [qt m_ActiveNodes bounds m_Objects] in Hnode.
      now rewrite Emask in Hnode. }
    destruct (quadrantIndex b obj =? -1) eqn:Eidx.
    + exists (PushBack qt obj). split; [reflexivity|].
      apply sound_slotsSound. split; [exact Hslots|].
      unfold nodeSettled. cbn [qt PushBack set_Objects m_ActiveNodes bounds m_Objects].
      rewrite forallb_app, Hobjs. simpl. rewrite Eidx. now rewrite orb_true_r.
    + assert (Hindex : 0 <= quadrantIndex b obj <= 3).
      { pose proof (quadrantIndex_cases b obj). apply Z.eqb_neq in Eidx. lia. }
      set (index := quadrantIndex b obj) in *.
      rewrite (bit_of_land mask index Hmask Hindex).
      destruct (Z.testbit mask index) eqn:Ebit; cbn [negb].
      * destruct (getSlot_cases index (mkSlots n0 n1 n2 n3) Hindex) as (slot & Hslot & Hcase).
        assert (Hchild : exists child, slot = Some child /\ sound child = true /\
                           inSlot (fun qt0 => sound qt0 = true ->
                                     forall obj log, exists qt',
                                       Insert qt0 obj log = Some (qt', log) /\
                                       sound qt' = true) slot).
        { cbn [slot0 slot1 slot2 slot3] in Hcase.
          destruct Hcase as [[E ->]|[[E ->]|[[E ->]|[E ->]]]]; rewrite E in Ebit;
            match goal with
            | K : slotOk sound mask ?i ?n = true, IHn : inSlot _ ?n |- context [?n] =>
                unfold slotOk in K; rewrite Ebit in K;
                destruct n as [child|]; [|discriminate];
                exists child; auto
            end. }
        destruct Hchild as (child & -> & Hsc & IHc). simpl in IHc.
        destruct (IHc Hsc obj log) as (child' & Hins & Hsc').
        unfold bind at 1. rewrite (onSlot_child index _ obj child child' log Hslot Hins).
        eexists. split; [reflexivity|].
        apply sound_slotsSound. split.
        -- destruct (slots_replace sound mask (mkSlots n0 n1 n2 n3) index child'
                       Hindex Hsc' K0 K1 K2 K3) as (? & ? & ? & ?).
           unfold slotsSound. cbn [qt set_Nodes m_ActiveNodes Nodes]. auto.
        -- unfold nodeSettled. cbn [qt set_Nodes m_ActiveNodes bounds m_Objects].
           now rewrite Hobjs, orb_true_r.
      * eexists. split; [reflexivity|].
        assert (Hsub : sound (Insert_leaf
                                (createSubtree qt (subBounds b index) []) obj) = true)
          by (apply Insert_leaf_sound; reflexivity).
        destruct (slots_store sound mask (mkSlots n0 n1 n2 n3) index _
                    Hmask Hindex Hsub K0 K1 K2 K3) as (? & ? & ? & ? & ? & ?).
        apply sound_slotsSound. split.
        -- unfold slotsSound.
           cbn [qt set_ActiveNodes set_Nodes m_ActiveNodes Nodes]. auto.
        -- unfold nodeSettled.
           cbn [qt set_ActiveNodes set_Nodes m_ActiveNodes bounds m_Objects].
           now rewrite Hobjs, orb_true_r.
Qed.

(** Every tree that [CreateQuadtree], [Build] and [Insert] make satisfies
    I3, so that no method panics on it, and I1 read with the tests of the
    code: at a node with an active child, [quadrantIndex] is -1 for every
    direct object. *)
Theorem reachable_sound (qt : Quadtree) :
  reachable qt -> sound qt = true /\ wf qt = true.
Proof.
  intros H. assert (Hs : sound qt = true).
  { induction H as [b mo ml objs|qt _ IH|qt obj log qt' log' _ IH E].
    - apply sound_CreateQuadtree.
    - now apply Build_sound.
    - destruct (Insert_sound qt IH obj log) as (qt'' & E' & Hs).
      rewrite E' in E. now injection E as <- <-. }
  split; [assumption|now apply sound_wf].
Qed.

Lemma reachable_sound_built : sound built_world = true /\ wf built_world = true.
Proof.
  apply (reachable_sound built_world). apply reach_Build. apply reach_CreateQuadtree.
Defined.

(** ** Further properties of the methods *)

(** [Intersect] does not depend on the order of its arguments, on every
    binary64 geometry (infinities and NaN included). *)
Theorem Intersect_symmetric (a b : PhysicalObject) : Intersect a b = Intersect b a.
Proof. apply Intersect_sym. Qed.

(** [Walk] calls the visitor once on every stored object, in depth-first
    order: the objects of a node from front to back, then its active
    children by index; the tree is left as it is. *)
Theorem Walk_depth_first (qt : Quadtree) (log : HookLog) :
  wf qt = true ->
  Walk qt (fun obj seen => seen ++ [obj]) [] log = Some ((qt, allObjects qt), log).
Proof.
  intros Hwf. rewrite (Walk_scan _ qt Hwf).
  assert (E : forall objs seen : list PhysicalObject,
             fold_left (fun acc obj => acc ++ [obj]) objs seen = seen ++ objs).
  { induction objs as [|obj objs IH]; intros seen; simpl.
    - now rewrite app_nil_r.
    - now rewrite IH, <- app_assoc. }
  now rewrite E.
Qed.

Lemma Walk_depth_first_built :
  Walk built_world (fun obj seen => seen ++ [obj]) [] [] =
  Some ((built_world, allObjects built_world), []).
Proof. apply (Walk_depth_first built_world []). vm_compute. reflexivity. Defined.



Lemma Build_unfold_world :
  Build (CreateQuadtree world4 1 10 [box_22; box_33]) =
  if Build_guard (CreateQuadtree world4 1 10 [box_22; box_33])
  then CreateQuadtree world4 1 10 [box_22; box_33]
  else
    let qt := CreateQuadtree world4 1 10 [box_22; box_33] in
    let child := buildChild Build qt in
    child 3 (child 2 (child 1 (child 0 (set_Objects qt (subtreeObjects qt (-1)))))).
Proof.
  apply (Build_unfold (CreateQuadtree world4 1 10 [box_22; box_33]));
    unfold is_int, int_min, int_max; simpl; lia.
Defined.

Lemma quadrantIndex_bottom_box :
  (Y box_33 >=? verticalMidpoint world4)%float = true /\
  (Y box_33 + Height box_33 <=? bHeight world4)%float = true.
Proof. apply (quadrantIndex_bottom world4 box_33). right. vm_compute. reflexivity. Defined.

Lemma quadrantIndex_right_box :
  (X box_33 >=? horizontalMidpoint world4)%float = true /\
  (X box_33 + Width box_33 <=? bWidth world4)%float = true.
Proof. apply (quadrantIndex_right world4 box_33). right. vm_compute. reflexivity. Defined.

(** An insertion that makes a leaf split (a case of the tests of the
    repository): the new box goes down to child 0, which then holds two
    boxes and splits into its quadrants 0 and 2. *)
Example scenario_insert_split :
  exists qt,
    Insert (Build (CreateQuadtree world4 1 10 [box 1 1.5 1.5 1 1; box 2 0 0 1 1]))
           (box 3 0 1 1 1) [] = Some (qt, []) /\
    nodeLists qt = [[box 1 1.5 1.5 1 1]; []; [box 2 0 0 1 1]; [box 3 0 1 1 1]] /\
    m_ActiveNodes qt = 1 /\
    (exists child, slot0 (Nodes qt) = Some child /\ m_ActiveNodes child = 5).
Proof. eexists. vm_compute. repeat split. eexists. split; reflexivity. Qed.

(** ** No object is lost or made up *)

(** The five buckets of the first loop of [Build] share out the objects of
    the node. *)
Lemma subtreeObjects_partition qt :
  Permutation (m_Objects qt)
    (subtreeObjects qt (-1) ++ subtreeObjects qt 0 ++ subtreeObjects qt 1 ++
     subtreeObjects qt 2 ++ subtreeObjects qt 3).
Proof.
  unfold subtreeObjects. induction (m_Objects qt) as [|obj objs IH]; simpl; [constructor|].
  set (k := filter (fun o => quadrantIndex (bounds qt) o =? -1) objs) in *.
  set (l0 := filter (fun o => quadrantIndex (bounds qt) o =? 0) objs) in *.
  set (l1 := filter (fun o => quadrantIndex (bounds qt) o =? 1) objs) in *.
  set (l2 := filter (fun o => quadrantIndex (bounds qt) o =? 2) objs) in *.
  set (l3 := filter (fun o => quadrantIndex (bounds qt) o =? 3) objs) in *.
  destruct (quadrantIndex_cases (bounds qt) obj) as [E|[E|[E|[E|E]]]];
    rewrite E; simpl.
  - now constructor.
  - now apply Permutation_cons_app.
  - rewrite (app_assoc k l0) in *. now apply Permutation_cons_app.
  - rewrite (app_assoc l0 l1), (app_assoc k) in *. now apply Permutation_cons_app.
  - rewrite (app_assoc l1 l2), (app_assoc l0), (app_assoc k) in *.
    now apply Permutation_cons_app.
Qed.

Lemma allObjects_leaf qt : m_ActiveNodes qt = 0 -> allObjects qt = m_Objects qt.
Proof.
  intros H. destruct qt as [b mo ml lv objs [n0 n1 n2 n3] mask life span].
  simpl in H. subst mask. rewrite allObjects_node. unfold viaSlot. simpl.
  now rewrite app_nil_r.
Qed.

Lemma Build_fuel_S fuel qt :
  Build_fuel (S fuel) qt =
  if Build_guard qt then qt
  else buildChild (Build_fuel fuel) qt 3
         (buildChild (Build_fuel fuel) qt 2
            (buildChild (Build_fuel fuel) qt 1
               (buildChild (Build_fuel fuel) qt 0
                  (set_Objects qt (subtreeObjects qt (-1)))))).
Proof. reflexivity. Qed.

Lemma perm_move {A : Type} (a x r : list A) :
  Permutation (a ++ x ++ r) ((a ++ r) ++ x).
Proof.
  rewrite <- app_assoc. apply Permutation_app_head. apply Permutation_app_comm.
Qed.

(** A child stored in a slot whose bit was clear adds its objects to those
    of the tree. *)
Lemma store_child_objects qt1 index sub (added : list PhysicalObject) :
  0 <= index <= 3 ->
  Z.testbit (m_ActiveNodes qt1) index = false ->
  Permutation (allObjects sub) added ->
  Permutation
    (allObjects (set_ActiveNodes
                   (set_Nodes qt1 (setSlot index (Some sub) (Nodes qt1)))
                   (Z.lor (m_ActiveNodes qt1) (Z.shiftl 1 index))))
    (allObjects qt1 ++ added).
Proof.
  intros Hindex Hbit Hsub.
  destruct qt1 as [b mo ml lv objs [n0 n1 n2 n3] mask life span].
  cbn [m_ActiveNodes] in Hbit.
  unfold set_ActiveNodes, set_Nodes.
  cbn [m_Objects m_ActiveNodes Nodes bounds MaxObjects MaxLevels Level m_curLife
       m_maxLifespan].
  assert (Hi : index = 0 \/ index = 1 \/ index = 2 \/ index = 3) by lia.
  destruct Hi as [-> | [-> | [-> | ->]]]; cbn [setSlot slot0 slot1 slot2 slot3];
    rewrite !allObjects_node; unfold viaSlot;
    rewrite !Z.lor_spec, Hbit; simpl Z.testbit;
    rewrite ?orb_false_r, ?orb_true_r; cbn [concat app];
    fold (allObjects sub); rewrite Hsub.
  - apply perm_move.
  - match goal with
    | |- Permutation (?a ++ ?c0 ++ ?x ++ ?r) _ =>
        rewrite (app_assoc a c0 (x ++ r)), (app_assoc a c0 r)
    end. apply perm_move.
  - match goal with
    | |- Permutation (?a ++ ?c0 ++ ?c1 ++ ?x ++ ?r) _ =>
        rewrite (app_assoc c0 c1 (x ++ r)), (app_assoc c0 c1 r),
                (app_assoc a (c0 ++ c1) (x ++ r)), (app_assoc a (c0 ++ c1) r)
    end. apply perm_move.
  - rewrite !app_nil_r, <- !app_assoc. reflexivity.
Qed.

Lemma lor_other_bit mask index j :
  0 <= index <= 3 -> 0 <= j <= 3 -> j <> index ->
  Z.testbit (Z.lor mask (Z.shiftl 1 index)) j = Z.testbit mask j.
Proof.
  intros Hi Hj Hne. rewrite Z.lor_spec.
  assert (Hi' : index = 0 \/ index = 1 \/ index = 2 \/ index = 3) by lia.
  assert (Hj' : j = 0 \/ j = 1 \/ j = 2 \/ j = 3) by lia.
  destruct Hi' as [-> | [-> | [-> | ->]]];
    destruct Hj' as [-> | [-> | [-> | ->]]]; try lia;
    simpl Z.testbit at 2; apply orb_false_r.
Qed.

(** One round of the second loop adds the bucket of its quadrant to the
    objects of the tree, when the quadrant had no active child, and leaves
    the bits of the other quadrants as they are. *)
Lemma buildChild_objects build qt index qt1 :
  0 <= index <= 3 ->
  Z.testbit (m_ActiveNodes qt1) index = false ->
  (forall objects,
     Permutation
       (allObjects (build (createSubtree qt (subBounds (bounds qt) index) objects)))
       objects) ->
  Permutation (allObjects (buildChild build qt index qt1))
              (allObjects qt1 ++ subtreeObjects qt index) /\
  (forall j, 0 <= j <= 3 -> j <> index ->
     Z.testbit (m_ActiveNodes (buildChild build qt index qt1)) j =
     Z.testbit (m_ActiveNodes qt1) j).
Proof.
  intros Hindex Hbit Hbuild. unfold buildChild.
  destruct (subtreeObjects qt index) as [|o objects] eqn:E.
  { split; [now rewrite app_nil_r|reflexivity]. }
  split.
  - apply store_child_objects; auto.
  - intros j Hj Hne. simpl. now apply lor_other_bit.
Qed.

(** [Build] on a node without active child: the objects of the node are
    those of the tree it makes. *)
Lemma Build_fuel_leaf_objects fuel : forall qt,
  m_ActiveNodes qt = 0 ->
  Permutation (allObjects (Build_fuel fuel qt)) (m_Objects qt).
Proof.
  induction fuel as [|fuel IH]; intros qt Hmask;
    [simpl; destruct (Build_guard qt); now rewrite allObjects_leaf|].
  rewrite Build_fuel_S. destruct (Build_guard qt); [now rewrite allObjects_leaf|].
  assert (Hsub : forall index objects,
             Permutation
               (allObjects (Build_fuel fuel
                  (createSubtree qt (subBounds (bounds qt) index) objects)))
               objects).
  { intros. now rewrite IH. }
  set (q0 := set_Objects qt (subtreeObjects qt (-1))).
  assert (H0 : allObjects q0 = subtreeObjects qt (-1)) by now apply allObjects_leaf.
  assert (B0 : forall j, Z.testbit (m_ActiveNodes q0) j = false).
  { intros j. simpl. rewrite Hmask. apply Z.bits_0. }
  destruct (buildChild_objects (Build_fuel fuel) qt 0 q0 ltac:(lia) (B0 0) (Hsub 0))
    as [P1 B1].
  set (q1 := buildChild _ qt 0 q0) in *.
  destruct (buildChild_objects (Build_fuel fuel) qt 1 q1 ltac:(lia)
              ltac:(rewrite B1 by lia; apply B0) (Hsub 1)) as [P2 B2].
  set (q2 := buildChild _ qt 1 q1) in *.
  destruct (buildChild_objects (Build_fuel fuel) qt 2 q2 ltac:(lia)
              ltac:(rewrite B2, B1 by lia; apply B0) (Hsub 2)) as [P3 B3].
  set (q3 := buildChild _ qt 2 q2) in *.
  destruct (buildChild_objects (Build_fuel fuel) qt 3 q3 ltac:(lia)
              ltac:(rewrite B3, B2, B1 by lia; apply B0) (Hsub 3)) as [P4 _].
  rewrite P4, P3, P2, P1, H0, <- !app_assoc.
  symmetry. apply subtreeObjects_partition.
Qed.

(** A node whose objects all straddle a midpoint is left as it is. *)
Lemma Build_fuel_straddlers fuel qt :
  forallb (fun obj => quadrantIndex (bounds qt) obj =? -1) (m_Objects qt) = true ->
  Build_fuel fuel qt = qt.
Proof.
  intros Hall.
  assert (Hkept : forall index,
             subtreeObjects qt index = if index =? -1 then m_Objects qt else []).
  { intros index. unfold subtreeObjects.
    induction (m_Objects qt) as [|obj objs IH]; simpl in *; [now destruct (_ =? _)|].
    apply andb_true_iff in Hall. destruct Hall as [E Hall]. apply Z.eqb_eq in E.
    rewrite E, (IH Hall). destruct (index =? -1) eqn:Ei.
    - apply Z.eqb_eq in Ei. now subst.
    - replace (-1 =? index) with false; [reflexivity|].
      symmetry. apply Z.eqb_neq. apply Z.eqb_neq in Ei. lia. }
  destruct fuel as [|fuel]; [simpl; now destruct (Build_guard qt)|].
  rewrite Build_fuel_S. destruct (Build_guard qt); [reflexivity|].
  rewrite !buildChild_empty by (rewrite Hkept; reflexivity).
  rewrite Hkept. simpl. apply set_Objects_same.
Qed.

Lemma Build_objects qt :
  nodeSettled qt = true ->
  Permutation (allObjects (Build qt)) (allObjects qt).
Proof.
  unfold nodeSettled. intros H. apply orb_true_iff in H. destruct H as [H|H].
  - apply Z.eqb_eq in H. rewrite (allObjects_leaf qt H).
    now apply Build_fuel_leaf_objects.
  - unfold Build. now rewrite Build_fuel_straddlers.
Qed.

(** [Build] keeps the objects of the tree, on a node that has no active
    child or whose direct objects all straddle a midpoint (the code's I1):
    the objects stored after the call are those stored before, each as many
    times. *)
Theorem Build_keeps_objects (qt : Quadtree) :
  nodeSettled qt = true ->
  Permutation (allObjects (Build qt)) (allObjects qt).
Proof. apply Build_objects. Qed.

Lemma Build_keeps_objects_world :
  Permutation (allObjects built_world) [box_22; box_33].
Proof.
  exact (Build_keeps_objects (CreateQuadtree world4 1 10 [box_22; box_33]) eq_refl).
Defined.

(** Without that condition [Build] can lose objects: a node with an active
    child and a direct object that fits the quadrant of that child gets a
    fresh child in its place, and the objects of the old child are gone. *)
Example Build_drops_child :
  let old := CreateQuadtree (subBounds world4 0) 1 10 [box_00] in
  let qt := mkQuadtree world4 1 10 0 [box 4 1 1 1 1; box 5 0.5 0.5 1 1]
              (mkSlots (Some old) None None None) 1 (-1) 64 in
  wf qt = true /\ allObjects qt = [box 4 1 1 1 1; box 5 0.5 0.5 1 1; box_00] /\
  holds box_00 (allObjects (Build qt)) = false.
Proof. vm_compute. repeat split. Qed.

Lemma perm_into {A : Type} (a x x' r : list A) (o : A) :
  Permutation x' (o :: x) ->
  Permutation (a ++ x' ++ r) (o :: a ++ x ++ r).
Proof.
  intros H. rewrite H. simpl. symmetry. apply Permutation_middle.
Qed.

(** [Insert] on a tree that satisfies I3 and the code's I1 stores the
    object and nothing else: the objects of the tree after the call are the
    new object and the objects of the tree before. *)
Lemma Insert_leaf_objects qt obj :
  m_ActiveNodes qt = 0 ->
  Permutation (allObjects (Insert_leaf qt obj)) (obj :: allObjects qt).
Proof.
  intros Hmask. unfold Insert_leaf.
  assert (Hpush : Permutation (allObjects (PushBack qt obj)) (obj :: allObjects qt)).
  { rewrite !allObjects_leaf by assumption. simpl.
    symmetry. apply Permutation_cons_append. }
  destruct (_ || _); [assumption|].
  rewrite Build_objects; [assumption|].
  unfold nodeSettled. simpl. now rewrite Hmask.
Qed.

(** A child put in the place of the child of an active slot. *)
Lemma replace_child_objects qt index child child' obj :
  0 <= index <= 3 ->
  Z.testbit (m_ActiveNodes qt) index = true ->
  getSlot index (Nodes qt) = Some (Some child) ->
  Permutation (allObjects child') (obj :: allObjects child) ->
  Permutation (allObjects (set_Nodes qt (setSlot index (Some child') (Nodes qt))))
              (obj :: allObjects qt).
Proof.
  intros Hindex Hbit Hslot Hperm.
  destruct qt as [b mo ml lv objs [n0 n1 n2 n3] mask life span].
  cbn [m_ActiveNodes Nodes] in *. unfold set_Nodes.
  cbn [m_Objects m_ActiveNodes Nodes bounds MaxObjects MaxLevels Level m_curLife
       m_maxLifespan].
  assert (Hi : index = 0 \/ index = 1 \/ index = 2 \/ index = 3) by lia.
  destruct Hi as [-> | [-> | [-> | ->]]];
    cbn [getSlot setSlot slot0 slot1 slot2 slot3] in *;
    injection Hslot as ->;
    rewrite !allObjects_node; unfold viaSlot; rewrite Hbit;
    fold (allObjects child) (allObjects child').
  - apply perm_into, Hperm.
  - match goal with
    | |- Permutation (?a ++ ?c0 ++ ?x' ++ ?r) (_ :: _ ++ _ ++ ?x ++ _) =>
        rewrite (app_assoc a c0 (x' ++ r)), (app_assoc a c0 (x ++ r))
    end. apply perm_into, Hperm.
  - match goal with
    | |- Permutation (?a ++ ?c0 ++ ?c1 ++ ?x' ++ ?r) (_ :: _ ++ _ ++ _ ++ ?x ++ _) =>
        rewrite (app_assoc c0 c1 (x' ++ r)), (app_assoc c0 c1 (x ++ r)),
                (app_assoc a (c0 ++ c1) (x' ++ r)), (app_assoc a (c0 ++ c1) (x ++ r))
    end. apply perm_into, Hperm.
  - match goal with
    | |- Permutation (?a ++ ?c0 ++ ?c1 ++ ?c2 ++ ?x') (_ :: _ ++ _ ++ _ ++ _ ++ ?x) =>
        rewrite <- (app_nil_r x'), <- (app_nil_r x),
                (app_assoc c1 c2 (x' ++ [])), (app_assoc c1 c2 (x ++ [])),
                (app_assoc c0 (c1 ++ c2) (x' ++ [])), (app_assoc c0 (c1 ++ c2) (x ++ [])),
                (app_assoc a (c0 ++ c1 ++ c2) (x' ++ [])),
                (app_assoc a (c0 ++ c1 ++ c2) (x ++ []))
    end. apply perm_into, Hperm.
Qed.

Lemma Insert_objects qt :
  sound qt = true ->
  forall obj log qt',
    Insert qt obj log = Some (qt', log) ->
    Permutation (allObjects qt') (obj :: allObjects qt).
Proof.
  induction qt using Quadtree_ind. intros Hs obj log qt' Hins.
  set (qt := mkQuadtree b mo ml lv objs (mkSlots n0 n1 n2 n3) mask life span) in *.
  pose proof Hs as Hs'. apply sound_slotsSound in Hs'.
  destruct Hs' as [(Hmask & K0 & K1 & K2 & K3) _].
  cbn [qt m_ActiveNodes Nodes slot0 slot1 slot2 slot3] in Hmask, K0, K1, K2, K3.
  rewrite Insert_unfold in Hins. cbn [qt m_ActiveNodes bounds Nodes] in Hins.
  fold qt in Hins.
  destruct (mask =? 0) eqn:Emask.
  - injection Hins as <-. apply Insert_leaf_objects. now apply Z.eqb_eq in Emask.
  - cbv zeta in Hins.
    destruct (quadrantIndex b obj =? -1) eqn:Eidx.
    + injection Hins as <-. unfold qt, PushBack, set_Objects.
      cbn [m_Objects m_ActiveNodes Nodes bounds MaxObjects MaxLevels Level m_curLife
           m_maxLifespan].
      rewrite !allObjects_node, <- !app_assoc. simpl.
      apply Permutation_sym, Permutation_middle.
    + assert (Hindex : 0 <= quadrantIndex b obj <= 3).
      { pose proof (quadrantIndex_cases b obj). apply Z.eqb_neq in Eidx. lia. }
      set (index := quadrantIndex b obj) in *.
      rewrite (bit_of_land mask index Hmask Hindex) in Hins.
      destruct (Z.testbit mask index) eqn:Ebit; cbn [negb] in Hins.
      * destruct (getSlot_cases index (mkSlots n0 n1 n2 n3) Hindex) as (slot & Hslot & Hcase).
        assert (Hchild : exists child, slot = Some child /\ sound child = true /\
                           inSlot (fun qt0 => sound qt0 = true ->
                                     forall obj log qt',
                                       Insert qt0 obj log = Some (qt', log) ->
                                       Permutation (allObjects qt') (obj :: allObjects qt0))
                                  slot).
        { cbn [slot0 slot1 slot2 slot3] in Hcase.
          destruct Hcase as [[E ->]|[[E ->]|[[E ->]|[E ->]]]]; rewrite E in Ebit;
            match goal with
            | K : slotOk sound mask ?i ?n = true, IHn : inSlot _ ?n |- context [?n] =>
                unfold slotOk in K; rewrite Ebit in K;
                destruct n as [child|]; [|discriminate];
                exists child; auto
            end. }
        destruct Hchild as (child & -> & Hsc & IHc). simpl in IHc.
        destruct (Insert_sound child Hsc obj log) as (child' & Hci & _).
        unfold bind at 1 in Hins.
        rewrite (onSlot_child index _ obj child child' log Hslot Hci) in Hins.
        injection Hins as <-.
        apply (replace_child_objects qt index child child' obj Hindex Ebit Hslot).
        now apply (IHc Hsc obj log).
      * injection Hins as <-.
        etransitivity.
        -- apply (store_child_objects qt index _ [obj] Hindex Ebit).
           now rewrite Insert_leaf_objects.
        -- symmetry. apply Permutation_cons_append.
Qed.

(** [Insert] on a tree that satisfies I3 and the code's I1 returns, runs
    no hook, keeps both invariants and stores the object and nothing else:
    the objects of the tree after the call are the new object and the
    objects of the tree before. *)
Theorem Insert_adds_object (qt : Quadtree) (obj : PhysicalObject) (log : HookLog) :
  sound qt = true ->
  exists qt',
    Insert qt obj log = Some (qt', log) /\ sound qt' = true /\
    Permutation (allObjects qt') (obj :: allObjects qt).
Proof.
  intros Hs. destruct (Insert_sound qt Hs obj log) as (qt' & E & Hs').
  exists qt'. repeat split; auto. now apply (Insert_objects qt Hs obj log).
Qed.

Lemma Insert_adds_object_built :
  exists qt',
    Insert built_world box_00 [] = Some (qt', []) /\ sound qt' = true /\
    Permutation (allObjects qt') (box_00 :: allObjects built_world).
Proof. apply (Insert_adds_object built_world box_00 []). vm_compute. reflexivity. Defined.

(** ** Removal keeps the invariants *)

Lemma removeFirst_forallb (P : PhysicalObject -> bool) target objs objs' :
  removeFirst target objs = Some objs' ->
  forallb P objs = true -> forallb P objs' = true.
Proof.
  intros E. destruct (removeFirst_split _ _ _ E) as (before & one & after & -> & _ & _ & ->).
  rewrite !forallb_app. simpl. rewrite !andb_true_iff. tauto.
Qed.

Lemma Remove_slot_sound target mask index slot st log slot' st' log' :
  inSlot (fun qt => sound qt = true ->
            forall log qt' removed log',
              Remove qt target log = Some ((qt', removed), log') -> sound qt' = true)
         slot ->
  slotOk sound mask index slot = true ->
  visitSlot (fun _ child (_ : unit) =>
               '(child', removed) <- Remove child target ;; ret (child', tt, removed))
            mask index slot st log = Some ((slot', st'), log') ->
  slotOk sound mask index slot' = true.
Proof.
  intros IH Hok. unfold visitSlot, slotOk in *.
  destruct (snd st); [now intros [= <- _ _]|].
  destruct (Z.testbit mask index); [|now intros [= <- _ _]].
  destruct slot as [child|]; [|discriminate]. simpl in IH.
  unfold bind, ret.
  destruct (Remove child target log) as [[[child' removed] log1]|] eqn:E; [|discriminate].
  intros [= <- _ _]. exact (IH Hok log child' removed log1 E).
Qed.

Lemma Remove_sound target qt :
  sound qt = true ->
  forall log qt' removed log',
    Remove qt target log = Some ((qt', removed), log') -> sound qt' = true.
Proof.
  induction qt using Quadtree_ind. intros Hs log qt' removed log'.
  apply sound_iff in Hs.
  cbn [m_ActiveNodes Nodes slot0 slot1 slot2 slot3] in Hs.
  destruct Hs as (Hmask & Hnode & K0 & K1 & K2 & K3).
  rewrite Remove_unfold. cbn [m_Objects m_ActiveNodes Nodes].
  destruct (removeFirst target objs) as [objs'|] eqn:Eobjs.
  - intros [= <- _ _]. apply sound_iff. unfold set_Objects.
    cbn [m_Objects m_ActiveNodes Nodes bounds slot0 slot1 slot2 slot3].
    repeat split; auto; try lia.
    unfold nodeSettled in *. cbn [m_Objects m_ActiveNodes bounds] in *.
    apply orb_true_iff in Hnode. apply orb_true_iff.
    destruct Hnode as [Hnode|Hnode]; [now left|right].
    exact (removeFirst_forallb _ _ _ _ Eobjs Hnode).
  - unfold bind at 1. rewrite forActive_unfold. cbn [slot0 slot1 slot2 slot3].
    destruct (visitSlot _ mask 0 n0 (tt, false) log) as [[[n0' st0] log0]|] eqn:E0;
      [|discriminate].
    destruct (visitSlot _ mask 1 n1 st0 log0) as [[[n1' st1] log1]|] eqn:E1;
      [|discriminate].
    destruct (visitSlot _ mask 2 n2 st1 log1) as [[[n2' st2] log2]|] eqn:E2;
      [|discriminate].
    destruct (visitSlot _ mask 3 n3 st2 log2) as [[[n3' st3] log3]|] eqn:E3;
      [|discriminate].
    pose proof (Remove_slot_sound _ _ _ _ _ _ _ _ _ H K0 E0) as K0'.
    pose proof (Remove_slot_sound _ _ _ _ _ _ _ _ _ H0 K1 E1) as K1'.
    pose proof (Remove_slot_sound _ _ _ _ _ _ _ _ _ H1 K2 E2) as K2'.
    pose proof (Remove_slot_sound _ _ _ _ _ _ _ _ _ H2 K3 E3) as K3'.
    assert (Hres : sound (set_Nodes
                            (mkQuadtree b mo ml lv objs (mkSlots n0 n1 n2 n3) mask life span)
                            (mkSlots n0' n1' n2' n3')) = true).
    { apply sound_iff. unfold set_Nodes.
      cbn [m_Objects m_ActiveNodes Nodes bounds slot0 slot1 slot2 slot3].
      repeat split; auto; lia. }
    destruct (snd st3); [now intros [= <- _ _]|].
    destruct (16 <=? mask); [discriminate|]. now intros [= <- _ _].
Qed.

(** [Remove] keeps I3 and the code's I1: on a tree that satisfies both it
    returns, runs no hook, and the tree it leaves satisfies both. *)
Theorem Remove_keeps_sound (qt : Quadtree) (target : PhysicalObject) (log : HookLog) :
  sound qt = true ->
  exists qt' removed,
    Remove qt target log = Some ((qt', removed), log) /\ sound qt' = true.
Proof.
  intros Hs.
  destruct (Remove_correct target qt (sound_wf qt Hs) log) as (qt' & E & _).
  exists qt', (holds target (allObjects qt)). split; [exact E|].
  exact (Remove_sound target qt Hs log _ _ _ E).
Qed.

Lemma Remove_keeps_sound_built :
  exists qt' removed,
    Remove built_world box_33 [] = Some ((qt', removed), []) /\ sound qt' = true.
Proof. apply (Remove_keeps_sound built_world box_33 []). vm_compute. reflexivity. Defined.

(** ** Round trips *)

Lemma Permutation_holds target l1 l2 :
  Permutation l1 l2 -> holds target l1 = holds target l2.
Proof.
  intros H. apply eq_true_iff_eq. rewrite !holds_In.
  split; intros (one & Hin & E); exists one; split; auto.
  - now apply (Permutation_in _ H).
  - now apply (Permutation_in _ (Permutation_sym H)).
Qed.

(** An object that [Insert] has stored is found by [FindObject]: the
    answer is a node of the tree, reached from the root through child
    slots, whose own list holds the object. *)
Theorem Insert_then_FindObject (qt : Quadtree) (obj : PhysicalObject) (log : HookLog) :
  sound qt = true ->
  exists qt' path node,
    Insert qt obj log = Some (qt', log) /\
    FindObject qt' obj log = Some ((qt', Some path), log) /\
    nodeAt path qt' = Some node /\ holds obj (m_Objects node) = true.
Proof.
  intros Hs. destruct (Insert_sound qt Hs obj log) as (qt' & E & Hs').
  pose proof (Insert_objects qt Hs obj log qt' E) as Hperm.
  destruct (FindObject_correct obj qt' (sound_wf qt' Hs') log) as (sub & Ef & Hnone & Hpath).
  assert (Hheld : holds obj (allObjects qt') = true).
  { rewrite (Permutation_holds _ _ _ Hperm). simpl. now rewrite same_object_refl. }
  destruct sub as [path|].
  - destruct (Hpath path eq_refl) as (node & Hnode & _ & Hobj).
    now exists qt', path, node.
  - destruct Hnone as [Hnone _]. rewrite (Hnone eq_refl) in Hheld. discriminate.
Qed.

Lemma Insert_then_FindObject_built :
  exists qt' path node,
    Insert built_world box_00 [] = Some (qt', []) /\
    FindObject qt' box_00 [] = Some ((qt', Some path), []) /\
    nodeAt path qt' = Some node /\ holds box_00 (m_Objects node) = true.
Proof. apply (Insert_then_FindObject built_world box_00 []). vm_compute. reflexivity. Defined.

Lemma holds_false_In target objs one :
  holds target objs = false -> In one objs -> same_object one target = false.
Proof.
  unfold holds. intros H Hin.
  destruct (same_object one target) eqn:E; [|reflexivity].
  assert (existsb (fun one => same_object one target) objs = true)
    by (apply existsb_exists; now exists one).
  congruence.
Qed.

(** [Insert] followed by [Remove] of the same object, on a tree that did
    not hold it: [Remove] answers [true] and the tree holds the objects it
    held before the two calls, each as many times, and satisfies I3 and the
    code's I1.  (The children that [Insert] made stay.) *)
Theorem Insert_then_Remove (qt : Quadtree) (obj : PhysicalObject) (log : HookLog) :
  sound qt = true -> holds obj (allObjects qt) = false ->
  exists qt' qt'',
    Insert qt obj log = Some (qt', log) /\
    Remove qt' obj log = Some ((qt'', true), log) /\
    sound qt'' = true /\
    Permutation (allObjects qt'') (allObjects qt).
Proof.
  intros Hs Hnot. destruct (Insert_sound qt Hs obj log) as (qt' & E & Hs').
  pose proof (Insert_objects qt Hs obj log qt' E) as Hperm.
  assert (Hheld : holds obj (allObjects qt') = true).
  { rewrite (Permutation_holds _ _ _ Hperm). simpl. now rewrite same_object_refl. }
  destruct (Remove_correct obj qt' (sound_wf qt' Hs') log) as (qt'' & Er & _ & _ & Hl & _).
  rewrite Hheld in Er. exists qt', qt''. repeat split; auto.
  - exact (Remove_sound obj qt' Hs' log _ _ _ Er).
  - destruct (removeFirstIn_split obj (nodeLists qt') Hheld)
      as (before & one & after & Hall & Hone & Hbefore & Hafter).
    fold (allObjects qt') in Hall. unfold allObjects at 1. rewrite Hl, Hafter.
    rewrite Hall in Hperm.
    assert (Hin : In one (obj :: allObjects qt)).
    { apply (Permutation_in _ Hperm), in_elt. }
    destruct Hin as [<-|Hin].
    + apply Permutation_cons_inv with (a := obj).
      now rewrite <- Hperm, Permutation_middle.
    + rewrite (holds_false_In _ _ _ Hnot Hin) in Hone. discriminate.
Qed.

Lemma Insert_then_Remove_built :
  exists qt' qt'',
    Insert built_world box_00 [] = Some (qt', []) /\
    Remove qt' box_00 [] = Some ((qt'', true), []) /\
    sound qt'' = true /\
    Permutation (allObjects qt'') (allObjects built_world).
Proof.
  apply (Insert_then_Remove built_world box_00 []); vm_compute; reflexivity.
Defined.



(** ** Rebuilding *)

(** [UpdateTree] makes of any node, whatever its children and objects
    were, a tree that holds the objects of the list it is given, each as
    many times, and satisfies I3 and the code's I1; the bounds, thresholds,
    level and counters of the node stay.  It runs no hook.  On a [nil]
    list it panics. *)
Theorem UpdateTree_rebuilds (qt : Quadtree) (objs : list PhysicalObject) (log : HookLog) :
  UpdateTree qt None log = None /\
  exists qt',
    UpdateTree qt (Some objs) log = Some (qt', log) /\
    sound qt' = true /\
    Permutation (allObjects qt') objs /\
    bounds qt' = bounds qt /\ MaxObjects qt' = MaxObjects qt /\
    MaxLevels qt' = MaxLevels qt /\ Level qt' = Level qt /\
    m_curLife qt' = m_curLife qt /\ m_maxLifespan qt' = m_maxLifespan qt.
Proof.
  split; [reflexivity|]. eexists. split; [reflexivity|].
  set (qt0 := set_Objects _ objs).
  split; [now apply Build_sound|]. split.
  - now apply Build_fuel_leaf_objects.
  - unfold Build.
    destruct (Build_fuel_fields (Z.to_nat (MaxLevels qt0 - Level qt0)) qt0)
      as (-> & -> & -> & -> & -> & -> & _).
    now repeat split.
Qed.

(** ** The countdown of an empty leaf *)

Lemma Update_lifespan_counting qt life :
  m_Objects qt = [] -> m_ActiveNodes qt = 0 ->
  0 <= life <= int_max -> m_curLife qt = life ->
  Update_lifespan qt = set_curLife qt (Z.max 0 (life - 1)).
Proof.
  intros Hobjs Hmask Hlife Hcur. unfold Update_lifespan.
  rewrite Hobjs, Hmask, Hcur. simpl.
  destruct (life =? -1) eqn:E1; [apply Z.eqb_eq in E1; lia|].
  destruct (life >? 0) eqn:E2.
  - rewrite int_wrap_id by (unfold is_int, int_min, int_max in *; lia).
    f_equal. lia.
  - assert (life = 0) by lia. subst life. destruct qt; simpl in *. now subst.
Qed.

Lemma iter_Update_lifespan n : forall qt life,
  m_Objects qt = [] -> m_ActiveNodes qt = 0 ->
  0 <= life <= int_max -> m_curLife qt = life ->
  Nat.iter n Update_lifespan qt = set_curLife qt (Z.max 0 (life - Z.of_nat n)).
Proof.
  induction n as [|n IH]; intros qt life Hobjs Hmask Hlife Hcur.
  - change (Z.of_nat 0) with 0. rewrite Z.sub_0_r, Z.max_r by lia.
    destruct qt; simpl in *. now subst.
  - rewrite Nat.iter_succ_r, (Update_lifespan_counting qt life) by assumption.
    rewrite (IH _ (Z.max 0 (life - 1)));
      [|exact Hobjs|exact Hmask|unfold int_max in *; lia|reflexivity].
    destruct qt; unfold set_curLife; simpl. f_equal. lia.
Qed.

(** A node that has no object and no active child, and is not counting
    ([m_curLife = -1]), counts down over the lifespan accounting of
    successive [Update] calls for as long as it stays so: after [n >= 1]
    calls [m_curLife] is [m_maxLifespan - n], and 0 from the
    [m_maxLifespan]-th call on, the value at which the parent drops the
    node.  Nothing else of the node changes. *)
Theorem Update_lifespan_countdown (qt : Quadtree) (n : nat) :
  m_Objects qt = [] -> m_ActiveNodes qt = 0 -> m_curLife qt = -1 ->
  1 <= m_maxLifespan qt <= int_max -> (1 <= n)%nat ->
  Nat.iter n Update_lifespan qt =
  set_curLife qt (Z.max 0 (m_maxLifespan qt - Z.of_nat n)).
Proof.
  intros Hobjs Hmask Hcur Hspan Hn.
  destruct n as [|n]; [lia|]. rewrite Nat.iter_succ_r.
  assert (E : Update_lifespan qt = set_curLife qt (m_maxLifespan qt - 1)).
  { unfold Update_lifespan. rewrite Hobjs, Hmask, Hcur. simpl.
    rewrite int_wrap_id by (unfold is_int, int_min, int_max in *; lia). reflexivity. }
  rewrite E, (iter_Update_lifespan n _ (m_maxLifespan qt - 1));
    [|exact Hobjs|exact Hmask|lia|reflexivity].
  destruct qt; unfold set_curLife; simpl. f_equal. lia.
Qed.

Lemma Update_lifespan_countdown_fresh :
  Nat.iter 64 Update_lifespan (CreateQuadtree world4 1 10 []) =
  set_curLife (CreateQuadtree world4 1 10 []) 0.
Proof.
  apply (Update_lifespan_countdown (CreateQuadtree world4 1 10 []) 64);
    try reflexivity; unfold int_max; simpl; lia.
Defined.

(** ** The shape of the subdivision *)

Lemma shaped_unfold qt :
  shaped qt <->
  (m_ActiveNodes qt <> 0 -> Level qt < MaxLevels qt) /\
  viaSlot (fun child => childOf qt 0 child /\ shaped child) True
          (m_ActiveNodes qt) 0 (slot0 (Nodes qt)) /\
  viaSlot (fun child => childOf qt 1 child /\ shaped child) True
          (m_ActiveNodes qt) 1 (slot1 (Nodes qt)) /\
  viaSlot (fun child => childOf qt 2 child /\ shaped child) True
          (m_ActiveNodes qt) 2 (slot2 (Nodes qt)) /\
  viaSlot (fun child => childOf qt 3 child /\ shaped child) True
          (m_ActiveNodes qt) 3 (slot3 (Nodes qt)).
Proof. destruct qt. reflexivity. Qed.

Lemma shaped_leaf qt : m_ActiveNodes qt = 0 -> shaped qt.
Proof.
  intros H. apply shaped_unfold. rewrite H. unfold viaSlot. simpl. tauto.
Qed.

(** The child of an active slot of a shaped node. *)
Lemma shaped_child qt index child :
  shaped qt -> Z.testbit (m_ActiveNodes qt) index = true ->
  getSlot index (Nodes qt) = Some (Some child) ->
  Level qt < MaxLevels qt /\ childOf qt index child /\ shaped child.
Proof.
  intros Hs Hbit Hslot. apply shaped_unfold in Hs.
  destruct Hs as (Hlevel & S0 & S1 & S2 & S3).
  split.
  { apply Hlevel. intros E. rewrite E, Z.testbit_0_l in Hbit. discriminate. }
  unfold getSlot in Hslot. unfold viaSlot in *.
  destruct index as [|[[|[]|]|[|[]|]|]|]; try discriminate;
    injection Hslot as Hslot; rewrite Hbit, Hslot in *; assumption.
Qed.

(** The same node with other objects. *)
Lemma shaped_set_Objects qt objs : shaped qt -> shaped (set_Objects qt objs).
Proof. intros H. apply shaped_unfold in H. apply shaped_unfold. exact H. Qed.

(** A child stored in a slot, with the bit of the slot set. *)
Lemma shaped_store qt index sub :
  0 <= index <= 3 -> shaped qt -> Level qt < MaxLevels qt ->
  childOf qt index sub -> shaped sub ->
  shaped (set_ActiveNodes (set_Nodes qt (setSlot index (Some sub) (Nodes qt)))
                          (Z.lor (m_ActiveNodes qt) (Z.shiftl 1 index))).
Proof.
  intros Hindex Hs Hlevel Hchild Hsub. apply shaped_unfold in Hs.
  destruct Hs as (_ & S0 & S1 & S2 & S3). apply shaped_unfold.
  destruct qt as [b mo ml lv objs [n0 n1 n2 n3] mask life span].
  unfold set_ActiveNodes, set_Nodes, childOf in *.
  cbn [m_Objects m_ActiveNodes Nodes bounds MaxObjects MaxLevels Level m_curLife
       m_maxLifespan slot0 slot1 slot2 slot3] in *.
  split; [intros _; exact Hlevel|].
  assert (Hi : index = 0 \/ index = 1 \/ index = 2 \/ index = 3) by lia.
  unfold viaSlot in *.
  destruct Hi as [-> | [-> | [-> | ->]]]; cbn [setSlot slot0 slot1 slot2 slot3];
    rewrite !Z.lor_spec; simpl Z.testbit; rewrite ?orb_false_r, ?orb_true_r;
    repeat split; tauto.
Qed.

(** Another child in a slot. *)
Lemma shaped_replace qt index child :
  0 <= index <= 3 -> shaped qt -> childOf qt index child -> shaped child ->
  shaped (set_Nodes qt (setSlot index (Some child) (Nodes qt))).
Proof.
  intros Hindex Hs Hchild Hsub. apply shaped_unfold in Hs.
  destruct Hs as (Hlevel & S0 & S1 & S2 & S3). apply shaped_unfold.
  destruct qt as [b mo ml lv objs [n0 n1 n2 n3] mask life span].
  unfold set_Nodes, childOf in *.
  cbn [m_Objects m_ActiveNodes Nodes bounds MaxObjects MaxLevels Level m_curLife
       m_maxLifespan slot0 slot1 slot2 slot3] in *.
  split; [exact Hlevel|].
  assert (Hi : index = 0 \/ index = 1 \/ index = 2 \/ index = 3) by lia.
  unfold viaSlot in *.
  destruct Hi as [-> | [-> | [-> | ->]]]; cbn [setSlot slot0 slot1 slot2 slot3];
    repeat split; try assumption;
    match goal with |- if ?c then _ else _ => destruct c end; tauto.
Qed.

Lemma childOf_built fuel qt index objects :
  childOf qt index
    (Build_fuel fuel (createSubtree qt (subBounds (bounds qt) index) objects)).
Proof.
  unfold childOf.
  destruct (Build_fuel_fields fuel (createSubtree qt (subBounds (bounds qt) index) objects))
    as (-> & -> & -> & -> & _).
  now repeat split.
Qed.

Lemma buildChild_shaped fuel qt index qt1 :
  0 <= index <= 3 -> Level qt < MaxLevels qt ->
  bounds qt1 = bounds qt -> MaxObjects qt1 = MaxObjects qt ->
  MaxLevels qt1 = MaxLevels qt -> Level qt1 = Level qt ->
  (forall objects,
     shaped (Build_fuel fuel (createSubtree qt (subBounds (bounds qt) index) objects))) ->
  shaped qt1 -> shaped (buildChild (Build_fuel fuel) qt index qt1).
Proof.
  intros Hindex Hlevel Eb Emo Eml Elv Hbuild Hs. unfold buildChild.
  destruct (subtreeObjects qt index) as [|o objects]; [assumption|].
  apply shaped_store; auto.
  - now rewrite Elv, Eml.
  - pose proof (childOf_built fuel qt index (o :: objects)) as H.
    unfold childOf in *. now rewrite Eb, Emo, Eml, Elv.
Qed.

Lemma Build_guard_level qt : Build_guard qt = false -> Level qt < MaxLevels qt.
Proof.
  unfold Build_guard. intros H. apply orb_false_iff in H. destruct H as [_ H].
  unfold Z.geb in H. destruct (Level qt ?= MaxLevels qt) eqn:E; try discriminate.
  now apply Z.compare_lt_iff.
Qed.

(** [Build] keeps the shape. *)
Lemma Build_fuel_shaped fuel : forall qt, shaped qt -> shaped (Build_fuel fuel qt).
Proof.
  induction fuel as [|fuel IH]; intros qt Hs; [simpl; now destruct (Build_guard qt)|].
  rewrite Build_fuel_S. destruct (Build_guard qt) eqn:G; [assumption|].
  pose proof (Build_guard_level qt G) as Hlevel.
  assert (Hfresh : forall index objects,
             shaped (Build_fuel fuel
                       (createSubtree qt (subBounds (bounds qt) index) objects))).
  { intros. apply IH. now apply shaped_leaf. }
  set (q0 := set_Objects qt (subtreeObjects qt (-1))).
  assert (S0 : shaped q0) by now apply shaped_set_Objects.
  assert (F0 : bounds q0 = bounds qt /\ MaxObjects q0 = MaxObjects qt /\
               MaxLevels q0 = MaxLevels qt /\ Level q0 = Level qt) by now repeat split.
  assert (step : forall index q,
             0 <= index <= 3 ->
             bounds q = bounds qt /\ MaxObjects q = MaxObjects qt /\
             MaxLevels q = MaxLevels qt /\ Level q = Level qt ->
             shaped q ->
             (bounds (buildChild (Build_fuel fuel) qt index q) = bounds qt /\
              MaxObjects (buildChild (Build_fuel fuel) qt index q) = MaxObjects qt /\
              MaxLevels (buildChild (Build_fuel fuel) qt index q) = MaxLevels qt /\
              Level (buildChild (Build_fuel fuel) qt index q) = Level qt) /\
             shaped (buildChild (Build_fuel fuel) qt index q)).
  { intros index q Hi (Eb & Emo & Eml & Elv) Hq.
    destruct (buildChild_fields (Build_fuel fuel) qt index q) as (-> & -> & -> & -> & _).
    split; [now repeat split|]. now apply buildChild_shaped. }
  destruct (step 0 q0 ltac:(lia) F0 S0) as (F1 & S1).
  destruct (step 1 _ ltac:(lia) F1 S1) as (F2 & S2).
  destruct (step 2 _ ltac:(lia) F2 S2) as (F3 & S3).
  exact (proj2 (step 3 _ ltac:(lia) F3 S3)).
Qed.

Lemma Insert_leaf_shaped qt obj : shaped qt -> shaped (Insert_leaf qt obj).
Proof.
  intros Hs. unfold Insert_leaf.
  assert (shaped (PushBack qt obj)) by now apply shaped_set_Objects.
  destruct (_ || _); [assumption|]. now apply Build_fuel_shaped.
Qed.

Lemma Insert_leaf_fields qt obj :
  bounds (Insert_leaf qt obj) = bounds qt /\
  MaxObjects (Insert_leaf qt obj) = MaxObjects qt /\
  MaxLevels (Insert_leaf qt obj) = MaxLevels qt /\
  Level (Insert_leaf qt obj) = Level qt.
Proof.
  unfold Insert_leaf. destruct (_ || _); [now repeat split|].
  unfold Build.
  destruct (Build_fuel_fields (Z.to_nat (MaxLevels (PushBack qt obj) - Level (PushBack qt obj)))
              (PushBack qt obj)) as (-> & -> & -> & -> & _).
  now repeat split.
Qed.

Lemma onSlot_inv index ns physical ns' log log' :
  onSlot index ns
    (fun slot => match slot with
                 | None => panic
                 | Some child => child' <- Insert child physical ;; ret (Some child')
                 end) log = Some (ns', log') ->
  exists child child',
    getSlot index ns = Some (Some child) /\
    Insert child physical log = Some (child', log') /\
    ns' = setSlot index (Some child') ns.
Proof.
  destruct ns as [n0 n1 n2 n3].
  unfold onSlot, getSlot, setSlot, bind, ret, panic. cbn [slot0 slot1 slot2 slot3].
  destruct index as [|[[|[]|]|[|[]|]|]|]; try discriminate;
    match goal with
    | |- _ -> exists c c', Some ?slot = _ /\ _ =>
        destruct slot as [child|]; [|discriminate]
    end;
    destruct (Insert child physical log) as [[child' log1]|] eqn:E; try discriminate;
    intros [= <- <-]; now exists child, child'.
Qed.

(** [Insert] keeps the bounds, thresholds and level of the node. *)
Lemma Insert_fields qt obj log qt' log' :
  Insert qt obj log = Some (qt', log') ->
  bounds qt' = bounds qt /\ MaxObjects qt' = MaxObjects qt /\
  MaxLevels qt' = MaxLevels qt /\ Level qt' = Level qt.
Proof.
  rewrite Insert_unfold.
  destruct (m_ActiveNodes qt =? 0).
  { intros [= <- _]. apply Insert_leaf_fields. }
  cbv zeta. destruct (_ =? -1).
  { intros [= <- _]. now repeat split. }
  destruct (_ =? 0).
  { intros [= <- _]. now repeat split. }
  unfold bind at 1.
  destruct (onSlot _ _ _ log) as [[ns log1]|]; [|discriminate].
  intros [= <- _]. now repeat split.
Qed.

(** [Insert] keeps the shape. *)
Lemma Insert_shaped qt :
  sound qt = true -> shaped qt ->
  forall obj log qt' log', Insert qt obj log = Some (qt', log') -> shaped qt'.
Proof.
  induction qt using Quadtree_ind. intros Hs Hshape obj log qt' log' Hins.
  set (qt := mkQuadtree b mo ml lv objs (mkSlots n0 n1 n2 n3) mask life span) in *.
  pose proof Hs as Hs'. apply sound_slotsSound in Hs'.
  destruct Hs' as [(Hmask & K0 & K1 & K2 & K3) _].
  cbn [qt m_ActiveNodes Nodes slot0 slot1 slot2 slot3] in Hmask, K0, K1, K2, K3.
  rewrite Insert_unfold in Hins. cbn [qt m_ActiveNodes bounds Nodes] in Hins.
  fold qt in Hins.
  destruct (mask =? 0) eqn:Emask.
  { injection Hins as <- _. now apply Insert_leaf_shaped. }
  cbv zeta in Hins.
  destruct (quadrantIndex b obj =? -1) eqn:Eidx.
  { injection Hins as <- _. now apply shaped_set_Objects. }
  assert (Hindex : 0 <= quadrantIndex b obj <= 3).
  { pose proof (quadrantIndex_cases b obj). apply Z.eqb_neq in Eidx. lia. }
  set (index := quadrantIndex b obj) in *.
  assert (Hlevel : Level qt < MaxLevels qt).
  { apply shaped_unfold in Hshape. destruct Hshape as [Hl _]. apply Hl.
    simpl. now apply Z.eqb_neq in Emask. }
  rewrite (bit_of_land mask index Hmask Hindex) in Hins.
  destruct (Z.testbit mask index) eqn:Ebit; cbn [negb] in Hins.
  - unfold bind at 1 in Hins.
    destruct (onSlot index _ _ log) as [[ns log1]|] eqn:Eslot; [|discriminate].
    injection Hins as <- <-.
    destruct (onSlot_inv _ _ _ _ _ _ Eslot) as (child & child' & Hslot & Hci & ->).
    destruct (shaped_child qt index child Hshape Ebit Hslot) as (_ & Hof & Hsc).
    assert (Hchild : sound child = true /\
                     (sound child = true -> shaped child ->
                      forall obj log qt' log',
                        Insert child obj log = Some (qt', log') -> shaped qt')).
    { assert (Hi : index = 0 \/ index = 1 \/ index = 2 \/ index = 3) by lia.
      unfold slotOk in *.
      destruct Hi as [E | [E | [E | E]]]; rewrite E in *;
        cbn [getSlot slot0 slot1 slot2 slot3] in Hslot; injection Hslot as ->;
        rewrite Ebit in *; simpl in *; auto. }
    destruct Hchild as (Hsound & IHc).
    apply (shaped_replace qt index child' Hindex Hshape).
    + destruct (Insert_fields _ _ _ _ _ Hci) as (Eb & Emo & Eml & Elv).
      unfold childOf in *. now rewrite Eb, Emo, Eml, Elv.
    + exact (IHc Hsound Hsc obj log child' log1 Hci).
  - injection Hins as <- _.
    apply (shaped_store qt index _ Hindex Hshape Hlevel).
    + destruct (Insert_leaf_fields (createSubtree qt (subBounds b index) []) obj)
        as (Eb & Emo & Eml & Elv).
      unfold childOf. rewrite Eb, Emo, Eml, Elv. now repeat split.
    + apply Insert_leaf_shaped. now apply shaped_leaf.
Qed.

Lemma shaped_path path : forall qt node,
  shaped qt -> 0 <= Level qt -> MaxLevels qt <= int_max ->
  activeAt path qt = Some node ->
  bounds node = fold_left subBounds path (bounds qt) /\
  MaxObjects node = MaxObjects qt /\ MaxLevels node = MaxLevels qt /\
  Level node = Level qt + Z.of_nat (length path) /\
  (path <> [] -> Level node <= MaxLevels qt).
Proof.
  induction path as [|index rest IH]; intros qt node Hshape Hlv Hml.
  - simpl. intros [= <-]. repeat split; try lia. congruence.
  - cbn [activeAt].
    destruct (Z.testbit (m_ActiveNodes qt) index) eqn:Ebit; [|discriminate].
    destruct (getSlot index (Nodes qt)) as [[child|]|] eqn:Eslot; try discriminate.
    intros Hnode.
    destruct (shaped_child qt index child Hshape Ebit Eslot)
      as (Hlevel & (Eb & Emo & Eml & Elv) & Hsc).
    rewrite int_wrap_id in Elv by (unfold is_int, int_min, int_max in *; lia).
    destruct (IH child node Hsc) as (Hb & Hmo & Hmls & Hl & Hle); try assumption; try lia.
    rewrite Hb, Hmo, Hmls, Hl, Eb, Emo, Eml, Elv.
    cbn [fold_left length]. repeat split; try lia.
    intros _. destruct rest as [|i rest']; [simpl; lia|].
    assert (Level node <= MaxLevels child) by (apply Hle; discriminate). lia.
Qed.

(** ** What the neighbourhood query answers *)

Lemma activeAt_nodeAt path : forall qt node,
  activeAt path qt = Some node -> nodeAt path qt = Some node.
Proof.
  induction path as [|index rest IH]; intros qt node; simpl; [auto|].
  destruct (Z.testbit (m_ActiveNodes qt) index); [|discriminate].
  destruct (getSlot index (Nodes qt)) as [[child|]|]; try discriminate. apply IH.
Qed.

Lemma activeAt_app prefix : forall suffix qt node,
  activeAt (prefix ++ suffix) qt = Some node ->
  exists anc, activeAt prefix qt = Some anc /\ activeAt suffix anc = Some node.
Proof.
  induction prefix as [|index rest IH]; intros suffix qt node; simpl.
  - intros H. now exists qt.
  - destruct (Z.testbit (m_ActiveNodes qt) index); [|discriminate].
    destruct (getSlot index (Nodes qt)) as [[child|]|]; try discriminate. apply IH.
Qed.

(** The objects of the child of an active slot are objects of the tree. *)
Lemma child_incl qt index child :
  Z.testbit (m_ActiveNodes qt) index = true ->
  getSlot index (Nodes qt) = Some (Some child) ->
  incl (allObjects child) (allObjects qt).
Proof.
  destruct qt as [b mo ml lv objs [n0 n1 n2 n3] mask life span].
  cbn [m_ActiveNodes Nodes]. intros Hbit Hslot obj Hin.
  rewrite allObjects_node. unfold getSlot in Hslot. unfold viaSlot.
  destruct index as [|[[|[]|]|[|[]|]|]|]; try discriminate;
    cbn [slot0 slot1 slot2 slot3] in Hslot; injection Hslot as ->;
    rewrite Hbit; fold (allObjects child); rewrite !in_app_iff; tauto.
Qed.

Lemma own_incl qt : incl (m_Objects qt) (allObjects qt).
Proof.
  destruct qt as [b mo ml lv objs [n0 n1 n2 n3] mask life span].
  intros obj Hin. rewrite allObjects_node. apply in_app_iff. now left.
Qed.

Lemma activeAt_incl path : forall qt node,
  activeAt path qt = Some node -> incl (allObjects node) (allObjects qt).
Proof.
  induction path as [|index rest IH]; intros qt node; simpl.
  - intros [= <-]. apply incl_refl.
  - destruct (Z.testbit (m_ActiveNodes qt) index) eqn:Ebit; [|discriminate].
    destruct (getSlot index (Nodes qt)) as [[child|]|] eqn:Eslot; try discriminate.
    intros Hnode. eapply incl_tran; [exact (IH child node Hnode)|].
    now apply (child_incl qt index child).
Qed.

(** The path that [FindObject] answers goes through active slots. *)
Lemma FindObject_slot_active target mask ns index slot st log slot' st' log' :
  inSlot (fun qt => forall log qt' path log',
            FindObject qt target log = Some ((qt', Some path), log') ->
            activeAt path qt = nodeAt path qt) slot ->
  getSlot index ns = Some slot ->
  visitSlot (fun index child (_ : option (list Z)) =>
               '(child', sub) <- FindObject child target ;;
               match sub with
               | Some path => ret (child', Some (index :: path), true)
               | None => ret (child', None, false)
               end)
            mask index slot st log = Some ((slot', st'), log') ->
  (forall path, fst st = Some path ->
     exists i rest child,
       path = i :: rest /\ Z.testbit mask i = true /\
       getSlot i ns = Some (Some child) /\ activeAt rest child = nodeAt rest child) ->
  forall path, fst st' = Some path ->
    exists i rest child,
      path = i :: rest /\ Z.testbit mask i = true /\
      getSlot i ns = Some (Some child) /\ activeAt rest child = nodeAt rest child.
Proof.
  intros IH Hslot. unfold visitSlot.
  destruct (snd st); [now intros [= _ <- _]|].
  destruct (Z.testbit mask index) eqn:Ebit; [|now intros [= _ <- _]].
  destruct slot as [child|]; [|discriminate]. simpl in IH.
  unfold bind, ret.
  destruct (FindObject child target log) as [[[child' sub] log1]|] eqn:E; [|discriminate].
  destruct sub as [found|]; intros [= _ <- _] _ path; simpl; [|discriminate].
  intros [= <-]. exists index, found, child. repeat split; auto.
  exact (IH _ _ _ _ E).
Qed.

Lemma FindObject_path_active target qt :
  forall log qt' path log',
    FindObject qt target log = Some ((qt', Some path), log') ->
    activeAt path qt = nodeAt path qt.
Proof.
  induction qt using Quadtree_ind. intros log qt' path log'.
  rewrite FindObject_unfold. cbn [m_Objects m_ActiveNodes Nodes].
  destruct (existsb _ objs); [now intros [= _ <- _]|].
  unfold bind at 1. rewrite forActive_unfold. cbn [slot0 slot1 slot2 slot3].
  set (ns := mkSlots n0 n1 n2 n3).
  destruct (visitSlot _ mask 0 n0 (None, false) log) as [[[n0' st0] log0]|] eqn:E0;
    [|discriminate].
  destruct (visitSlot _ mask 1 n1 st0 log0) as [[[n1' st1] log1]|] eqn:E1;
    [|discriminate].
  destruct (visitSlot _ mask 2 n2 st1 log1) as [[[n2' st2] log2]|] eqn:E2;
    [|discriminate].
  destruct (visitSlot _ mask 3 n3 st2 log2) as [[[n3' st3] log3]|] eqn:E3;
    [|discriminate].
  assert (Q0 : forall path, fst (@None (list Z), false) = Some path ->
     exists i rest child,
       path = i :: rest /\ Z.testbit mask i = true /\
       getSlot i ns = Some (Some child) /\ activeAt rest child = nodeAt rest child)
    by discriminate.
  pose proof (FindObject_slot_active target mask ns 0 n0 _ _ _ _ _ H eq_refl E0 Q0) as Q1.
  pose proof (FindObject_slot_active target mask ns 1 n1 _ _ _ _ _ H0 eq_refl E1 Q1) as Q2.
  pose proof (FindObject_slot_active target mask ns 2 n2 _ _ _ _ _ H1 eq_refl E2 Q2) as Q3.
  pose proof (FindObject_slot_active target mask ns 3 n3 _ _ _ _ _ H2 eq_refl E3 Q3) as Q4.
  assert (Hres : fst st3 = Some path -> activeAt path
                   (mkQuadtree b mo ml lv objs ns mask life span) =
                 nodeAt path (mkQuadtree b mo ml lv objs ns mask life span)).
  { intros Hp. destruct (Q4 path Hp) as (i & rest & child & -> & Hbit & Hslot & Hact).
    cbn [activeAt nodeAt m_ActiveNodes Nodes]. now rewrite Hbit, Hslot. }
  destruct (snd st3); [intros [= _ Hp _]; now apply Hres|].
  destruct (16 <=? mask); [discriminate|]. intros [= _ Hp _]. now apply Hres.
Qed.

Lemma fold_intersected target parents : forall acc,
  fold_left (fun objs parent => objs ++ intersected target parent) parents acc =
  acc ++ intersected target (concat parents).
Proof.
  induction parents as [|parent rest IH]; intros acc; simpl.
  - now rewrite app_nil_r.
  - now rewrite IH, intersected_app, app_assoc.
Qed.

(** The lists that the walk up the parents collects are the direct
    objects of the nodes above the node of [path]. *)
Lemma parentObjects_value path : forall qt above node log,
  nodeAt path qt = Some node ->
  exists parents,
    parentObjects path qt above log = Some (parents, log) /\
    forall obj,
      In obj (concat parents) <->
      In obj (concat above) \/
      exists prefix suffix anc,
        path = prefix ++ suffix /\ suffix <> [] /\
        nodeAt prefix qt = Some anc /\ In obj (m_Objects anc).
Proof.
  induction path as [|index rest IH]; intros qt above node log; simpl.
  - intros _. exists above. split; [reflexivity|]. intros obj. split; [now left|].
    intros [H|(prefix & suffix & anc & E & Hne & _)]; [assumption|].
    symmetry in E. apply app_eq_nil in E. tauto.
  - destruct (getSlot index (Nodes qt)) as [[child|]|] eqn:Eslot; try discriminate.
    intros Hnode.
    destruct (IH child (m_Objects qt :: above) node log Hnode) as (parents & -> & Hin).
    exists parents. split; [reflexivity|]. intros obj. rewrite Hin. simpl.
    rewrite in_app_iff. split.
    + intros [[H|H]|(prefix & suffix & anc & -> & Hne & Hanc & Hobj)].
      * right. exists [], (index :: rest), qt. repeat split; auto. discriminate.
      * now left.
      * right. exists (index :: prefix), suffix, anc. simpl. rewrite Eslot. auto.
    + intros [H|(prefix & suffix & anc & E & Hne & Hanc & Hobj)]; [tauto|].
      destruct prefix as [|i prefix]; simpl in *.
      * injection Hanc as <-. tauto.
      * injection E as <- ->. rewrite Eslot in Hanc.
        right. now exists prefix, suffix, anc.
Qed.

Lemma GetIntersectedObjects_value qt target log :
  wf qt = true ->
  exists sub objs,
    FindObject qt target log = Some ((qt, sub), log) /\
    GetIntersectedObjects qt [] target log = Some ((qt, objs), log) /\
    (sub = None -> holds target (allObjects qt) = false /\ objs = []) /\
    (forall path, sub = Some path ->
       holds target (allObjects qt) = true /\
       exists node,
         activeAt path qt = Some node /\
         forall obj,
           In obj objs <->
           (same_object obj target = false /\ Intersect target obj = true) /\
           (In obj (allObjects node) \/
            exists prefix suffix anc,
              path = prefix ++ suffix /\ suffix <> [] /\
              activeAt prefix qt = Some anc /\ In obj (m_Objects anc))).
Proof.
  intros Hwf. unfold GetIntersectedObjects, bind.
  destruct (FindObject_correct target qt Hwf log) as (sub & E & Hnone & Hpath).
  rewrite E. exists sub. destruct sub as [path|].
  - destruct (Hpath path eq_refl) as (node & Hnode & Hwfn & _).
    pose proof (FindObject_path_active target qt _ _ _ _ E) as Hact.
    rewrite Hnode in Hact.
    destruct (parentObjects_value path qt [] node log Hnode) as (parents & -> & Hin).
    rewrite fold_intersected. simpl app.
    eexists. split; [reflexivity|]. split.
    { eapply atPath_frame; [exact Hnode|].
      apply GetIntersectedObjectsRaw_scan. exact Hwfn. }
    split; [discriminate|]. intros path' [= <-]. split.
    { destruct (holds target (allObjects qt)); [reflexivity|].
      destruct Hnone as [_ Hnone]. now specialize (Hnone eq_refl). }
    exists node. split; [exact Hact|]. intros obj.
    rewrite <- intersected_app. unfold intersected.
    rewrite filter_In, in_app_iff, Hin, andb_true_iff, negb_true_iff. simpl.
    split.
    + intros [[[[]|(prefix & suffix & anc & -> & Hne & Hanc & Hobj)]|H] Hi].
      * split; [exact Hi|]. right. exists prefix, suffix, anc. repeat split; auto.
        destruct (activeAt_app prefix suffix qt node Hact) as (anc' & Ha & _).
        pose proof (activeAt_nodeAt _ _ _ Ha) as Hn. congruence.
      * tauto.
    + intros [Hi [H|(prefix & suffix & anc & -> & Hne & Hanc & Hobj)]]; [tauto|].
      split; [|exact Hi]. left. right. exists prefix, suffix, anc.
      repeat split; auto. now apply activeAt_nodeAt.
  - exists []. split; [reflexivity|]. split; [reflexivity|]. split; [|discriminate].
    intros _. split; [|reflexivity]. now apply Hnone.
Qed.

(** [GetIntersectedObjects] on a root that satisfies I3 answers objects
    of the tree that are not the target and intersect it, and none when
    the target is not stored.  When the target is stored, the answer holds
    every such object of the subtree of the node that [FindObject] names,
    and every such direct object of the nodes above that node; the objects
    of the other subtrees are not looked at. *)
Theorem GetIntersectedObjects_answer (qt : Quadtree) (target : PhysicalObject)
    (log : HookLog) :
  wf qt = true ->
  exists objs,
    GetIntersectedObjects qt [] target log = Some ((qt, objs), log) /\
    (forall obj, In obj objs ->
       In obj (allObjects qt) /\ same_object obj target = false /\
       Intersect target obj = true) /\
    (holds target (allObjects qt) = false -> objs = []) /\
    (forall path node,
       FindObject qt target log = Some ((qt, Some path), log) ->
       activeAt path qt = Some node ->
       forall obj,
         same_object obj target = false -> Intersect target obj = true ->
         (In obj (allObjects node) -> In obj objs) /\
         (forall prefix suffix anc,
            path = prefix ++ suffix -> activeAt prefix qt = Some anc ->
            In obj (m_Objects anc) -> In obj objs)).
Proof.
  intros Hwf.
  destruct (GetIntersectedObjects_value qt target log Hwf)
    as (sub & objs & Ef & E & Hnone & Hsome).
  exists objs. split; [exact E|]. split; [|split].
  - intros obj Hobj. destruct sub as [path|].
    + destruct (Hsome path eq_refl) as (_ & node & Hact & Hin).
      apply Hin in Hobj.
      destruct Hobj as [[Hne Hi] [H|(prefix & suffix & anc & _ & _ & Hanc & H)]].
      * repeat split; auto. exact (activeAt_incl path qt node Hact obj H).
      * repeat split; auto.
        apply (activeAt_incl prefix qt anc Hanc obj). now apply own_incl.
    + destruct (Hnone eq_refl) as (_ & ->). destruct Hobj.
  - intros Hh. destruct sub as [path|]; [|now apply Hnone].
    destruct (Hsome path eq_refl) as (Hheld & _). congruence.
  - intros path node Ef' Hact obj Hne Hi. rewrite Ef in Ef'. injection Ef' as ->.
    destruct (Hsome path eq_refl) as (_ & node' & Hact' & Hin).
    rewrite Hact in Hact'. injection Hact' as <-. split.
    + intros H. apply Hin. tauto.
    + intros prefix suffix anc -> Hanc H.
      destruct suffix as [|i suffix].
      * rewrite app_nil_r in Hact. rewrite Hact in Hanc. injection Hanc as <-.
        apply Hin. split; [tauto|]. left. now apply own_incl.
      * apply Hin. split; [tauto|]. right. exists prefix, (i :: suffix), anc.
        repeat split; auto. discriminate.
Qed.

Lemma GetIntersectedObjects_answer_overlap :
  exists objs,
    GetIntersectedObjects overlap_world [] box_00 [] = Some ((overlap_world, objs), []) /\
    (forall obj, In obj objs ->
       In obj (allObjects overlap_world) /\ same_object obj box_00 = false /\
       Intersect box_00 obj = true) /\
    (holds box_00 (allObjects overlap_world) = false -> objs = []) /\
    (forall path node,
       FindObject overlap_world box_00 [] = Some ((overlap_world, Some path), []) ->
       activeAt path overlap_world = Some node ->
       forall obj,
         same_object obj box_00 = false -> Intersect box_00 obj = true ->
         (In obj (allObjects node) -> In obj objs) /\
         (forall prefix suffix anc,
            path = prefix ++ suffix -> activeAt prefix overlap_world = Some anc ->
            In obj (m_Objects anc) -> In obj objs)).
Proof.
  apply (GetIntersectedObjects_answer overlap_world box_00 []). vm_compute. reflexivity.
Defined.

(** ** Positions that are not numbers *)

Lemma SFcompare_refl a : a <> S754_nan -> SFcompare a a = Some Eq.
Proof.
  destruct a as [s|s| |s m e]; simpl; intros H; try reflexivity.
  - now destruct s.
  - congruence.
  - destruct s; rewrite Z.compare_refl;
      change (PosDef.Pos.compare_cont Eq m m) with (m ?= m)%positive;
      now rewrite Pos.compare_refl.
Qed.

Lemma is_nan_Prim2SF x : is_nan x = true -> Prim2SF x = S754_nan.
Proof.
  unfold is_nan. rewrite eqb_spec. unfold SFeqb. intros H.
  destruct (Prim2SF x) as [s|s| |s m e] eqn:E; try reflexivity;
    rewrite SFcompare_refl in H; discriminate.
Qed.

Lemma SFcompare_nan_r a : SFcompare a S754_nan = None.
Proof. now destruct a. Qed.

Lemma fge_nan_l x y : is_nan x = true -> (x >=? y)%float = false.
Proof.
  intros H. unfold fge. rewrite leb_spec, (is_nan_Prim2SF x H).
  unfold SFleb. now rewrite SFcompare_nan_r.
Qed.

Lemma overlap_nan x y s :
  is_nan x = true -> (abs (x - y) <? s)%float = false.
Proof.
  intros H. rewrite ltb_spec, abs_spec, sub_spec, (is_nan_Prim2SF x H). reflexivity.
Qed.

Lemma feqb_nan x y : is_nan x = true -> (x =? y)%float = false.
Proof. intros H. rewrite eqb_spec, (is_nan_Prim2SF x H). reflexivity. Qed.

Lemma Intersect_nan a b :
  is_nan (X a) = true \/ is_nan (Y a) = true -> Intersect a b = false.
Proof.
  unfold Intersect. intros [H|H].
  - rewrite (feqb_nan _ _ H), (overlap_nan _ _ _ H), andb_false_r.
    now destruct (Y a =? Y b)%float.
  - rewrite (feqb_nan _ _ H), (overlap_nan _ _ _ H).
    now destruct (X a =? X b)%float.
Qed.

(** An object whose X or Y is not a number: the classification that
    [Build] and [Insert] use finds it no quadrant, no bounds contain it, and
    it intersects nothing, whichever way round it is asked. *)
Theorem position_not_a_number (obj : PhysicalObject) :
  is_nan (X obj) = true \/ is_nan (Y obj) = true ->
  (forall b, quadrantIndex b obj = -1 /\ Contains b obj = false) /\
  (forall other, Intersect obj other = false /\ Intersect other obj = false).
Proof.
  intros H. split.
  - intros b. unfold quadrantIndex, topPart, bottomPart, leftPart, rightPart, Contains.
    destruct H as [H|H].
    + rewrite !(fge_nan_l _ _ H). simpl.
      split; [|reflexivity].
      repeat match goal with |- context [if ?c then _ else _] => destruct c end;
        reflexivity.
    + rewrite !(fge_nan_l _ _ H). simpl. split; [reflexivity|].
      now rewrite andb_false_r.
  - intros other. split; [|rewrite Intersect_sym]; now apply Intersect_nan.
Qed.

Lemma position_not_a_number_box :
  (forall b, quadrantIndex b (box 1 nan 0 1 1) = -1 /\
             Contains b (box 1 nan 0 1 1) = false) /\
  (forall other, Intersect (box 1 nan 0 1 1) other = false /\
                 Intersect other (box 1 nan 0 1 1) = false).
Proof. apply (position_not_a_number (box 1 nan 0 1 1)). left. reflexivity. Defined.

(** ** Distance *)

Lemma feqb_sym x y : (x =? y)%float = (y =? x)%float.
Proof. rewrite !eqb_spec. apply SFeqb_sym. Qed.

Lemma abs_sub_sym x y : abs (x - y) = abs (y - x).
Proof.
  apply Prim2SF_inj. rewrite !abs_spec, !sub_spec. apply SFsub_abs_sym.
Qed.

Lemma square_abs x y : abs x = abs y -> (x * x)%float = (y * y)%float.
Proof.
  intros H. apply (f_equal Prim2SF) in H. rewrite !abs_spec in H.
  apply Prim2SF_inj. rewrite !mul_spec. unfold SF64mul.
  destruct (Prim2SF x) as [sx|sx| |sx mx ex], (Prim2SF y) as [sy|sy| |sy my ey];
    simpl in H; try discriminate; try reflexivity.
  - now destruct sx, sy.
  - now destruct sx, sy.
  - injection H as -> ->. now destruct sx, sy.
Qed.

(** [Distance] is symmetric, for every [math.Pow] whose square depends on
    the magnitude of its argument only. *)
Theorem Distance_symmetric (pow : float -> float -> float) (a b : PhysicalObject) :
  (forall x y, abs x = abs y -> pow x 2%float = pow y 2%float) ->
  Distance pow a b = Distance pow b a.
Proof.
  intros Hpow. unfold Distance.
  rewrite (feqb_sym (X b)), (feqb_sym (Y b)), (abs_sub_sym (Y b)), (abs_sub_sym (X b)).
  rewrite (Hpow (X b - X a) (X a - X b))%float by apply abs_sub_sym.
  rewrite (Hpow (Y b - Y a) (Y a - Y b))%float by apply abs_sub_sym.
  reflexivity.
Qed.

Lemma Distance_symmetric_square :
  Distance (fun x _ => x * x)%float box_22 box_33 =
  Distance (fun x _ => x * x)%float box_33 box_22.
Proof.
  apply (Distance_symmetric (fun x _ => x * x)%float box_22 box_33).
  intros x y. apply square_abs.
Defined.

(** ** [Build] after [Insert] *)

Lemma Insert_mask qt obj log qt' log' :
  Insert qt obj log = Some (qt', log') ->
  m_ActiveNodes qt <> 0 -> m_ActiveNodes qt' <> 0.
Proof.
  rewrite Insert_unfold. intros H Hmask. revert H.
  destruct (m_ActiveNodes qt =? 0) eqn:E; [apply Z.eqb_eq in E; contradiction|].
  clear E. cbv zeta. destruct (quadrantIndex (bounds qt) obj =? -1).
  { now intros [= <- _]. }
  destruct (Z.land _ _ =? 0).
  { intros [= <- _]. simpl. intros H0. apply Z.lor_eq_0_iff in H0. tauto. }
  unfold bind at 1.
  destruct (onSlot _ _ _ log) as [[ns log1]|]; [|discriminate].
  now intros [= <- _].
Qed.

Lemma Build_Insert_leaf qt obj : Build (Insert_leaf qt obj) = Insert_leaf qt obj.
Proof.
  unfold Insert_leaf. set (qt1 := PushBack qt obj).
  destruct (_ || _) eqn:E.
  - apply Build_fuel_guard. unfold Build_guard.
    apply orb_true_iff in E. apply orb_true_iff.
    destruct E as [E|E]; [left|right]; lia.
  - unfold Build at 1.
    destruct (Build_fuel_fields (Z.to_nat (MaxLevels qt1 - Level qt1)) qt1)
      as (_ & _ & Hml & Hlv & _).
    fold (Build qt1) in Hml, Hlv. rewrite Hml, Hlv.
    apply Build_fuel_idempotent.
Qed.

(** [Build] has nothing to do on a tree that [Insert] returns: [Insert]
    has split the leaf that went over its capacity, and has left at a node
    with children only objects that fit none of them. *)
Theorem Insert_then_Build (qt : Quadtree) (obj : PhysicalObject) (log : HookLog) :
  sound qt = true ->
  exists qt', Insert qt obj log = Some (qt', log) /\ Build qt' = qt'.
Proof.
  intros Hs. destruct (Insert_sound qt Hs obj log) as (qt' & E & Hs').
  exists qt'. split; [exact E|].
  destruct (m_ActiveNodes qt =? 0) eqn:Emask.
  - rewrite Insert_unfold, Emask in E. injection E as <-. apply Build_Insert_leaf.
  - apply Z.eqb_neq in Emask. pose proof (Insert_mask _ _ _ _ _ E Emask) as Hmask.
    apply sound_iff in Hs'. destruct Hs' as (_ & Hnode & _).
    unfold nodeSettled in Hnode. apply orb_true_iff in Hnode.
    destruct Hnode as [H0|Hall]; [apply Z.eqb_eq in H0; contradiction|].
    now apply Build_fuel_straddlers.
Qed.

Lemma Insert_then_Build_built :
  exists qt', Insert built_world box_00 [] = Some (qt', []) /\ Build qt' = qt'.
Proof. apply (Insert_then_Build built_world box_00 []). vm_compute. reflexivity. Defined.

(** ** The subtree scan *)

(** [GetIntersectedObjectsRaw] on a tree that satisfies I3 appends to the
    list it is given the objects of the tree that are not the target and
    intersect it, in depth-first order, each as often as it is stored; the
    tree and the hook log stay as they are. *)
Theorem GetIntersectedObjectsRaw_appends (qt : Quadtree) (target : PhysicalObject)
    (objects : list PhysicalObject) (log : HookLog) :
  wf qt = true ->
  GetIntersectedObjectsRaw qt target objects log =
  Some ((qt, objects ++
             filter (fun obj => negb (same_object obj target) && Intersect target obj)
                    (allObjects qt)), log).
Proof. intros Hwf. now apply GetIntersectedObjectsRaw_scan. Qed.

Lemma GetIntersectedObjectsRaw_appends_built :
  GetIntersectedObjectsRaw built_world box_22 [box_00] [] =
  Some ((built_world,
         [box_00] ++
         filter (fun obj => negb (same_object obj box_22) && Intersect box_22 obj)
                (allObjects built_world)), []).
Proof.
  apply (GetIntersectedObjectsRaw_appends built_world box_22 [box_00] []).
  vm_compute. reflexivity.
Defined.

(** ** Nodes at the origin *)

Lemma Prim2SF_zero x : (x =? 0)%float = true -> exists s, Prim2SF x = S754_zero s.
Proof.
  rewrite eqb_spec. unfold SFeqb. change (Prim2SF 0) with (S754_zero false).
  destruct (Prim2SF x) as [s|s| |s m e]; simpl; try discriminate.
  - intros _. now exists s.
  - now destruct s.
  - now destruct s.
Qed.

Lemma leb_zero_add x z h : (z =? 0)%float = true -> (x <=? z + h)%float = (x <=? h)%float.
Proof.
  intros Hz. destruct (Prim2SF_zero z Hz) as (s & Ez).
  rewrite !leb_spec, add_spec, Ez. unfold SFleb, SF64add.
  destruct (Prim2SF h) as [sh|sh| |sh mh eh]; simpl; try reflexivity.
  destruct s, sh; destruct (Prim2SF x) as [sx|sx| |sx mx ex]; reflexivity.
Qed.

(** At a node whose bounds start at the origin, as the root does in every
    test of the repository, the far-edge tests of the classification, which
    compare with [Height] and [Width], are the comparisons with
    [Y + Height] and [X + Width]: the quadrant that [Build] and [Insert]
    compute is the one of section 4.2. *)
Theorem quadrantIndex_at_origin (b : Bounds) (obj : PhysicalObject) :
  (bX b =? 0)%float = true -> (bY b =? 0)%float = true ->
  bottomPart b obj =
    ((Y obj >=? verticalMidpoint b)%float &&
     (Y obj + Height obj <=? bY b + bHeight b)%float) /\
  rightPart b obj =
    ((X obj >=? horizontalMidpoint b)%float &&
     (X obj + Width obj <=? bX b + bWidth b)%float) /\
  quadrantIndex b obj = spec_quadrantIndex b obj.
Proof.
  intros Hx Hy.
  assert (Eb : bottomPart b obj = spec_bottom b obj).
  { unfold bottomPart, spec_bottom. now rewrite (leb_zero_add _ _ _ Hy). }
  assert (Er : rightPart b obj = spec_right b obj).
  { unfold rightPart, spec_right. now rewrite (leb_zero_add _ _ _ Hx). }
  split; [exact Eb|]. split; [exact Er|].
  unfold quadrantIndex, spec_quadrantIndex. rewrite Eb, Er.
  destruct (topPart b obj), (leftPart b obj), (spec_right b obj), (spec_bottom b obj);
    reflexivity.
Qed.

Lemma quadrantIndex_at_origin_world :
  bottomPart world4 box_33 =
    ((Y box_33 >=? verticalMidpoint world4)%float &&
     (Y box_33 + Height box_33 <=? bY world4 + bHeight world4)%float) /\
  rightPart world4 box_33 =
    ((X box_33 >=? horizontalMidpoint world4)%float &&
     (X box_33 + Width box_33 <=? bX world4 + bWidth world4)%float) /\
  quadrantIndex world4 box_33 = spec_quadrantIndex world4 box_33.
Proof. apply (quadrantIndex_at_origin world4 box_33); reflexivity. Defined.

(** ** Dropping dead children *)

Lemma bit_self index : 0 <= index -> Z.testbit (Z.shiftl 1 index) index = true.
Proof. intros H. rewrite Z.shiftl_1_l. now apply Z.pow2_bits_true. Qed.

Lemma bit_other index j : 0 <= index -> j <> index -> Z.testbit (Z.shiftl 1 index) j = false.
Proof. intros H Hne. rewrite Z.shiftl_1_l. apply Z.pow2_bits_false. congruence. Qed.

Lemma getSlot_setSlot_other {A : Type} index j (a : A) ns :
  j <> index -> getSlot j (setSlot index a ns) = getSlot j ns.
Proof.
  intros Hne. destruct ns as [a0 a1 a2 a3]. unfold getSlot, setSlot.
  destruct index as [|[[|[]|]|[|[]|]|]|]; try reflexivity;
    destruct j as [|[[|[]|]|[|[]|]|]|]; try reflexivity; congruence.
Qed.

Lemma getSlot_setSlot_same {A : Type} index (a : A) ns :
  0 <= index <= 3 -> getSlot index (setSlot index a ns) = Some a.
Proof.
  intros H. assert (Hi : index = 0 \/ index = 1 \/ index = 2 \/ index = 3) by lia.
  destruct Hi as [-> | [-> | [-> | ->]]]; reflexivity.
Qed.

(** The node without the child of slot [index]. *)
Lemma cleared_sound qt index :
  0 <= index <= 3 -> sound qt = true ->
  Z.testbit (m_ActiveNodes qt) index = true ->
  sound (set_ActiveNodes (set_Nodes qt (setSlot index None (Nodes qt)))
                         (Z.ldiff (m_ActiveNodes qt) (Z.shiftl 1 index))) = true.
Proof.
  intros Hindex Hs Hbit. apply sound_iff in Hs.
  destruct Hs as (Hmask & Hnode & K0 & K1 & K2 & K3). apply sound_iff.
  destruct qt as [b mo ml lv objs [n0 n1 n2 n3] mask life span].
  unfold set_ActiveNodes, set_Nodes, nodeSettled in *.
  cbn [m_Objects m_ActiveNodes Nodes bounds MaxObjects MaxLevels Level m_curLife
       m_maxLifespan slot0 slot1 slot2 slot3] in *.
  assert (Hi : index = 0 \/ index = 1 \/ index = 2 \/ index = 3) by lia.
  split.
  { clear -Hmask Hi. each_mask Hmask; destruct Hi as [-> | [-> | [-> | ->]]];
      simpl; lia. }
  split.
  { apply orb_true_iff. right. apply orb_true_iff in Hnode.
    destruct Hnode as [H0|H]; [|exact H].
    apply Z.eqb_eq in H0. subst mask. rewrite Z.testbit_0_l in Hbit. discriminate. }
  unfold slotOk in *.
  destruct Hi as [-> | [-> | [-> | ->]]]; cbn [setSlot slot0 slot1 slot2 slot3];
    rewrite !Z.ldiff_spec; simpl Z.testbit; rewrite ?andb_true_r, ?andb_false_r;
    auto.
Qed.

Lemma cleared_objects qt index child :
  0 <= index <= 3 ->
  getSlot index (Nodes qt) = Some (Some child) ->
  (Z.testbit (m_ActiveNodes qt) index = true -> allObjects child = []) ->
  allObjects (set_ActiveNodes (set_Nodes qt (setSlot index None (Nodes qt)))
                              (Z.ldiff (m_ActiveNodes qt) (Z.shiftl 1 index))) =
  allObjects qt.
Proof.
  intros Hindex Hslot Hempty.
  destruct qt as [b mo ml lv objs [n0 n1 n2 n3] mask life span].
  unfold set_ActiveNodes, set_Nodes.
  cbn [m_Objects m_ActiveNodes Nodes bounds MaxObjects MaxLevels Level m_curLife
       m_maxLifespan slot0 slot1 slot2 slot3] in *.
  assert (Hi : index = 0 \/ index = 1 \/ index = 2 \/ index = 3) by lia.
  destruct Hi as [-> | [-> | [-> | ->]]];
    cbn [getSlot setSlot slot0 slot1 slot2 slot3] in *; injection Hslot as ->;
    rewrite !allObjects_node; unfold viaSlot;
    rewrite !Z.ldiff_spec, ?bit_self, ?bit_other by lia; cbn [negb];
    rewrite ?andb_true_r, ?andb_false_r;
    match goal with
    | H : Z.testbit ?m ?i = true -> _ |- _ =>
        destruct (Z.testbit m i); cbv iota;
        [fold (allObjects child); rewrite (H eq_refl)|]; reflexivity
    end.
Qed.

(** One round of the loop. *)
Lemma pruneSlot_step flags index qt log :
  0 <= index <= 3 -> sound qt = true ->
  Z.testbit flags index = Z.testbit (m_ActiveNodes qt) index ->
  exists qt' slot,
    pruneSlot flags index qt log = Some (qt', log) /\
    getSlot index (Nodes qt) = Some slot /\
    sound qt' = true /\
    m_Objects qt' = m_Objects qt /\
    Z.testbit (m_ActiveNodes qt') index =
      Z.testbit (m_ActiveNodes qt) index && negb (dead (m_ActiveNodes qt) index slot) /\
    getSlot index (Nodes qt') =
      Some (if dead (m_ActiveNodes qt) index slot then None else slot) /\
    (forall j, j <> index ->
       Z.testbit (m_ActiveNodes qt') j = Z.testbit (m_ActiveNodes qt) j /\
       getSlot j (Nodes qt') = getSlot j (Nodes qt)) /\
    ((dead (m_ActiveNodes qt) index slot = true ->
      viaSlot allObjects [] (m_ActiveNodes qt) index slot = []) ->
     allObjects qt' = allObjects qt).
Proof.
  intros Hindex Hs Hflags.
  destruct (getSlot_cases index (Nodes qt) Hindex) as (slot & Hslot & Hcase).
  assert (Hok : slotOk sound (m_ActiveNodes qt) index slot = true).
  { apply sound_iff in Hs. destruct Hs as (_ & _ & K0 & K1 & K2 & K3).
    destruct Hcase as [[-> ->]|[[-> ->]|[[-> ->]|[-> ->]]]]; assumption. }
  unfold pruneSlot, dead, viaSlot, slotOk in *. rewrite Hflags, Hslot.
  destruct (Z.testbit (m_ActiveNodes qt) index) eqn:Ebit.
  - destruct slot as [child|]; [|discriminate].
    destruct (m_curLife child =? 0) eqn:Elife.
    + eexists _, (Some child). rewrite ?Elife.
      split; [reflexivity|]. split; [reflexivity|].
      split; [exact (cleared_sound qt index Hindex Hs Ebit)|]. split; [reflexivity|].
      cbn [m_ActiveNodes Nodes set_ActiveNodes set_Nodes].
      rewrite Z.ldiff_spec, bit_self, Ebit by lia.
      split; [reflexivity|]. split; [now apply getSlot_setSlot_same|]. split.
      * intros j Hne. rewrite Z.ldiff_spec, bit_other, andb_true_r by (lia || auto).
        split; [reflexivity|]. now apply getSlot_setSlot_other.
      * intros Hempty. refine (cleared_objects qt index child Hindex Hslot _).
        intros _. now apply Hempty.
    + exists qt, (Some child). rewrite ?Elife, ?Ebit. repeat split; auto.
  - exists qt, slot. rewrite ?Ebit. repeat split; auto.
Qed.

Lemma dead_bit mask mask' index slot :
  Z.testbit mask' index = Z.testbit mask index ->
  dead mask' index slot = dead mask index slot /\
  viaSlot allObjects [] mask' index slot = viaSlot allObjects [] mask index slot.
Proof. unfold dead, viaSlot. now intros ->. Qed.

(** The loop that ends [Update], on a node that satisfies I3 and the
    code's I1: it returns and runs no hook; of the active children it drops
    those whose [m_curLife] is 0, slot and bit, and no other; the node keeps
    its own objects and both invariants.  When the children it drops hold
    no object, the tree holds the objects it held. *)
Theorem Update_prune_drops (qt : Quadtree) (log : HookLog) :
  sound qt = true ->
  exists qt',
    Update_prune qt log = Some (qt', log) /\
    sound qt' = true /\
    m_Objects qt' = m_Objects qt /\
    (forall index slot,
       getSlot index (Nodes qt) = Some slot ->
       Z.testbit (m_ActiveNodes qt') index =
         Z.testbit (m_ActiveNodes qt) index && negb (dead (m_ActiveNodes qt) index slot) /\
       getSlot index (Nodes qt') =
         Some (if dead (m_ActiveNodes qt) index slot then None else slot)) /\
    ((forall index slot,
        getSlot index (Nodes qt) = Some slot ->
        dead (m_ActiveNodes qt) index slot = true ->
        viaSlot allObjects [] (m_ActiveNodes qt) index slot = []) ->
     allObjects qt' = allObjects qt).
Proof.
  intros Hs. unfold Update_prune, bind. set (flags := m_ActiveNodes qt).
  assert (Hmask : 0 <= flags < 16) by (apply sound_iff in Hs; tauto).
  destruct (pruneSlot_step flags 0 qt log ltac:(lia) Hs eq_refl)
    as (q1 & s0 & -> & G0 & S1 & O1 & B0 & N0 & F0 & A0).
  destruct (pruneSlot_step flags 1 q1 log ltac:(lia) S1)
    as (q2 & s1 & -> & G1 & S2 & O2 & B1 & N1 & F1 & A1).
  { symmetry. apply F0. lia. }
  destruct (pruneSlot_step flags 2 q2 log ltac:(lia) S2)
    as (q3 & s2 & -> & G2 & S3 & O3 & B2 & N2 & F2 & A2).
  { symmetry. rewrite (proj1 (F1 2 ltac:(lia))). apply F0. lia. }
  destruct (pruneSlot_step flags 3 q3 log ltac:(lia) S3)
    as (q4 & s3 & -> & G3 & S4 & O4 & B3 & N3 & F3 & A3).
  { symmetry. rewrite (proj1 (F2 3 ltac:(lia))), (proj1 (F1 3 ltac:(lia))).
    apply F0. lia. }
  replace (16 <=? flags) with false by lia.
  exists q4. split; [reflexivity|]. split; [exact S4|].
  split; [congruence|].
  assert (E1 : Z.testbit (m_ActiveNodes q1) 1 = Z.testbit flags 1 /\
               getSlot 1 (Nodes q1) = getSlot 1 (Nodes qt)) by (apply F0; lia).
  assert (E2 : Z.testbit (m_ActiveNodes q2) 2 = Z.testbit flags 2 /\
               getSlot 2 (Nodes q2) = getSlot 2 (Nodes qt)).
  { destruct (F1 2 ltac:(lia)) as (-> & ->). apply F0. lia. }
  assert (E3 : Z.testbit (m_ActiveNodes q3) 3 = Z.testbit flags 3 /\
               getSlot 3 (Nodes q3) = getSlot 3 (Nodes qt)).
  { destruct (F2 3 ltac:(lia)) as (-> & ->). destruct (F1 3 ltac:(lia)) as (-> & ->).
    apply F0. lia. }
  destruct E1 as (E1 & E1'), E2 as (E2 & E2'), E3 as (E3 & E3').
  rewrite E1' in G1. rewrite E2' in G2. rewrite E3' in G3.
  destruct (dead_bit flags (m_ActiveNodes q1) 1 s1 E1) as (D1 & V1).
  destruct (dead_bit flags (m_ActiveNodes q2) 2 s2 E2) as (D2 & V2).
  destruct (dead_bit flags (m_ActiveNodes q3) 3 s3 E3) as (D3 & V3).
  rewrite D1, E1 in B1. rewrite D1 in N1.
  rewrite D2, E2 in B2. rewrite D2 in N2.
  rewrite D3, E3 in B3. rewrite D3 in N3.
  split.
  - intros index slot Hslot.
    assert (Hi : index = 0 \/ index = 1 \/ index = 2 \/ index = 3).
    { unfold getSlot in Hslot.
      destruct index as [|[[|[]|]|[|[]|]|]|]; try discriminate; auto. }
    destruct Hi as [-> | [-> | [-> | ->]]].
    + assert (slot = s0) by congruence. subst slot.
      destruct (F3 0 ltac:(lia)) as (-> & ->). destruct (F2 0 ltac:(lia)) as (-> & ->).
      destruct (F1 0 ltac:(lia)) as (-> & ->). now split.
    + assert (slot = s1) by congruence. subst slot.
      destruct (F3 1 ltac:(lia)) as (-> & ->). destruct (F2 1 ltac:(lia)) as (-> & ->).
      now split.
    + assert (slot = s2) by congruence. subst slot.
      destruct (F3 2 ltac:(lia)) as (-> & ->). now split.
    + assert (slot = s3) by congruence. subst slot. now split.
  - intros Hempty.
    rewrite A3, A2, A1, A0; auto.
    + rewrite V1, D1. now apply Hempty.
    + rewrite V2, D2. now apply Hempty.
    + rewrite V3, D3. now apply Hempty.
Qed.

Lemma Update_prune_drops_world :
  exists qt',
    Update_prune (dying_world []) [] = Some (qt', []) /\
    sound qt' = true /\
    m_Objects qt' = m_Objects (dying_world []) /\
    (forall index slot,
       getSlot index (Nodes (dying_world [])) = Some slot ->
       Z.testbit (m_ActiveNodes qt') index =
         Z.testbit (m_ActiveNodes (dying_world [])) index &&
         negb (dead (m_ActiveNodes (dying_world [])) index slot) /\
       getSlot index (Nodes qt') =
         Some (if dead (m_ActiveNodes (dying_world [])) index slot then None else slot)) /\
    ((forall index slot,
        getSlot index (Nodes (dying_world [])) = Some slot ->
        dead (m_ActiveNodes (dying_world [])) index slot = true ->
        viaSlot allObjects [] (m_ActiveNodes (dying_world [])) index slot = []) ->
     allObjects qt' = allObjects (dying_world [])).
Proof. apply (Update_prune_drops (dying_world []) []). reflexivity. Defined.

(** A child whose countdown is at 0 is dropped with the objects it
    holds. *)
Example Update_prune_drops_objects :
  allObjects (dying_world [box_00]) = [box_00] /\
  exists qt',
    Update_prune (dying_world [box_00]) [] = Some (qt', []) /\ allObjects qt' = [].
Proof. split; [reflexivity|]. eexists. split; reflexivity. Qed.

(** ** The two intersection queries agree *)

(** On a tree that satisfies I3 and stores no object twice, every object
    that [GetIntersectedObjects] answers for a stored target is paired with
    the target in exactly one record of [GetIntersection]. *)
Theorem neighbours_are_pairs (qt : Quadtree) (target : PhysicalObject) (log : HookLog) :
  wf qt = true -> NoDup (map ident (allObjects qt)) -> In target (allObjects qt) ->
  exists objs recs,
    GetIntersectedObjects qt [] target log = Some ((qt, objs), log) /\
    GetIntersection qt None None log = Some ((qt, (recs, allObjects qt)), log) /\
    forall obj, In obj objs -> countPair target obj recs = 1%nat.
Proof.
  intros Hwf Hnd Htarget.
  destruct (GetIntersectedObjects_value qt target log Hwf)
    as (sub & objs & _ & E & Hnone & Hsome).
  exists objs, (pairsFrom [] (allObjects qt)). split; [exact E|]. split.
  { rewrite (GetIntersection_scan qt Hwf), fold_checkOne. reflexivity. }
  intros obj Hobj. destruct sub as [path|].
  - destruct (Hsome path eq_refl) as (_ & node & Hact & Hin).
    apply Hin in Hobj. destruct Hobj as [[Hne Hi] Hwhere].
    assert (Hstored : In obj (allObjects qt)).
    { destruct Hwhere as [H|(prefix & suffix & anc & _ & _ & Hanc & H)].
      - exact (activeAt_incl path qt node Hact obj H).
      - apply (activeAt_incl prefix qt anc Hanc obj). now apply own_incl. }
    rewrite (pairsFrom_count target obj (allObjects qt) [] Hnd Htarget Hstored).
    + simpl. now rewrite Hi.
    + intros Eid. unfold same_object in Hne. rewrite Eid, Pos.eqb_refl in Hne.
      discriminate.
  - destruct (Hnone eq_refl) as (_ & ->). destruct Hobj.
Qed.

Lemma neighbours_are_pairs_overlap :
  exists objs recs,
    GetIntersectedObjects overlap_world [] box_00 [] = Some ((overlap_world, objs), []) /\
    GetIntersection overlap_world None None [] =
      Some ((overlap_world, (recs, allObjects overlap_world)), []) /\
    forall obj, In obj objs -> countPair box_00 obj recs = 1%nat.
Proof.
  apply (neighbours_are_pairs overlap_world box_00 []).
  - vm_compute. reflexivity.
  - vm_compute. repeat constructor; simpl; intuition discriminate.
  - vm_compute. auto.
Defined.

(** The answers in the world of [overlap_world]. *)
Example overlap_world_answers :
  GetIntersectedObjects overlap_world [] box_00 [] = Some ((overlap_world, [box_half]), []) /\
  GetIntersection overlap_world None None [] =
    Some ((overlap_world, ([mkRecord box_half box_00], [box_half; box_00; box_33])), []).
Proof. vm_compute. split; reflexivity. Qed.

(** ** The trees that the package maintains *)

Lemma Remove_fields target qt log qt' removed log' :
  Remove qt target log = Some ((qt', removed), log') ->
  bounds qt' = bounds qt /\ MaxObjects qt' = MaxObjects qt /\
  MaxLevels qt' = MaxLevels qt /\ Level qt' = Level qt /\
  m_ActiveNodes qt' = m_ActiveNodes qt.
Proof.
  rewrite Remove_unfold.
  destruct (removeFirst target (m_Objects qt)) as [objs'|].
  { intros [= <- _ _]. now repeat split. }
  unfold bind at 1.
  destruct (forActive _ _ _ tt log) as [[[[ns []] r] log1]|]; [|discriminate].
  intros [= <- _ _]. now repeat split.
Qed.

Lemma Remove_slot_shaped target parent mask index slot st log slot' st' log' :
  inSlot (fun qt => shaped qt ->
            forall log qt' removed log',
              Remove qt target log = Some ((qt', removed), log') -> shaped qt')
         slot ->
  viaSlot (fun child => childOf parent index child /\ shaped child) True mask index slot ->
  visitSlot (fun _ child (_ : unit) =>
               '(child', removed) <- Remove child target ;; ret (child', tt, removed))
            mask index slot st log = Some ((slot', st'), log') ->
  viaSlot (fun child => childOf parent index child /\ shaped child) True mask index slot'.
Proof.
  intros IH Hok. unfold visitSlot, viaSlot in *.
  destruct (snd st); [now intros [= <- _ _]|].
  destruct (Z.testbit mask index); [|now intros [= <- _ _]].
  destruct slot as [child|]; [|discriminate]. simpl in IH.
  unfold bind, ret.
  destruct (Remove child target log) as [[[child' removed] log1]|] eqn:E; [|discriminate].
  intros [= <- _ _]. destruct Hok as [Hof Hsc]. split.
  - destruct (Remove_fields _ _ _ _ _ _ E) as (Eb & Emo & Eml & Elv & _).
    unfold childOf in *. now rewrite Eb, Emo, Eml, Elv.
  - exact (IH Hsc log child' removed log1 E).
Qed.

(** [Remove] keeps the shape. *)
Lemma Remove_shaped target qt :
  shaped qt ->
  forall log qt' removed log',
    Remove qt target log = Some ((qt', removed), log') -> shaped qt'.
Proof.
  induction qt using Quadtree_ind. intros Hs log qt' removed log'.
  rewrite Remove_unfold. cbn [m_Objects m_ActiveNodes Nodes].
  destruct (removeFirst target objs) as [objs'|] eqn:Eobjs.
  { intros [= <- _ _]. now apply shaped_set_Objects. }
  apply shaped_unfold in Hs.
  cbn [m_ActiveNodes Nodes slot0 slot1 slot2 slot3 Level MaxLevels] in Hs.
  destruct Hs as (Hlevel & K0 & K1 & K2 & K3).
  unfold bind at 1. rewrite forActive_unfold. cbn [slot0 slot1 slot2 slot3].
  destruct (visitSlot _ mask 0 n0 (tt, false) log) as [[[n0' st0] log0]|] eqn:E0;
    [|discriminate].
  destruct (visitSlot _ mask 1 n1 st0 log0) as [[[n1' st1] log1]|] eqn:E1;
    [|discriminate].
  destruct (visitSlot _ mask 2 n2 st1 log1) as [[[n2' st2] log2]|] eqn:E2;
    [|discriminate].
  destruct (visitSlot _ mask 3 n3 st2 log2) as [[[n3' st3] log3]|] eqn:E3;
    [|discriminate].
  pose proof (Remove_slot_shaped _ _ _ _ _ _ _ _ _ _ H K0 E0) as K0'.
  pose proof (Remove_slot_shaped _ _ _ _ _ _ _ _ _ _ H0 K1 E1) as K1'.
  pose proof (Remove_slot_shaped _ _ _ _ _ _ _ _ _ _ H1 K2 E2) as K2'.
  pose proof (Remove_slot_shaped _ _ _ _ _ _ _ _ _ _ H2 K3 E3) as K3'.
  assert (Hres : shaped (set_Nodes
                           (mkQuadtree b mo ml lv objs (mkSlots n0 n1 n2 n3) mask life span)
                           (mkSlots n0' n1' n2' n3'))).
  { apply shaped_unfold. unfold set_Nodes.
    cbn [m_Objects m_ActiveNodes Nodes bounds slot0 slot1 slot2 slot3 Level MaxLevels].
    repeat split; assumption. }
  destruct (snd st3); [now intros [= <- _ _]|].
  destruct (16 <=? mask); [discriminate|]. now intros [= <- _ _].
Qed.

Lemma maintained_invariants qt :
  maintained qt -> sound qt = true /\ shaped qt /\ Level qt = 0.
Proof.
  induction 1 as [b mo ml objs
                 |qt Hm (Hs & Hshape & Hlevel)
                 |qt objs log qt' log' Hm (Hs & Hshape & Hlevel) Hup
                 |qt obj log qt' log' Hm (Hs & Hshape & Hlevel) Hins
                 |qt target log qt' removed log' Hm (Hs & Hshape & Hlevel) Hrem].
  - split; [reflexivity|]. split; [now apply shaped_leaf|reflexivity].
  - split; [now apply Build_sound|]. split; [now apply Build_fuel_shaped|].
    unfold Build.
    now destruct (Build_fuel_fields (Z.to_nat (MaxLevels qt - Level qt)) qt)
      as (_ & _ & _ & -> & _).
  - unfold UpdateTree in Hup. destruct objs as [objs|]; [|discriminate].
    injection Hup as <- _.
    set (qt0 := set_Objects _ objs).
    split; [now apply Build_sound|]. split.
    + apply Build_fuel_shaped. now apply shaped_leaf.
    + unfold Build.
      now destruct (Build_fuel_fields (Z.to_nat (MaxLevels qt0 - Level qt0)) qt0)
        as (_ & _ & _ & -> & _).
  - destruct (Insert_sound qt Hs obj log) as (qt0 & E & Hs0).
    rewrite E in Hins. injection Hins as <- <-.
    split; [assumption|]. split; [exact (Insert_shaped qt Hs Hshape _ _ _ _ E)|].
    now destruct (Insert_fields _ _ _ _ _ E) as (_ & _ & _ & ->).
  - split; [exact (Remove_sound target qt Hs _ _ _ _ Hrem)|].
    split; [exact (Remove_shaped target qt Hshape _ _ _ _ Hrem)|].
    now destruct (Remove_fields _ _ _ _ _ _ Hrem) as (_ & _ & _ & -> & _).
Qed.

(** Every tree that [CreateQuadtree], [Build], [UpdateTree], [Insert] and
    [Remove] make satisfies I3 and I1 read with the tests of the code, and
    none of these calls, nor any of the queries, panics on it or runs a
    hook: the calls return, with the hook log as it was. *)
Theorem maintained_never_panics (qt : Quadtree) :
  maintained qt ->
  sound qt = true /\
  (forall obj log, exists qt', Insert qt obj log = Some (qt', log)) /\
  (forall target log, exists qt' removed,
     Remove qt target log = Some ((qt', removed), log)) /\
  (forall objs log, exists qt', UpdateTree qt (Some objs) log = Some (qt', log)) /\
  (forall target log, exists sub, FindObject qt target log = Some ((qt, sub), log)) /\
  (forall (W : Type) (walker : PhysicalObject -> W -> W) w log, exists w',
     Walk qt walker w log = Some ((qt, w'), log)) /\
  (forall target objects log, exists objs,
     GetIntersectedObjectsRaw qt target objects log = Some ((qt, objs), log)) /\
  (forall target log, exists objs,
     GetIntersectedObjects qt [] target log = Some ((qt, objs), log)) /\
  (forall intersections potentialObjects log, exists result,
     GetIntersection qt intersections potentialObjects log = Some ((qt, result), log)).
Proof.
  intros Hm. destruct (maintained_invariants qt Hm) as (Hs & _).
  pose proof (sound_wf qt Hs) as Hwf.
  split; [exact Hs|]. repeat split.
  - intros obj log. destruct (Insert_sound qt Hs obj log) as (qt' & E & _). now exists qt'.
  - intros target log. destruct (Remove_correct target qt Hwf log) as (qt' & E & _).
    now exists qt', (holds target (allObjects qt)).
  - intros objs log. eexists. reflexivity.
  - intros target log.
    destruct (FindObject_correct target qt Hwf log) as (sub & E & _). now exists sub.
  - intros W walker w log. eexists. now apply Walk_scan.
  - intros target objects log. eexists. now apply GetIntersectedObjectsRaw_scan.
  - intros target log. now apply GetIntersectedObjects_frame.
  - intros ins pot log. eexists. now apply GetIntersection_scan.
Qed.

Lemma maintained_never_panics_built :
  sound built_world = true /\
  (forall obj log, exists qt', Insert built_world obj log = Some (qt', log)) /\
  (forall target log, exists qt' removed,
     Remove built_world target log = Some ((qt', removed), log)) /\
  (forall objs log, exists qt', UpdateTree built_world (Some objs) log = Some (qt', log)) /\
  (forall target log, exists sub,
     FindObject built_world target log = Some ((built_world, sub), log)) /\
  (forall (W : Type) (walker : PhysicalObject -> W -> W) w log, exists w',
     Walk built_world walker w log = Some ((built_world, w'), log)) /\
  (forall target objects log, exists objs,
     GetIntersectedObjectsRaw built_world target objects log =
     Some ((built_world, objs), log)) /\
  (forall target log, exists objs,
     GetIntersectedObjects built_world [] target log = Some ((built_world, objs), log)) /\
  (forall intersections potentialObjects log, exists result,
     GetIntersection built_world intersections potentialObjects log =
     Some ((built_world, result), log)).
Proof.
  apply (maintained_never_panics built_world). apply made_Build, made_CreateQuadtree.
Defined.

(** In a tree that [CreateQuadtree], [Build], [UpdateTree], [Insert] and
    [Remove] have made, the node reached from the root through the active
    slots [path] has the bounds that taking the quadrants of [path] one
    after the other in the root's bounds gives, the level [length path] and
    the thresholds of the root; and no node lies deeper than [MaxLevels]. *)
Theorem subdivision_shape (qt : Quadtree) (path : list Z) (node : Quadtree) :
  maintained qt -> is_int (MaxLevels qt) ->
  activeAt path qt = Some node ->
  bounds node = fold_left subBounds path (bounds qt) /\
  Level node = Z.of_nat (length path) /\
  MaxObjects node = MaxObjects qt /\ MaxLevels node = MaxLevels qt /\
  (path <> [] -> Z.of_nat (length path) <= MaxLevels qt).
Proof.
  intros Hm Hint Hnode.
  destruct (maintained_invariants qt Hm) as (_ & Hshape & Hlevel).
  destruct (shaped_path path qt node Hshape) as (Hb & Hmo & Hml & Hl & Hle); auto.
  - lia.
  - apply Hint.
  - rewrite Hlevel in *. simpl in Hl. rewrite <- Hl. auto.
Qed.

Lemma subdivision_shape_built :
  exists node,
    activeAt [3; 0] built_world = Some node /\
    bounds node = fold_left subBounds [3; 0] (bounds built_world) /\
    Level node = 2 /\
    MaxObjects node = 1 /\ MaxLevels node = 10 /\
    ([3; 0] <> [] -> 2 <= 10).
Proof.
  eexists. split; [vm_compute; reflexivity|].
  apply (subdivision_shape built_world [3; 0]).
  - apply made_Build, made_CreateQuadtree.
  - unfold is_int, int_min, int_max. simpl. lia.
  - vm_compute. reflexivity.
Defined.

(** ** The objects of a tree are the objects put in it *)

Lemma fold_collect (objs : list PhysicalObject) : forall seen,
  fold_left (fun acc obj => acc ++ [obj]) objs seen = seen ++ objs.
Proof.
  induction objs as [|obj objs IH]; intros seen; simpl.
  - now rewrite app_nil_r.
  - now rewrite IH, <- app_assoc.
Qed.

Lemma holding_invariants qt objs :
  holding qt objs -> sound qt = true /\ Permutation (allObjects qt) objs.
Proof.
  induction 1 as [b mo ml objs
                 |qt objs Hh (Hs & Hp)
                 |qt objs objs' log qt' log' Hh (Hs & Hp) Hup
                 |qt objs obj log qt' log' Hh (Hs & Hp) Hins
                 |qt objs target log qt' removed log' Hh (Hs & Hp) Hsame Hrem].
  - split; [reflexivity|]. now rewrite allObjects_leaf.
  - split; [now apply Build_sound|].
    rewrite Build_objects; [assumption|]. apply sound_iff in Hs. tauto.
  - injection Hup as <- _. split; [now apply Build_sound|].
    now apply Build_fuel_leaf_objects.
  - destruct (Insert_sound qt Hs obj log) as (qt0 & E & Hs0).
    rewrite E in Hins. injection Hins as <- <-. split; [assumption|].
    rewrite (Insert_objects qt Hs obj log qt0 E). now apply perm_skip.
  - split; [exact (Remove_sound target qt Hs _ _ _ _ Hrem)|].
    destruct (Remove_correct target qt (sound_wf qt Hs) log) as (qt0 & E & _ & _ & Hl & Hnot).
    rewrite E in Hrem. injection Hrem as <- _ _.
    pose proof (Permutation_holds target _ _ Hp) as Hheld.
    destruct (holds target (allObjects qt)) eqn:Hq.
    + destruct (removeFirstIn_split target (nodeLists qt) Hq)
        as (b1 & o1 & a1 & E1 & Ho1 & _ & Hafter).
      fold (allObjects qt) in E1. unfold allObjects at 1. rewrite Hl, Hafter.
      pose proof (removeFirst_holds target objs) as Hr. rewrite <- Hheld in Hr.
      destruct (removeFirst target objs) as [rest|] eqn:E2; [|discriminate].
      destruct (removeFirst_split _ _ _ E2) as (b2 & o2 & a2 & -> & Ho2 & _ & ->).
      assert (o2 = target) by (apply Hsame; [apply in_elt|assumption]).
      assert (o1 = target).
      { apply Hsame; [|assumption]. apply (Permutation_in _ Hp).
        rewrite E1. apply in_elt. }
      subst o1 o2. rewrite E1 in Hp. exact (Permutation_app_inv _ _ _ _ _ Hp).
    + rewrite (Hnot eq_refl).
      pose proof (removeFirst_holds target objs) as Hr. rewrite <- Hheld in Hr.
      now destruct (removeFirst target objs).
Qed.

(** I4.  After any sequence of [Build], [UpdateTree], [Insert] and
    [Remove] on a fresh tree, [Walk] visits the objects that were put in and
    not taken out, each as many times as it was put in, and nothing else. *)
Theorem Walk_visits_holding (qt : Quadtree) (objs : list PhysicalObject) (log : HookLog) :
  holding qt objs ->
  exists seen,
    Walk qt (fun obj seen => seen ++ [obj]) [] log = Some ((qt, seen), log) /\
    Permutation seen objs.
Proof.
  intros Hh. destruct (holding_invariants qt objs Hh) as (Hs & Hp).
  exists (allObjects qt). split; [|exact Hp].
  rewrite (Walk_scan _ qt (sound_wf qt Hs)). now rewrite fold_collect.
Qed.

Lemma Walk_visits_holding_built :
  exists seen,
    Walk built_world (fun obj seen => seen ++ [obj]) [] [] = Some ((built_world, seen), []) /\
    Permutation seen [box_22; box_33].
Proof.
  apply (Walk_visits_holding built_world [box_22; box_33] []).
  apply holding_Build, holding_CreateQuadtree.
Defined.
